(** * RTCPeerConnection.js: the session layer over the native WebRTC engine

    A shallow embedding of [src/RTCPeerConnection.js].  The class keeps a
    few state fields per peer connection, forwards commands to the native
    module [WebRTCModule], and listens on the process-wide
    [DeviceEventEmitter] for the engine's notifications, which it filters
    by peer-connection id and re-dispatches on itself.

    JavaScript objects are mutable and shared, so the embedding threads an
    explicit [World]: the heap of RTCPeerConnection objects (addressed by
    reference), the registry of the shared emitter, the module-level
    counter [nextPeerConnectionId], and a log of every effect that leaves
    the class (native calls, dispatched events, continuation calls,
    console warnings, subscription removals).

    The class ends where its collaborators begin.  What the listeners of
    the event target do with a dispatched event, and what a caller's
    continuation does when called, is not the class's code: a dispatch and
    a call are recorded in the log and return. *)

From Stdlib Require Import ZArith String List Bool Lia.
From stdpp Require Import base numbers list strings.

Open Scope string_scope.
Open Scope list_scope.
Open Scope Z_scope.

(** ** Values that cross the bridge *)

(** Payloads the class forwards without looking inside (configuration,
    constraints, statistics reports, data-channel options). *)
Definition Opaque := string.

(** The [data] argument the engine hands to a completion callback: a
    JavaScript object of which the class reads at most [type] and [sdp];
    a failure carries whatever diagnostic the engine chose. *)
Record Data := {
  data_type : option string;
  data_sdp : option string;
  data_diagnostic : option string;
}.

(** Modelled from the spec: RTCSessionDescription.js is not among the
    sources.  A session description is its wire shape {type, sdp}; the
    constructor copies the two properties of its argument and [toJSON]
    gives them back. *)
Record RTCSessionDescription := {
  sd_type : option string;
  sd_sdp : option string;
}.

Definition newRTCSessionDescription (info : Data) : RTCSessionDescription :=
  {| sd_type := data_type info; sd_sdp := data_sdp info |}.

Definition RTCSessionDescription_toJSON (d : RTCSessionDescription) : Data :=
  {| data_type := sd_type d; data_sdp := sd_sdp d; data_diagnostic := None |}.

(** Modelled from the spec: RTCIceCandidate.js is not among the sources.
    The wire shape is {candidate, sdpMid, sdpMLineIndex}. *)
Record IceCandidateInfo := {
  ci_candidate : string;
  ci_sdpMid : string;
  ci_sdpMLineIndex : Z;
}.

Record RTCIceCandidate := {
  candidate : string;
  sdpMid : string;
  sdpMLineIndex : Z;
}.

Definition newRTCIceCandidate (info : IceCandidateInfo) : RTCIceCandidate :=
  {| candidate := ci_candidate info;
     sdpMid := ci_sdpMid info;
     sdpMLineIndex := ci_sdpMLineIndex info |}.

Definition RTCIceCandidate_toJSON (c : RTCIceCandidate) : IceCandidateInfo :=
  {| ci_candidate := candidate c;
     ci_sdpMid := sdpMid c;
     ci_sdpMLineIndex := sdpMLineIndex c |}.

(** Modelled from the spec: MediaStreamTrack.js is not among the sources.
    A track is an identity, a kind and an enabled flag, built from the
    event payload. *)
Record TrackInfo := {
  ti_id : string;
  ti_kind : string;
  ti_enabled : bool;
}.

Record MediaStreamTrack := {
  mt_id : string;
  mt_kind : string;
  mt_enabled : bool;
}.

Definition newMediaStreamTrack (info : TrackInfo) : MediaStreamTrack :=
  {| mt_id := ti_id info; mt_kind := ti_kind info; mt_enabled := ti_enabled info |}.

(** Modelled from the spec: MediaStream.js is not among the sources.  A
    stream is an identity plus an ordered collection of tracks;
    [addTrack] appends.  [ms_ref] is the address of the object: two
    [new MediaStream(id)] with the same id are two objects, and
    [Array.prototype.indexOf] compares addresses. *)
Record MediaStream := {
  ms_ref : nat;
  ms_id : string;
  ms_tracks : list MediaStreamTrack;
}.

Definition addTrack (stream : MediaStream) (t : MediaStreamTrack) : MediaStream :=
  {| ms_ref := ms_ref stream;
     ms_id := ms_id stream;
     ms_tracks := ms_tracks stream ++ [t] |}.

(** ** The RTCPeerConnection object *)

(** The fields of the class.  The three state fields are JavaScript
    strings: the Flow enumerations of the source are erased at run time
    and the listeners store whatever the engine sent. *)
Record Session := {
  localDescription : option RTCSessionDescription;
  remoteDescription : option RTCSessionDescription;
  signalingState : string;
  iceGatheringState : string;
  iceConnectionState : string;
  _peerConnectionId : Z;
  _remoteStreams : list MediaStream;
  _subscriptions : list nat;
}.

Definition set_localDescription (d : RTCSessionDescription) (s : Session) : Session :=
  {| localDescription := Some d;
     remoteDescription := remoteDescription s;
     signalingState := signalingState s;
     iceGatheringState := iceGatheringState s;
     iceConnectionState := iceConnectionState s;
     _peerConnectionId := _peerConnectionId s;
     _remoteStreams := _remoteStreams s;
     _subscriptions := _subscriptions s |}.

Definition set_remoteDescription (d : RTCSessionDescription) (s : Session) : Session :=
  {| localDescription := localDescription s;
     remoteDescription := Some d;
     signalingState := signalingState s;
     iceGatheringState := iceGatheringState s;
     iceConnectionState := iceConnectionState s;
     _peerConnectionId := _peerConnectionId s;
     _remoteStreams := _remoteStreams s;
     _subscriptions := _subscriptions s |}.

Definition set_signalingState (v : string) (s : Session) : Session :=
  {| localDescription := localDescription s;
     remoteDescription := remoteDescription s;
     signalingState := v;
     iceGatheringState := iceGatheringState s;
     iceConnectionState := iceConnectionState s;
     _peerConnectionId := _peerConnectionId s;
     _remoteStreams := _remoteStreams s;
     _subscriptions := _subscriptions s |}.

Definition set_iceGatheringState (v : string) (s : Session) : Session :=
  {| localDescription := localDescription s;
     remoteDescription := remoteDescription s;
     signalingState := signalingState s;
     iceGatheringState := v;
     iceConnectionState := iceConnectionState s;
     _peerConnectionId := _peerConnectionId s;
     _remoteStreams := _remoteStreams s;
     _subscriptions := _subscriptions s |}.

Definition set_iceConnectionState (v : string) (s : Session) : Session :=
  {| localDescription := localDescription s;
     remoteDescription := remoteDescription s;
     signalingState := signalingState s;
     iceGatheringState := iceGatheringState s;
     iceConnectionState := v;
     _peerConnectionId := _peerConnectionId s;
     _remoteStreams := _remoteStreams s;
     _subscriptions := _subscriptions s |}.

Definition set_remoteStreams (v : list MediaStream) (s : Session) : Session :=
  {| localDescription := localDescription s;
     remoteDescription := remoteDescription s;
     signalingState := signalingState s;
     iceGatheringState := iceGatheringState s;
     iceConnectionState := iceConnectionState s;
     _peerConnectionId := _peerConnectionId s;
     _remoteStreams := v;
     _subscriptions := _subscriptions s |}.

Definition set_subscriptions (v : list nat) (s : Session) : Session :=
  {| localDescription := localDescription s;
     remoteDescription := remoteDescription s;
     signalingState := signalingState s;
     iceGatheringState := iceGatheringState s;
     iceConnectionState := iceConnectionState s;
     _peerConnectionId := _peerConnectionId s;
     _remoteStreams := _remoteStreams s;
     _subscriptions := v |}.

(** The object as the class-field initialisers and the constructor's
    first assignment leave it. *)
Definition newSession (id : Z) : Session :=
  {| localDescription := None;
     remoteDescription := None;
     signalingState := "stable";
     iceGatheringState := "new";
     iceConnectionState := "new";
     _peerConnectionId := id;
     _remoteStreams := [];
     _subscriptions := [] |}.

(** ** The events of the two channels *)

(** What the engine emits on [DeviceEventEmitter]: the event type and the
    payload [ev], every payload carrying the peer-connection [id]. *)
Inductive NativeEvent :=
| peerConnectionOnRenegotiationNeeded (id : Z)
| peerConnectionIceConnectionChanged (id : Z) (state : string)
| peerConnectionSignalingStateChanged (id : Z) (state : string)
| peerConnectionAddedStream (id : Z) (streamId : string) (tracks : list TrackInfo)
| peerConnectionRemovedStream (id : Z) (streamId : string)
| peerConnectionGotICECandidate (id : Z) (info : IceCandidateInfo)
| peerConnectionIceGatheringChanged (id : Z) (state : string).

Inductive EventType :=
| OnRenegotiationNeeded
| IceConnectionChanged
| SignalingStateChanged
| AddedStream
| RemovedStream
| GotICECandidate
| IceGatheringChanged.

Definition eventType (ev : NativeEvent) : EventType :=
  match ev with
  | peerConnectionOnRenegotiationNeeded _ => OnRenegotiationNeeded
  | peerConnectionIceConnectionChanged _ _ => IceConnectionChanged
  | peerConnectionSignalingStateChanged _ _ => SignalingStateChanged
  | peerConnectionAddedStream _ _ _ => AddedStream
  | peerConnectionRemovedStream _ _ => RemovedStream
  | peerConnectionGotICECandidate _ _ => GotICECandidate
  | peerConnectionIceGatheringChanged _ _ => IceGatheringChanged
  end.

Definition ev_id (ev : NativeEvent) : Z :=
  match ev with
  | peerConnectionOnRenegotiationNeeded id
  | peerConnectionIceConnectionChanged id _
  | peerConnectionSignalingStateChanged id _
  | peerConnectionAddedStream id _ _
  | peerConnectionRemovedStream id _
  | peerConnectionGotICECandidate id _
  | peerConnectionIceGatheringChanged id _ => id
  end.

#[global] Instance EventType_eq_dec : EqDecision EventType.
Proof. solve_decision. Defined.

(** What the class dispatches on itself (it extends EventTarget): the
    three event classes of the source with their [type] string.  A
    [MediaStreamEvent] built from [{stream}] with [stream] undefined
    carries [None]. *)
Inductive Event :=
| RTCEvent (type : string)
| MediaStreamEvent (type : string) (stream : option MediaStream)
| RTCIceCandidateEvent (type : string) (c : RTCIceCandidate).

(** ** Closures handed to the engine *)

(** A caller-supplied function ([success], [failure]): the class only
    ever calls it, so it is a name. [None] is an omitted argument. *)
Definition Fn := nat.

Inductive Arg :=
| ArgDescription (d : RTCSessionDescription)
| ArgData (d : Data)
| ArgStats (stats : Opaque).

(** The arrow functions the commands pass to [WebRTCModule], as the
    variables they close over. *)
Inductive Callback :=
| CreateOfferCallback (success failure : option Fn)
| CreateAnswerCallback (success failure : option Fn)
| SetLocalDescriptionCallback (this : nat) (sessionDescription : RTCSessionDescription)
    (success failure : option Fn)
| SetRemoteDescriptionCallback (this : nat) (sessionDescription : RTCSessionDescription)
    (success failure : option Fn)
| AddICECandidateCallback (success failure : option Fn)
| GetStatsCallback (success : option Fn).

Inductive NativeCall :=
| peerConnectionInit (configuration : Opaque) (id : Z)
| peerConnectionAddStream (streamId : string) (id : Z)
| peerConnectionRemoveStream (streamId : string) (id : Z)
| peerConnectionCreateOffer (id : Z) (cb : Callback)
| peerConnectionCreateAnswer (id : Z) (cb : Callback)
| peerConnectionSetLocalDescription (d : Data) (id : Z) (cb : Callback)
| peerConnectionSetRemoteDescription (d : Data) (id : Z) (cb : Callback)
| peerConnectionAddICECandidate (c : IceCandidateInfo) (id : Z) (cb : Callback)
| peerConnectionGetStats (trackId : string + Z) (id : Z) (cb : Callback)
| peerConnectionClose (id : Z).

(** ** The world *)

(** A registration in [DeviceEventEmitter]: the subscription object that
    [addListener] returned, the event type, and the object whose
    [_registerEvents] created the arrow function ([this] inside it). *)
Record Listener := {
  l_subscription : nat;
  l_eventType : EventType;
  l_this : nat;
}.

#[global] Instance Listener_eq_dec : EqDecision Listener.
Proof. solve_decision. Defined.

(** Everything observable from outside the class, in program order.
    [Dispatched] records the receiver as its listeners see it at that
    moment. *)
Inductive Effect :=
| Native (c : NativeCall)
| Dispatched (target : nat) (e : Event) (seen : Session)
| Called (f : Fn) (args : list Arg)
| Warned (message : string)
| Removed (subscription : nat).

Record World := {
  heap : list Session;
  listeners : list Listener;
  nextPeerConnectionId : Z;
  nextSubscription : nat;
  nextStream : nat;
  hasGetStats : bool;
  log : list Effect;
}.

Definition with_heap (h : list Session) (w : World) : World :=
  {| heap := h;
     listeners := listeners w;
     nextPeerConnectionId := nextPeerConnectionId w;
     nextSubscription := nextSubscription w;
     nextStream := nextStream w;
     hasGetStats := hasGetStats w;
     log := log w |}.

Definition with_listeners (ls : list Listener) (w : World) : World :=
  {| heap := heap w;
     listeners := ls;
     nextPeerConnectionId := nextPeerConnectionId w;
     nextSubscription := nextSubscription w;
     nextStream := nextStream w;
     hasGetStats := hasGetStats w;
     log := log w |}.

Definition with_nextPeerConnectionId (n : Z) (w : World) : World :=
  {| heap := heap w;
     listeners := listeners w;
     nextPeerConnectionId := n;
     nextSubscription := nextSubscription w;
     nextStream := nextStream w;
     hasGetStats := hasGetStats w;
     log := log w |}.

Definition with_nextSubscription (n : nat) (w : World) : World :=
  {| heap := heap w;
     listeners := listeners w;
     nextPeerConnectionId := nextPeerConnectionId w;
     nextSubscription := n;
     nextStream := nextStream w;
     hasGetStats := hasGetStats w;
     log := log w |}.

Definition with_nextStream (n : nat) (w : World) : World :=
  {| heap := heap w;
     listeners := listeners w;
     nextPeerConnectionId := nextPeerConnectionId w;
     nextSubscription := nextSubscription w;
     nextStream := n;
     hasGetStats := hasGetStats w;
     log := log w |}.

Definition with_log (l : list Effect) (w : World) : World :=
  {| heap := heap w;
     listeners := listeners w;
     nextPeerConnectionId := nextPeerConnectionId w;
     nextSubscription := nextSubscription w;
     nextStream := nextStream w;
     hasGetStats := hasGetStats w;
     log := l |}.

(** The module just loaded: no object, no listener, counter at 0.  Whether
    the native module offers [peerConnectionGetStats] depends on the
    platform. *)
Definition initial (stats : bool) : World :=
  {| heap := [];
     listeners := [];
     nextPeerConnectionId := 0;
     nextSubscription := 0%nat;
     nextStream := 0%nat;
     hasGetStats := stats;
     log := [] |}.

(** ** A state-and-exception monad for method bodies *)

Inductive Exn :=
| TypeError (message : string).

Inductive Result (A : Type) :=
| Ok (a : A)
| Throw (e : Exn).
Arguments Ok {A} a.
Arguments Throw {A} e.

Definition M (A : Type) : Type := World -> Result A * World.

Definition ret {A} (a : A) : M A := fun w => (Ok a, w).

Definition bind {A B} (m : M A) (k : A -> M B) : M B :=
  fun w =>
    match m w with
    | (Ok a, w') => k a w'
    | (Throw e, w') => (Throw e, w')
    end.

Notation "x <- m ;; k" := (bind m (fun x => k))
  (at level 100, m at next level, right associativity).
Notation "m ;; k" := (bind m (fun _ => k))
  (at level 100, right associativity).

Definition throw {A} (e : Exn) : M A := fun w => (Throw e, w).

Definition exec {A} (m : M A) (w : World) : World := snd (m w).
Definition outcome {A} (m : M A) (w : World) : Result A := fst (m w).

Definition tell (e : Effect) : M unit :=
  fun w => (Ok tt, with_log (log w ++ [e]) w).

Fixpoint forEach {A} (l : list A) (f : A -> M unit) : M unit :=
  match l with
  | [] => ret tt
  | x :: l' => f x ;; forEach l' f
  end.

(** Reading and writing the fields of [this]. *)
Definition getThis (this : nat) : M Session :=
  fun w =>
    match heap w !! this with
    | Some s => (Ok s, w)
    | None => (Throw (TypeError "this is undefined"), w)
    end.

Definition modifyThis (this : nat) (f : Session -> Session) : M unit :=
  fun w => (Ok tt, with_heap (alter f this (heap w)) w).

(** [WebRTCModule.f(...)] *)
Definition native (c : NativeCall) : M unit := tell (Native c).

(** [this.dispatchEvent(e)] *)
Definition dispatchEvent (this : nat) (e : Event) : M unit :=
  s <- getThis this ;;
  tell (Dispatched this e s).

(** [f(args)] for a possibly omitted [f]: calling [undefined] throws. *)
Definition call (f : option Fn) (args : list Arg) : M unit :=
  match f with
  | Some k => tell (Called k args)
  | None => throw (TypeError "undefined is not a function")
  end.

(** Truthiness of a [?Function]. *)
Definition truthy {A} (f : option A) : bool :=
  match f with Some _ => true | None => false end.

(** ** Array.prototype, as far as the class uses it *)

Definition push {A} (l : list A) (x : A) : list A := l ++ [x].

(** [indexOf] on an array of objects compares references. *)
Fixpoint indexOf_from (x : MediaStream) (l : list MediaStream) (i : Z) : Z :=
  match l with
  | [] => -1
  | y :: l' => if (ms_ref y =? ms_ref x)%nat then i else indexOf_from x l' (i + 1)
  end.

Definition indexOf (x : MediaStream) (l : list MediaStream) : Z :=
  indexOf_from x l 0.

(** [splice(index, 1)]: a negative index counts from the end, an index
    past the end removes nothing. *)
Definition splice1 {A} (index : Z) (l : list A) : list A :=
  let len := Z.of_nat (length l) in
  let start := if index <? 0 then Z.max (len + index) 0 else Z.min index len in
  take (Z.to_nat start) l ++ drop (S (Z.to_nat start)) l.

(** ** DeviceEventEmitter

    The emitter is React Native's, an external library.  Its contract, as
    the class relies on it: [addListener] registers a listener for an
    event type and returns a fresh subscription; [remove] on the
    subscription unregisters it; [emit] takes the subscriptions registered
    for the type at the time of the call and invokes, in registration
    order, each one that has not been removed in the meantime. *)

Definition addListener (type : EventType) (this : nat) : M nat :=
  fun w =>
    let subscription := nextSubscription w in
    let l := {| l_subscription := subscription; l_eventType := type; l_this := this |} in
    (Ok subscription,
     with_nextSubscription (S subscription) (with_listeners (listeners w ++ [l]) w)).

Definition remove (subscription : nat) : M unit :=
  fun w =>
    (Ok tt,
     with_log (log w ++ [Removed subscription])
       (with_listeners
          (filter (fun l => l_subscription l <> subscription) (listeners w)) w)).

(** ** The class *)

(** [new MediaStream(id)] allocates an object with no track. *)
Definition newMediaStream (id : string) : M MediaStream :=
  fun w =>
    (Ok {| ms_ref := nextStream w; ms_id := id; ms_tracks := [] |},
     with_nextStream (S (nextStream w)) w).

Definition _unregisterEvents (this : nat) : M unit :=
  s <- getThis this ;;
  forEach (_subscriptions s) remove ;;
  modifyThis this (set_subscriptions []).

(** The seven arrow functions of [_registerEvents], each with [this] bound
    to the object being constructed. *)

Definition onRenegotiationNeeded (this : nat) (id : Z) : M unit :=
  s <- getThis this ;;
  if negb (id =? _peerConnectionId s) then ret tt
  else dispatchEvent this (RTCEvent "negotiationneeded").

Definition onIceConnectionChanged (this : nat) (id : Z) (state : string) : M unit :=
  s <- getThis this ;;
  if negb (id =? _peerConnectionId s) then ret tt
  else
    (modifyThis this (set_iceConnectionState state) ;;
     dispatchEvent this (RTCEvent "iceconnectionstatechange") ;;
     if String.eqb state "closed" then _unregisterEvents this else ret tt).

Definition onSignalingStateChanged (this : nat) (id : Z) (state : string) : M unit :=
  s <- getThis this ;;
  if negb (id =? _peerConnectionId s) then ret tt
  else
    (modifyThis this (set_signalingState state) ;;
     dispatchEvent this (RTCEvent "signalingstatechange")).

Definition onAddedStream (this : nat) (id : Z) (streamId : string)
    (tracks : list TrackInfo) : M unit :=
  s <- getThis this ;;
  if negb (id =? _peerConnectionId s) then ret tt
  else
    (stream0 <- newMediaStream streamId ;;
     let stream :=
       fold_left (fun st info => addTrack st (newMediaStreamTrack info)) tracks stream0 in
     modifyThis this (fun s => set_remoteStreams (push (_remoteStreams s) stream) s) ;;
     dispatchEvent this (MediaStreamEvent "addstream" (Some stream))).

Definition onRemovedStream (this : nat) (id : Z) (streamId : string) : M unit :=
  s <- getThis this ;;
  if negb (id =? _peerConnectionId s) then ret tt
  else
    (let stream := List.find (fun s' => String.eqb (ms_id s') streamId) (_remoteStreams s) in
     match stream with
     | Some st =>
         let index := indexOf st (_remoteStreams s) in
         if index >? -1
         then modifyThis this (fun s => set_remoteStreams (splice1 index (_remoteStreams s)) s)
         else ret tt
     | None => ret tt
     end ;;
     dispatchEvent this (MediaStreamEvent "removestream" stream)).

Definition onGotICECandidate (this : nat) (id : Z) (info : IceCandidateInfo) : M unit :=
  s <- getThis this ;;
  if negb (id =? _peerConnectionId s) then ret tt
  else
    (let candidate := newRTCIceCandidate info in
     let event := RTCIceCandidateEvent "icecandidate" candidate in
     dispatchEvent this event).

Definition onIceGatheringChanged (this : nat) (id : Z) (state : string) : M unit :=
  s <- getThis this ;;
  if negb (id =? _peerConnectionId s) then ret tt
  else
    (modifyThis this (set_iceGatheringState state) ;;
     dispatchEvent this (RTCEvent "icegatheringstatechange")).

(** The listener that [this] registered for the type of [ev], applied to
    [ev]. *)
Definition listener (this : nat) (ev : NativeEvent) : M unit :=
  match ev with
  | peerConnectionOnRenegotiationNeeded id => onRenegotiationNeeded this id
  | peerConnectionIceConnectionChanged id state => onIceConnectionChanged this id state
  | peerConnectionSignalingStateChanged id state => onSignalingStateChanged this id state
  | peerConnectionAddedStream id streamId tracks => onAddedStream this id streamId tracks
  | peerConnectionRemovedStream id streamId => onRemovedStream this id streamId
  | peerConnectionGotICECandidate id info => onGotICECandidate this id info
  | peerConnectionIceGatheringChanged id state => onIceGatheringChanged this id state
  end.

Definition _registerEvents (this : nat) : M unit :=
  e0 <- addListener OnRenegotiationNeeded this ;;
  e1 <- addListener IceConnectionChanged this ;;
  e2 <- addListener SignalingStateChanged this ;;
  e3 <- addListener AddedStream this ;;
  e4 <- addListener RemovedStream this ;;
  e5 <- addListener GotICECandidate this ;;
  e6 <- addListener IceGatheringChanged this ;;
  modifyThis this (set_subscriptions [e0; e1; e2; e3; e4; e5; e6]).

(** [DeviceEventEmitter.emit(type, ev)], by the engine.  [deliver] is one
    turn of its loop: a subscription removed since the call began is
    skipped. *)
Definition deliver (ev : NativeEvent) (l : Listener) : M unit :=
  fun w =>
    if decide (l ∈ listeners w) then listener (l_this l) ev w else (Ok tt, w).

Definition emit (ev : NativeEvent) : M unit :=
  fun w =>
    let subscriptions :=
      filter (fun l => l_eventType l = eventType ev) (listeners w) in
    forEach subscriptions (deliver ev) w.

(** [nextPeerConnectionId++] *)
Definition postIncrement : M Z :=
  fun w => (Ok (nextPeerConnectionId w),
            with_nextPeerConnectionId (nextPeerConnectionId w + 1) w).

Definition allocate (s : Session) : M nat :=
  fun w => (Ok (length (heap w)), with_heap (heap w ++ [s]) w).

Definition constructor (configuration : Opaque) : M nat :=
  id <- postIncrement ;;
  this <- allocate (newSession id) ;;
  native (peerConnectionInit configuration id) ;;
  _registerEvents this ;;
  ret this.

Definition addStream (this : nat) (stream : MediaStream) : M unit :=
  s <- getThis this ;;
  native (peerConnectionAddStream (ms_id stream) (_peerConnectionId s)).

Definition removeStream (this : nat) (stream : MediaStream) : M unit :=
  s <- getThis this ;;
  native (peerConnectionRemoveStream (ms_id stream) (_peerConnectionId s)).

Definition createOffer (this : nat) (success failure : option Fn)
    (constraints : Opaque) : M unit :=
  s <- getThis this ;;
  native (peerConnectionCreateOffer (_peerConnectionId s)
            (CreateOfferCallback success failure)).

Definition createAnswer (this : nat) (success failure : option Fn)
    (constraints : Opaque) : M unit :=
  s <- getThis this ;;
  native (peerConnectionCreateAnswer (_peerConnectionId s)
            (CreateAnswerCallback success failure)).

Definition setLocalDescription (this : nat) (sessionDescription : RTCSessionDescription)
    (success failure : option Fn) (constraints : Opaque) : M unit :=
  s <- getThis this ;;
  native (peerConnectionSetLocalDescription
            (RTCSessionDescription_toJSON sessionDescription) (_peerConnectionId s)
            (SetLocalDescriptionCallback this sessionDescription success failure)).

Definition setRemoteDescription (this : nat) (sessionDescription : RTCSessionDescription)
    (success failure : option Fn) : M unit :=
  s <- getThis this ;;
  native (peerConnectionSetRemoteDescription
            (RTCSessionDescription_toJSON sessionDescription) (_peerConnectionId s)
            (SetRemoteDescriptionCallback this sessionDescription success failure)).

Definition addIceCandidate (this : nat) (candidate : RTCIceCandidate)
    (success failure : option Fn) : M unit :=
  s <- getThis this ;;
  native (peerConnectionAddICECandidate
            (RTCIceCandidate_toJSON candidate) (_peerConnectionId s)
            (AddICECandidateCallback success failure)).

Definition getStats (this : nat) (track : option MediaStreamTrack)
    (success failure : option Fn) : M unit :=
  fun w =>
    if hasGetStats w
    then
      (s <- getThis this ;;
       native (peerConnectionGetStats
                 (match track with Some t => inl (mt_id t) | None => inr (-1) end)
                 (_peerConnectionId s)
                 (GetStatsCallback success))) w
    else tell (Warned "RTCPeerConnection getStats doesn't support") w.

Definition close (this : nat) : M unit :=
  s <- getThis this ;;
  native (peerConnectionClose (_peerConnectionId s)).

(** Modelled from the spec: RTCDataChannel.js is not among the sources.
    [createDataChannel] constructs a channel handle bound to this
    session's identity; it receives the id, not the object.  The model
    keeps what this class does, reading [_peerConnectionId] and passing it
    on with [label] and [options].  What the constructor of the channel
    does with the engine and the emitter on its own account is the
    channel's life cycle and is not modelled: a statement below that
    ranges over every [Step] covers of [createDataChannel] this class's
    part only, which can reach no connection object, and no statement is
    about the effects of the call. *)
Record RTCDataChannel := {
  dc_peerConnectionId : Z;
  dc_label : string;
  dc_options : Opaque;
}.

Definition createDataChannel (this : nat) (label : string) (options : Opaque)
    : M RTCDataChannel :=
  s <- getThis this ;;
  ret {| dc_peerConnectionId := _peerConnectionId s;
         dc_label := label;
         dc_options := options |}.

(** ** The completion callbacks *)

(** What the engine passes to each callback: [(successful, data)] for
    offers, answers and descriptions, [(successful)] for candidates and
    [(stats)] for statistics. *)
Definition CallbackArgs (cb : Callback) : Type :=
  match cb with
  | CreateOfferCallback _ _ => (bool * Data)%type
  | CreateAnswerCallback _ _ => (bool * Data)%type
  | SetLocalDescriptionCallback _ _ _ _ => (bool * Data)%type
  | SetRemoteDescriptionCallback _ _ _ _ => (bool * Data)%type
  | AddICECandidateCallback _ _ => bool
  | GetStatsCallback _ => Opaque
  end.

Definition createOffer_callback (success failure : option Fn)
    (successful : bool) (data : Data) : M unit :=
  if successful then
    let sessionDescription := newRTCSessionDescription data in
    call success [ArgDescription sessionDescription]
  else call failure [ArgData data].

Definition createAnswer_callback (success failure : option Fn)
    (successful : bool) (data : Data) : M unit :=
  if successful then
    let sessionDescription := newRTCSessionDescription data in
    call success [ArgDescription sessionDescription]
  else call failure [ArgData data].

Definition setLocalDescription_callback (this : nat)
    (sessionDescription : RTCSessionDescription) (success failure : option Fn)
    (successful : bool) (data : Data) : M unit :=
  if successful then
    (modifyThis this (set_localDescription sessionDescription) ;;
     call success [])
  else call failure [ArgData data].

Definition setRemoteDescription_callback (this : nat)
    (sessionDescription : RTCSessionDescription) (success failure : option Fn)
    (successful : bool) (data : Data) : M unit :=
  if successful then
    (modifyThis this (set_remoteDescription sessionDescription) ;;
     call success [])
  else call failure [ArgData data].

Definition addIceCandidate_callback (success failure : option Fn)
    (successful : bool) : M unit :=
  if successful then
    (if truthy success then call success [] else ret tt)
  else
    (if truthy failure then call failure [] else ret tt).

Definition getStats_callback (success : option Fn) (stats : Opaque) : M unit :=
  if truthy success then call success [ArgStats stats] else ret tt.

Definition invoke (cb : Callback) : CallbackArgs cb -> M unit :=
  match cb return CallbackArgs cb -> M unit with
  | CreateOfferCallback success failure =>
      fun a => createOffer_callback success failure (fst a) (snd a)
  | CreateAnswerCallback success failure =>
      fun a => createAnswer_callback success failure (fst a) (snd a)
  | SetLocalDescriptionCallback this d success failure =>
      fun a => setLocalDescription_callback this d success failure (fst a) (snd a)
  | SetRemoteDescriptionCallback this d success failure =>
      fun a => setRemoteDescription_callback this d success failure (fst a) (snd a)
  | AddICECandidateCallback success failure =>
      fun a => addIceCandidate_callback success failure a
  | GetStatsCallback success =>
      fun a => getStats_callback success a
  end.

(** ** Runs of the program *)

(** One turn of the JavaScript thread: a caller constructs a connection
    or calls a method, or the engine invokes a callback or emits an
    event. *)
Inductive Step :=
| New (configuration : Opaque)
| AddStream (this : nat) (stream : MediaStream)
| RemoveStream (this : nat) (stream : MediaStream)
| CreateOffer (this : nat) (success failure : option Fn) (constraints : Opaque)
| CreateAnswer (this : nat) (success failure : option Fn) (constraints : Opaque)
| SetLocalDescription (this : nat) (d : RTCSessionDescription)
    (success failure : option Fn) (constraints : Opaque)
| SetRemoteDescription (this : nat) (d : RTCSessionDescription)
    (success failure : option Fn)
| AddIceCandidate (this : nat) (c : RTCIceCandidate) (success failure : option Fn)
| GetStats (this : nat) (track : option MediaStreamTrack) (success failure : option Fn)
| Close (this : nat)
| CreateDataChannel (this : nat) (label : string) (options : Opaque)
| Invoke (cb : Callback) (args : CallbackArgs cb)
| Emit (ev : NativeEvent).

Definition step (st : Step) (w : World) : World :=
  match st with
  | New configuration => exec (constructor configuration) w
  | AddStream this stream => exec (addStream this stream) w
  | RemoveStream this stream => exec (removeStream this stream) w
  | CreateOffer this success failure c => exec (createOffer this success failure c) w
  | CreateAnswer this success failure c => exec (createAnswer this success failure c) w
  | SetLocalDescription this d success failure c =>
      exec (setLocalDescription this d success failure c) w
  | SetRemoteDescription this d success failure =>
      exec (setRemoteDescription this d success failure) w
  | AddIceCandidate this c success failure =>
      exec (addIceCandidate this c success failure) w
  | GetStats this track success failure => exec (getStats this track success failure) w
  | Close this => exec (close this) w
  | CreateDataChannel this label options => exec (createDataChannel this label options) w
  | Invoke cb args => exec (invoke cb args) w
  | Emit ev => exec (emit ev) w
  end.

Definition run (steps : list Step) (w : World) : World :=
  fold_left (fun w st => step st w) steps w.

Inductive reachable : World -> Prop :=
| reachable_initial (stats : bool) : reachable (initial stats)
| reachable_step (w : World) (st : Step) : reachable w -> reachable (step st w).

(** The events dispatched on [this], oldest first. *)
Definition dispatched (this : nat) (l : list Effect) : list Event :=
  omap (fun e =>
          match e with
          | Dispatched target ev _ => if (target =? this)%nat then Some ev else None
          | _ => None
          end) l.

(** ** Vocabulary for the statements *)

(** The object [new MediaStream(streamId)] plus one [addTrack] per entry
    of [tracks], as the stream-added listener builds it in world [w]. *)
Definition constructedStream (w : World) (streamId : string) (tracks : list TrackInfo)
    : MediaStream :=
  {| ms_ref := nextStream w;
     ms_id := streamId;
     ms_tracks := map newMediaStreamTrack tracks |}.

(** The event types in the order [_registerEvents] subscribes to them. *)
Definition eventTypes : list EventType :=
  [OnRenegotiationNeeded; IceConnectionChanged; SignalingStateChanged; AddedStream;
   RemovedStream; GotICECandidate; IceGatheringChanged].

(** The registrations whose listener closes over [this]. *)
Definition owned (this : nat) (ls : list Listener) : list Listener :=
  filter (fun l => l_this l = this) ls.

(** What [_registerEvents] leaves in the emitter for [this] when the
    subscriptions it got back are [subs]. *)
Definition registration (this : nat) (subs : list nat) : list Listener :=
  zip_with (fun e t => {| l_subscription := e; l_eventType := t; l_this := this |})
    subs eventTypes.

(** [this] still listens on the shared emitter / has been torn down. *)
Definition subscribed (this : nat) (w : World) : Prop :=
  owned this (listeners w) <> [].

Definition unsubscribed (this : nat) (w : World) : Prop :=
  is_Some (heap w !! this) /\ owned this (listeners w) = [].

(** What holds of every world the program reaches: an object has either
    its seven listeners, one per event type, under the subscriptions it
    stores, or none and an empty [_subscriptions]; every listener belongs
    to an object of the heap; subscriptions are never handed out twice;
    peer-connection ids are never handed out twice. *)
Record Inv (w : World) : Prop := {
  inv_subscribed : forall this s, heap w !! this = Some s ->
    (owned this (listeners w) = [] /\ _subscriptions s = []) \/
    (owned this (listeners w) = registration this (_subscriptions s)
     /\ length (_subscriptions s) = 7%nat);
  inv_this : forall l, l ∈ listeners w -> is_Some (heap w !! l_this l);
  inv_nodup : NoDup (l_subscription <$> listeners w);
  inv_fresh : forall l, l ∈ listeners w -> (l_subscription l < nextSubscription w)%nat;
  inv_ids : forall this this' s s', heap w !! this = Some s -> heap w !! this' = Some s' ->
    _peerConnectionId s = _peerConnectionId s' -> this = this';
  inv_next_id : forall this s, heap w !! this = Some s ->
    _peerConnectionId s < nextPeerConnectionId w;
}.

(** The world after the ice-connection-changed listener of [this] has
    handled 'closed', [s] being the object before. *)
Definition closedWorld (this : nat) (s : Session) (w : World) : World :=
  {| heap := alter (fun s => set_subscriptions [] (set_iceConnectionState "closed" s))
               this (heap w);
     listeners := filter (fun l => l_subscription l ∉ _subscriptions s) (listeners w);
     nextPeerConnectionId := nextPeerConnectionId w;
     nextSubscription := nextSubscription w;
     nextStream := nextStream w;
     hasGetStats := hasGetStats w;
     log := log w
            ++ [Dispatched this (RTCEvent "iceconnectionstatechange")
                  (set_iceConnectionState "closed" s)]
            ++ map Removed (_subscriptions s) |}.

(** The world after [new RTCPeerConnection(configuration)]. *)
Definition constructedWorld (configuration : Opaque) (w : World) : World :=
  let this := length (heap w) in
  let subs := seq (nextSubscription w) 7 in
  {| heap := heap w ++ [set_subscriptions subs (newSession (nextPeerConnectionId w))];
     listeners := listeners w ++ registration this subs;
     nextPeerConnectionId := nextPeerConnectionId w + 1;
     nextSubscription := 7 + nextSubscription w;
     nextStream := nextStream w;
     hasGetStats := hasGetStats w;
     log := log w ++ [Native (peerConnectionInit configuration (nextPeerConnectionId w))] |}.

(** What one run of the listener of [this] on [ev] can do to the world:
    nothing; or update fields of [this] other than its id and
    subscriptions and dispatch one event on it; or the closing
    transition. *)
Inductive ListenerOutcome (this : nat) (ev : NativeEvent) (w w' : World) : Prop :=
| lo_none : w' = w -> ListenerOutcome this ev w w'
| lo_update (s : Session) (f : Session -> Session) (e : Event) (n : nat) :
    heap w !! this = Some s ->
    ev_id ev = _peerConnectionId s ->
    (forall x, _peerConnectionId (f x) = _peerConnectionId x) ->
    (forall x, _subscriptions (f x) = _subscriptions x) ->
    (forall x, iceConnectionState (f x) = iceConnectionState x) \/
    (exists v, ev = peerConnectionIceConnectionChanged (_peerConnectionId s) v
               /\ forall x, iceConnectionState (f x) = v) ->
    w' = {| heap := alter f this (heap w);
            listeners := listeners w;
            nextPeerConnectionId := nextPeerConnectionId w;
            nextSubscription := nextSubscription w;
            nextStream := n;
            hasGetStats := hasGetStats w;
            log := log w ++ [Dispatched this e (f s)] |} ->
    ListenerOutcome this ev w w'
| lo_closed (s : Session) :
    heap w !! this = Some s ->
    ev = peerConnectionIceConnectionChanged (_peerConnectionId s) "closed" ->
    w' = closedWorld this s w ->
    ListenerOutcome this ev w w'.

(** A field update that touches none of the state fields, the id, the
    remote streams or the subscriptions. *)
Definition keepsState (f : Session -> Session) : Prop :=
  forall x,
    signalingState (f x) = signalingState x
    /\ iceGatheringState (f x) = iceGatheringState x
    /\ iceConnectionState (f x) = iceConnectionState x
    /\ _peerConnectionId (f x) = _peerConnectionId x
    /\ _remoteStreams (f x) = _remoteStreams x
    /\ _subscriptions (f x) = _subscriptions x.

(** What a method call or a completion callback can do to the world:
    nothing; or append effects that are not dispatches; or, besides,
    write a description field of one object. *)
Inductive CommandOutcome (w w' : World) : Prop :=
| co_same : w' = w -> CommandOutcome w w'
| co_log (es : list Effect) :
    (forall o, dispatched o es = []) ->
    w' = with_log (log w ++ es) w ->
    CommandOutcome w w'
| co_alter (this : nat) (f : Session -> Session) (es : list Effect) :
    keepsState f ->
    (forall o, dispatched o es = []) ->
    w' = with_log (log w ++ es) (with_heap (alter f this (heap w)) w) ->
    CommandOutcome w w'.

(** The steps taken by a caller's method call or by a completion
    callback. *)
Definition isCommand (st : Step) : Prop :=
  match st with
  | New _ | Emit _ => False
  | _ => True
  end.

(** [ev] is the ice-connection-changed event that carries 'closed'. *)
Definition closes (ev : NativeEvent) : bool :=
  match ev with
  | peerConnectionIceConnectionChanged _ state => String.eqb state "closed"
  | _ => false
  end.

(** The events of a sequence that the listeners of the session with the
    given id apply: those that carry the id, up to and including the one
    that closes the connection. *)
Fixpoint applied (id : Z) (evs : list NativeEvent) : list NativeEvent :=
  match evs with
  | [] => []
  | ev :: rest =>
      if ev_id ev =? id
      then ev :: (if closes ev then [] else applied id rest)
      else applied id rest
  end.

(** The state value an event carries for each of the three state fields. *)
Definition carriedIceConnectionState (ev : NativeEvent) : option string :=
  match ev with peerConnectionIceConnectionChanged _ state => Some state | _ => None end.

Definition carriedSignalingState (ev : NativeEvent) : option string :=
  match ev with peerConnectionSignalingStateChanged _ state => Some state | _ => None end.

Definition carriedIceGatheringState (ev : NativeEvent) : option string :=
  match ev with peerConnectionIceGatheringChanged _ state => Some state | _ => None end.

(** The value carried by the last event of the kind, or the current one
    when there is none. *)
Definition mostRecent (carried : NativeEvent -> option string) (current : string)
    (evs : list NativeEvent) : string :=
  default current (last (omap carried evs)).

(** The change notification that answers a state event. *)
Definition changeNotification (ev : NativeEvent) : option Event :=
  match ev with
  | peerConnectionIceConnectionChanged _ _ => Some (RTCEvent "iceconnectionstatechange")
  | peerConnectionSignalingStateChanged _ _ => Some (RTCEvent "signalingstatechange")
  | peerConnectionIceGatheringChanged _ _ => Some (RTCEvent "icegatheringstatechange")
  | _ => None
  end.

Definition isChangeNotification (e : Event) : bool :=
  match e with
  | RTCEvent type =>
      String.eqb type "iceconnectionstatechange"
      || String.eqb type "signalingstatechange"
      || String.eqb type "icegatheringstatechange"
  | _ => false
  end.

(** What calling an omitted continuation throws. *)
Definition undefinedCall : Exn := TypeError "undefined is not a function".

(** How a call [f(...)] that does not look at [f] first ends: normally when
    the caller supplied [f], with the throw when the caller omitted it. *)
Definition unguarded (f : option Fn) : Result unit :=
  match f with Some _ => Ok tt | None => Throw undefinedCall end.

(** What a completion adds to the log on behalf of the continuation [f]:
    the call of [f] with [args] when the caller supplied it, nothing when
    the caller omitted it. *)
Definition calls (f : option Fn) (args : list Arg) : list Effect :=
  match f with Some k => [Called k args] | None => [] end.

(** The reading of the spec under which a second stream-added event with
    the same stream identity is a no-op: after it the session is as the
    first event left it, holds one stream of that identity, and no further
    event has been dispatched. *)
Definition addedStreamOnce (w : World) (this : nat) (id : Z) (streamId : string)
    (tracks : list TrackInfo) : Prop :=
  let ev := peerConnectionAddedStream id streamId tracks in
  let w1 := step (Emit ev) w in
  let w2 := step (Emit ev) w1 in
  heap w2 !! this = heap w1 !! this
  /\ dispatched this (log w2) = dispatched this (log w1)
  /\ exists s2, heap w2 !! this = Some s2
                /\ length (filter (fun st => ms_id st = streamId) (_remoteStreams s2)) = 1%nat.

(** A world to try statements on: the module loaded on a platform with or
    without statistics, one connection constructed. *)
Definition oneConnection (stats : bool) : World :=
  step (New "{}") (initial stats).

(** The connection object that [oneConnection] holds at reference 0. *)
Definition firstSession : Session :=
  set_subscriptions (seq 0 7) (newSession 0).

(** *** Vocabulary for the further properties *)

(** The ids handed out so far are 0, 1, 2, ... in the order of
    construction. *)
Definition IdsInOrder (w : World) : Prop :=
  nextPeerConnectionId w = Z.of_nat (length (heap w))
  /\ forall this s, heap w !! this = Some s -> _peerConnectionId s = Z.of_nat this.

(** What one turn of the program writes into a connection object: [s'] is
    [s] after the turn [st], for the turns that write at all. *)
Definition writes (this : nat) (st : Step) (s s' : Session) : Prop :=
  match st with
  | Emit (peerConnectionIceConnectionChanged id state) =>
      id = _peerConnectionId s
      /\ s' = (if String.eqb state "closed"
               then set_subscriptions [] (set_iceConnectionState state s)
               else set_iceConnectionState state s)
  | Emit (peerConnectionSignalingStateChanged id state) =>
      id = _peerConnectionId s /\ s' = set_signalingState state s
  | Emit (peerConnectionIceGatheringChanged id state) =>
      id = _peerConnectionId s /\ s' = set_iceGatheringState state s
  | Emit (peerConnectionAddedStream id streamId tracks) =>
      id = _peerConnectionId s
      /\ exists ref,
           s' = set_remoteStreams
                  (_remoteStreams s
                   ++ [{| ms_ref := ref; ms_id := streamId;
                          ms_tracks := map newMediaStreamTrack tracks |}]) s
  | Emit (peerConnectionRemovedStream id streamId) =>
      id = _peerConnectionId s
      /\ exists stream,
           List.find (fun s' => String.eqb (ms_id s') streamId) (_remoteStreams s)
           = Some stream
           /\ s' = set_remoteStreams
                     (splice1 (indexOf stream (_remoteStreams s)) (_remoteStreams s)) s
  | Invoke cb args =>
      match cb return CallbackArgs cb -> Prop with
      | SetLocalDescriptionCallback o d _ _ =>
          fun a => o = this /\ fst a = true /\ s' = set_localDescription d s
      | SetRemoteDescriptionCallback o d _ _ =>
          fun a => o = this /\ fst a = true /\ s' = set_remoteDescription d s
      | _ => fun _ => False
      end args
  | _ => False
  end.

(** Every remote stream is an object of its own, allocated before the
    next one to come. *)
Definition StreamsDistinct (w : World) : Prop :=
  forall this s, heap w !! this = Some s ->
    NoDup (ms_ref <$> _remoteStreams s)
    /\ forall stream, stream ∈ _remoteStreams s -> (ms_ref stream < nextStream w)%nat.

(** One completion of a [setLocalDescription] call: the callback's closed
    variables and what the engine passes to it. *)
Record Completion := {
  c_description : RTCSessionDescription;
  c_success : option Fn;
  c_failure : option Fn;
  c_successful : bool;
  c_data : Data;
}.

Definition localCompletion (this : nat) (c : Completion) : Step :=
  Invoke (SetLocalDescriptionCallback this (c_description c) (c_success c) (c_failure c))
    (c_successful c, c_data c).

Definition remoteCompletion (this : nat) (c : Completion) : Step :=
  Invoke (SetRemoteDescriptionCallback this (c_description c) (c_success c) (c_failure c))
    (c_successful c, c_data c).

(** The description of the last completion that reported success, or the
    current one when none did. *)
Definition lastSuccessful (current : option RTCSessionDescription) (cs : list Completion)
    : option RTCSessionDescription :=
  default current
    (last (omap (fun c => if c_successful c then Some (Some (c_description c)) else None)
             cs)).

(** The event types the class declares for its event target. *)
Definition PEER_CONNECTION_EVENTS : list string :=
  ["connectionstatechange";
   "icecandidate";
   "icecandidateerror";
   "iceconnectionstatechange";
   "icegatheringstatechange";
   "negotiationneeded";
   "signalingstatechange";
   "addstream";
   "removestream"].

(** [e.type] *)
Definition event_type (e : Event) : string :=
  match e with
  | RTCEvent type => type
  | MediaStreamEvent type _ => type
  | RTCIceCandidateEvent type _ => type
  end.

(** The type of the event each listener dispatches. *)
Definition notificationType (ev : NativeEvent) : string :=
  match ev with
  | peerConnectionOnRenegotiationNeeded _ => "negotiationneeded"
  | peerConnectionIceConnectionChanged _ _ => "iceconnectionstatechange"
  | peerConnectionSignalingStateChanged _ _ => "signalingstatechange"
  | peerConnectionAddedStream _ _ _ => "addstream"
  | peerConnectionRemovedStream _ _ => "removestream"
  | peerConnectionGotICECandidate _ _ => "icecandidate"
  | peerConnectionIceGatheringChanged _ _ => "icegatheringstatechange"
  end.

(** The types of all events dispatched, on any connection, oldest first. *)
Definition dispatchedTypes (l : list Effect) : list string :=
  omap (fun e => match e with
                 | Dispatched _ ev _ => Some (event_type ev)
                 | _ => None
                 end) l.

(** A declared type other than the two the class never dispatches. *)
Definition dispatchable (type : string) : Prop :=
  type ∈ PEER_CONNECTION_EVENTS
  /\ type <> "connectionstatechange" /\ type <> "icecandidateerror".

(** The peer-connection id a native call is addressed to. *)
Definition nativeId (c : NativeCall) : Z :=
  match c with
  | peerConnectionInit _ id
  | peerConnectionAddStream _ id
  | peerConnectionRemoveStream _ id
  | peerConnectionCreateOffer id _
  | peerConnectionCreateAnswer id _
  | peerConnectionSetLocalDescription _ id _
  | peerConnectionSetRemoteDescription _ id _
  | peerConnectionAddICECandidate _ id _
  | peerConnectionGetStats _ id _
  | peerConnectionClose id => id
  end.

(** [st] is a call, on the connection [this], of one of the nine methods
    whose body lies in this class: all but [createDataChannel], which
    runs the constructor of the channel. *)
Definition calledOn (this : nat) (st : Step) : Prop :=
  match st with
  | AddStream t _ | RemoveStream t _
  | CreateOffer t _ _ _ | CreateAnswer t _ _ _
  | SetLocalDescription t _ _ _ _ | SetRemoteDescription t _ _ _
  | AddIceCandidate t _ _ _ | GetStats t _ _ _
  | Close t => t = this
  | CreateDataChannel _ _ _ | New _ | Invoke _ _ | Emit _ => False
  end.

(** ** Auxiliary facts *)

Lemma world_eta (w : World) :
  {| heap := heap w; listeners := listeners w;
     nextPeerConnectionId := nextPeerConnectionId w;
     nextSubscription := nextSubscription w; nextStream := nextStream w;
     hasGetStats := hasGetStats w; log := log w |} = w.
Proof. by destruct w. Qed.

Lemma world_ext (a b : World) :
  heap a = heap b -> listeners a = listeners b ->
  nextPeerConnectionId a = nextPeerConnectionId b ->
  nextSubscription a = nextSubscription b -> nextStream a = nextStream b ->
  hasGetStats a = hasGetStats b -> log a = log b -> a = b.
Proof. destruct a, b; cbn; intros; by subst. Qed.

Lemma filter_not_in_nil (ls : list Listener) :
  filter (fun l => l_subscription l ∉ ([] : list nat)) ls = ls.
Proof.
  induction ls as [|l ls IH]; [done|].
  rewrite filter_cons_True; [by rewrite IH|]. apply not_elem_of_nil.
Qed.

Lemma filter_not_in_cons (h : nat) (hs : list nat) (ls : list Listener) :
  filter (fun l => l_subscription l ∉ hs) (filter (fun l => l_subscription l <> h) ls)
  = filter (fun l => l_subscription l ∉ h :: hs) ls.
Proof.
  induction ls as [|l ls IH]; [done|].
  destruct (decide (l_subscription l = h)) as [E|E].
  - rewrite (filter_cons_False _ l ls) by (intros H; by apply H).
    rewrite (filter_cons_False _ l ls); [done|].
    intros H. apply H. rewrite E. apply elem_of_cons. by left.
  - rewrite (filter_cons_True _ l ls) by done.
    destruct (decide (l_subscription l ∈ hs)) as [I|I].
    + rewrite !filter_cons_False; [done| |]; intros H; apply H; [apply elem_of_cons; by right|done].
    + rewrite !filter_cons_True; [by rewrite IH| |done].
      rewrite not_elem_of_cons. done.
Qed.

(** [_unregisterEvents]' loop: every stored subscription leaves the emitter, in
    order. *)
Lemma forEach_remove (hs : list nat) (w : World) :
  forEach hs remove w =
  (Ok tt,
   {| heap := heap w;
      listeners := filter (fun l => l_subscription l ∉ hs) (listeners w);
      nextPeerConnectionId := nextPeerConnectionId w;
      nextSubscription := nextSubscription w;
      nextStream := nextStream w;
      hasGetStats := hasGetStats w;
      log := log w ++ map Removed hs |}).
Proof.
  revert w. induction hs as [|h hs IH]; intros w.
  - cbn. rewrite filter_not_in_nil, app_nil_r, world_eta. done.
  - cbn [forEach]. unfold bind. cbn [remove]. rewrite IH. cbn.
    rewrite filter_not_in_cons, <- app_assoc. done.
Qed.

(** The track loop of the stream-added listener. *)
Lemma fold_addTrack (tracks : list TrackInfo) (stream0 : MediaStream) :
  fold_left (fun st info => addTrack st (newMediaStreamTrack info)) tracks stream0
  = {| ms_ref := ms_ref stream0;
       ms_id := ms_id stream0;
       ms_tracks := ms_tracks stream0 ++ map newMediaStreamTrack tracks |}.
Proof.
  revert stream0. induction tracks as [|t tracks IH]; intros stream0; cbn.
  - rewrite app_nil_r. by destruct stream0.
  - rewrite IH. cbn. by rewrite <- app_assoc.
Qed.

(** [indexOf] finds an object that is in the array. *)
Lemma indexOf_from_member (x : MediaStream) (l : list MediaStream) (i : Z) :
  In x l -> i <= indexOf_from x l i.
Proof.
  revert i. induction l as [|y l IH]; intros i; cbn; [done|].
  intros [->|Hin].
  - rewrite Nat.eqb_refl. lia.
  - destruct (ms_ref y =? ms_ref x)%nat; [lia|].
    specialize (IH (i + 1) Hin). lia.
Qed.

Section ListenerOnThis.
Variables (w : World) (this : nat) (s : Session).
Hypothesis Hthis : heap w !! this = Some s.

Lemma getThis_here : getThis this w = (Ok s, w).
Proof using Hthis. unfold getThis. by rewrite Hthis. Qed.

Lemma lookup_alter_here (f : Session -> Session) :
  alter f this (heap w) !! this = Some (f s).
Proof using Hthis. by rewrite list_lookup_alter_eq, Hthis. Qed.

Lemma listener_mismatch (ev : NativeEvent) :
  ev_id ev <> _peerConnectionId s -> listener this ev w = (Ok tt, w).
Proof using Hthis.
  intros Hne. apply Z.eqb_neq in Hne.
  destruct ev; cbn in Hne; cbn [listener];
    unfold onRenegotiationNeeded, onIceConnectionChanged, onSignalingStateChanged,
      onAddedStream, onRemovedStream, onGotICECandidate, onIceGatheringChanged, bind;
    rewrite getThis_here, Hne; reflexivity.
Qed.

Lemma onRenegotiationNeeded_match :
  onRenegotiationNeeded this (_peerConnectionId s) w =
  (Ok tt, with_log (log w ++ [Dispatched this (RTCEvent "negotiationneeded") s]) w).
Proof using Hthis.
  unfold onRenegotiationNeeded, bind, dispatchEvent, bind.
  rewrite getThis_here, Z.eqb_refl. cbn. rewrite getThis_here. reflexivity.
Qed.

Lemma onSignalingStateChanged_match (state : string) :
  onSignalingStateChanged this (_peerConnectionId s) state w =
  (Ok tt,
   with_log (log w ++ [Dispatched this (RTCEvent "signalingstatechange")
                         (set_signalingState state s)])
     (with_heap (alter (set_signalingState state) this (heap w)) w)).
Proof using Hthis.
  unfold onSignalingStateChanged, bind, dispatchEvent, bind.
  rewrite getThis_here, Z.eqb_refl. cbn.
  unfold getThis. cbn. rewrite lookup_alter_here. reflexivity.
Qed.

Lemma onIceGatheringChanged_match (state : string) :
  onIceGatheringChanged this (_peerConnectionId s) state w =
  (Ok tt,
   with_log (log w ++ [Dispatched this (RTCEvent "icegatheringstatechange")
                         (set_iceGatheringState state s)])
     (with_heap (alter (set_iceGatheringState state) this (heap w)) w)).
Proof using Hthis.
  unfold onIceGatheringChanged, bind, dispatchEvent, bind.
  rewrite getThis_here, Z.eqb_refl. cbn.
  unfold getThis. cbn. rewrite lookup_alter_here. reflexivity.
Qed.

Lemma onGotICECandidate_match (info : IceCandidateInfo) :
  onGotICECandidate this (_peerConnectionId s) info w =
  (Ok tt,
   with_log (log w ++ [Dispatched this
                         (RTCIceCandidateEvent "icecandidate" (newRTCIceCandidate info)) s]) w).
Proof using Hthis.
  unfold onGotICECandidate, bind, dispatchEvent, bind.
  rewrite getThis_here, Z.eqb_refl. cbn. rewrite getThis_here. reflexivity.
Qed.

Lemma onIceConnectionChanged_open (state : string) :
  state <> "closed" ->
  onIceConnectionChanged this (_peerConnectionId s) state w =
  (Ok tt,
   with_log (log w ++ [Dispatched this (RTCEvent "iceconnectionstatechange")
                         (set_iceConnectionState state s)])
     (with_heap (alter (set_iceConnectionState state) this (heap w)) w)).
Proof using Hthis.
  intros Hne. apply String.eqb_neq in Hne.
  unfold onIceConnectionChanged, bind, dispatchEvent, bind.
  rewrite getThis_here, Z.eqb_refl. cbn.
  unfold getThis. cbn. rewrite lookup_alter_here, Hne. reflexivity.
Qed.

Lemma onIceConnectionChanged_closed :
  onIceConnectionChanged this (_peerConnectionId s) "closed" w =
  (Ok tt,
   {| heap := alter (fun s => set_subscriptions [] (set_iceConnectionState "closed" s))
                this (heap w);
      listeners := filter (fun l => l_subscription l ∉ _subscriptions s) (listeners w);
      nextPeerConnectionId := nextPeerConnectionId w;
      nextSubscription := nextSubscription w;
      nextStream := nextStream w;
      hasGetStats := hasGetStats w;
      log := log w
             ++ [Dispatched this (RTCEvent "iceconnectionstatechange")
                   (set_iceConnectionState "closed" s)]
             ++ map Removed (_subscriptions s) |}).
Proof using Hthis.
  unfold onIceConnectionChanged, bind, dispatchEvent, bind.
  rewrite getThis_here, Z.eqb_refl. cbn.
  unfold getThis at 1. cbn. rewrite lookup_alter_here.
  cbn. unfold _unregisterEvents, bind.
  unfold getThis. cbn. rewrite lookup_alter_here.
  rewrite forEach_remove. cbn.
  rewrite <- app_assoc. cbn. unfold modifyThis. cbn. rewrite list_alter_alter_eq. reflexivity.
Qed.

Lemma onAddedStream_match (streamId : string) (tracks : list TrackInfo) :
  let stream := constructedStream w streamId tracks in
  onAddedStream this (_peerConnectionId s) streamId tracks w =
  (Ok tt,
   {| heap := alter (fun s => set_remoteStreams (_remoteStreams s ++ [stream]) s)
                this (heap w);
      listeners := listeners w;
      nextPeerConnectionId := nextPeerConnectionId w;
      nextSubscription := nextSubscription w;
      nextStream := S (nextStream w);
      hasGetStats := hasGetStats w;
      log := log w
             ++ [Dispatched this (MediaStreamEvent "addstream" (Some stream))
                   (set_remoteStreams (_remoteStreams s ++ [stream]) s)] |}).
Proof using Hthis.
  unfold onAddedStream, bind, dispatchEvent, bind.
  rewrite getThis_here, Z.eqb_refl. cbn.
  unfold getThis. cbn. rewrite lookup_alter_here.
  rewrite fold_addTrack. reflexivity.
Qed.

Lemma onRemovedStream_unknown (streamId : string) :
  List.find (fun s' => String.eqb (ms_id s') streamId) (_remoteStreams s) = None ->
  onRemovedStream this (_peerConnectionId s) streamId w =
  (Ok tt,
   with_log (log w ++ [Dispatched this (MediaStreamEvent "removestream" None) s]) w).
Proof using Hthis.
  intros Hfind.
  unfold onRemovedStream, bind, dispatchEvent, bind.
  rewrite getThis_here, Z.eqb_refl, Hfind. cbn. rewrite getThis_here. reflexivity.
Qed.

Lemma onRemovedStream_known (streamId : string) (stream : MediaStream) :
  List.find (fun s' => String.eqb (ms_id s') streamId) (_remoteStreams s) = Some stream ->
  let remaining := splice1 (indexOf stream (_remoteStreams s)) (_remoteStreams s) in
  onRemovedStream this (_peerConnectionId s) streamId w =
  (Ok tt,
   with_log (log w ++ [Dispatched this (MediaStreamEvent "removestream" (Some stream))
                         (set_remoteStreams remaining s)])
     (with_heap
        (alter (fun s0 => set_remoteStreams
                            (splice1 (indexOf stream (_remoteStreams s)) (_remoteStreams s0)) s0)
           this (heap w)) w)).
Proof using Hthis.
  intros Hfind.
  unfold onRemovedStream, bind, dispatchEvent, bind.
  rewrite getThis_here, Z.eqb_refl, Hfind. cbn.
  apply find_some in Hfind as [Hin _].
  pose proof (indexOf_from_member stream _ 0 Hin) as Hidx. fold (indexOf stream (_remoteStreams s)) in Hidx.
  replace (indexOf stream (_remoteStreams s) >? -1) with true by (symmetry; apply Z.gtb_lt; lia).
  cbn. unfold getThis. cbn. rewrite lookup_alter_here. reflexivity.
Qed.
End ListenerOnThis.

(** A listener whose object exists returns normally. *)
Lemma listener_ok (this : nat) (ev : NativeEvent) (w : World) (s : Session) :
  heap w !! this = Some s -> fst (listener this ev w) = Ok tt.
Proof.
  intros Hthis.
  destruct (decide (ev_id ev = _peerConnectionId s)) as [E|E];
    [|by rewrite (listener_mismatch _ _ _ Hthis)].
  destruct ev; cbn in E; subst; cbn [listener].
  - by rewrite (onRenegotiationNeeded_match _ _ _ Hthis).
  - destruct (decide (state = "closed")) as [->|Hs].
    + by rewrite (onIceConnectionChanged_closed _ _ _ Hthis).
    + by rewrite (onIceConnectionChanged_open _ _ _ Hthis).
  - by rewrite (onSignalingStateChanged_match _ _ _ Hthis).
  - by rewrite (onAddedStream_match _ _ _ Hthis).
  - destruct (List.find (fun s' => String.eqb (ms_id s') streamId) (_remoteStreams s)) eqn:F.
    + by rewrite (onRemovedStream_known _ _ _ Hthis _ _ F).
    + by rewrite (onRemovedStream_unknown _ _ _ Hthis _ F).
  - by rewrite (onGotICECandidate_match _ _ _ Hthis).
  - by rewrite (onIceGatheringChanged_match _ _ _ Hthis).
Qed.

Lemma listener_dangling (this : nat) (ev : NativeEvent) (w : World) :
  heap w !! this = None -> snd (listener this ev w) = w.
Proof.
  intros Hthis.
  destruct ev; cbn [listener];
    unfold onRenegotiationNeeded, onIceConnectionChanged, onSignalingStateChanged,
      onAddedStream, onRemovedStream, onGotICECandidate, onIceGatheringChanged, bind, getThis;
    rewrite Hthis; reflexivity.
Qed.

(** Every run of a listener is one of the three outcomes. *)
Lemma listener_outcome (this : nat) (ev : NativeEvent) (w : World) :
  ListenerOutcome this ev w (exec (listener this ev) w).
Proof.
  unfold exec.
  destruct (heap w !! this) as [s|] eqn:Hthis;
    [|apply lo_none; by apply listener_dangling].
  destruct (decide (ev_id ev = _peerConnectionId s)) as [E|E];
    [|apply lo_none; by rewrite (listener_mismatch _ _ _ Hthis)].
  destruct ev; cbn in E; subst; cbn [listener].
  - rewrite (onRenegotiationNeeded_match _ _ _ Hthis).
    apply (lo_update _ _ _ _ s (fun x => x) (RTCEvent "negotiationneeded") (nextStream w));
      [done|done|done|done|by left|]. cbn. by rewrite list_alter_id.
  - destruct (decide (state = "closed")) as [->|Hs].
    + rewrite (onIceConnectionChanged_closed _ _ _ Hthis). by apply (lo_closed _ _ _ _ s).
    + rewrite (onIceConnectionChanged_open _ _ _ Hthis) by done.
      eapply (lo_update _ _ _ _ s (set_iceConnectionState state)); [done..| |done].
      right. by exists state.
  - rewrite (onSignalingStateChanged_match _ _ _ Hthis).
    eapply (lo_update _ _ _ _ s (set_signalingState state)); [done..|by left|done].
  - rewrite (onAddedStream_match _ _ _ Hthis).
    eapply (lo_update _ _ _ _ s
      (fun s => set_remoteStreams (_remoteStreams s ++ [constructedStream w streamId tracks]) s));
      [done..|by left|done].
  - destruct (List.find (fun s' => String.eqb (ms_id s') streamId) (_remoteStreams s)) eqn:F.
    + rewrite (onRemovedStream_known _ _ _ Hthis _ _ F).
      eapply (lo_update _ _ _ _ s
        (fun s0 => set_remoteStreams (splice1 (indexOf m (_remoteStreams s)) (_remoteStreams s0)) s0));
        [done..|by left|done].
    + rewrite (onRemovedStream_unknown _ _ _ Hthis _ F).
      apply (lo_update _ _ _ _ s (fun x => x) (MediaStreamEvent "removestream" None) (nextStream w));
        [done|done|done|done|by left|]. cbn. by rewrite list_alter_id.
  - rewrite (onGotICECandidate_match _ _ _ Hthis).
    apply (lo_update _ _ _ _ s (fun x => x)
             (RTCIceCandidateEvent "icecandidate" (newRTCIceCandidate info)) (nextStream w));
      [done|done|done|done|by left|]. cbn. by rewrite list_alter_id.
  - rewrite (onIceGatheringChanged_match _ _ _ Hthis).
    eapply (lo_update _ _ _ _ s (set_iceGatheringState state)); [done..|by left|done].
Qed.

Section Filters.
Context {A : Type} (P Q : A -> Prop).
Context `{DecP : !forall x, Decision (P x)} `{DecQ : !forall x, Decision (Q x)}.

Lemma filter_swap (l : list A) : filter P (filter Q l) = filter Q (filter P l).
Proof.
  rewrite !list_filter_filter. apply list_filter_iff. intros x. tauto.
Qed.

Lemma filter_all (l : list A) : (forall x, x ∈ l -> P x) -> filter P l = l.
Proof.
  induction l as [|x l IH]; intros Hall; [done|].
  rewrite filter_cons_True by (apply Hall, elem_of_cons; by left).
  rewrite IH; [done|]. intros y Hy. apply Hall, elem_of_cons. by right.
Qed.

Lemma filter_none (l : list A) : (forall x, x ∈ l -> ~ P x) -> filter P l = [].
Proof.
  induction l as [|x l IH]; intros Hall; [done|].
  rewrite filter_cons_False by (apply Hall, elem_of_cons; by left).
  apply IH. intros y Hy. apply Hall, elem_of_cons. by right.
Qed.
End Filters.

Lemma NoDup_fmap_eq {A B} (f : A -> B) (l : list A) (x y : A) :
  NoDup (f <$> l) -> x ∈ l -> y ∈ l -> f x = f y -> x = y.
Proof.
  induction l as [|a l IH]; intros Hnd Hx Hy Hf; [by apply elem_of_nil in Hx|].
  rewrite fmap_cons in Hnd. apply NoDup_cons in Hnd as [Ha Hnd].
  apply elem_of_cons in Hx as [->|Hx]; apply elem_of_cons in Hy as [->|Hy].
  - done.
  - exfalso. apply Ha. rewrite Hf. by apply list_elem_of_fmap_2.
  - exfalso. apply Ha. rewrite <- Hf. by apply list_elem_of_fmap_2.
  - by apply IH.
Qed.

Lemma registration_subscription (this : nat) (subs : list nat) (l : Listener) :
  l ∈ registration this subs -> l_subscription l ∈ subs /\ l_this l = this.
Proof.
  unfold registration. intros H. apply elem_of_zip_with in H as (e & t & -> & He & _).
  done.
Qed.

Lemma registration_covers (this : nat) (subs : list nat) (e : nat) :
  length subs = 7%nat -> e ∈ subs ->
  exists l, l ∈ registration this subs /\ l_subscription l = e.
Proof.
  intros Hlen He.
  apply list_elem_of_lookup in He as [i Hi].
  assert (is_Some (eventTypes !! i)) as [t Ht].
  { apply lookup_lt_is_Some. apply lookup_lt_Some in Hi. cbn. lia. }
  exists {| l_subscription := e; l_eventType := t; l_this := this |}.
  split; [|done].
  apply list_elem_of_lookup. exists i.
  apply lookup_zip_with_Some. by exists e, t.
Qed.

Lemma owned_elem (this : nat) (ls : list Listener) (l : Listener) :
  l ∈ owned this ls <-> l_this l = this /\ l ∈ ls.
Proof. unfold owned. by rewrite list_elem_of_filter. Qed.

Lemma owned_other_disjoint (w : World) (this o : nat) (s : Session) (l : Listener) :
  Inv w -> heap w !! this = Some s -> o <> this ->
  l ∈ owned o (listeners w) -> l_subscription l ∉ _subscriptions s.
Proof.
  intros HI Hthis Hne Hl Hin.
  apply owned_elem in Hl as [Ho Hl].
  destruct (inv_subscribed _ HI _ _ Hthis) as [[_ Hs]|[Hreg Hlen]].
  - rewrite Hs in Hin. by apply elem_of_nil in Hin.
  - destruct (registration_covers this _ _ Hlen Hin) as (l' & Hl' & He).
    rewrite <- Hreg in Hl'. apply owned_elem in Hl' as [Ht Hl'].
    assert (l' = l) as -> by (eapply NoDup_fmap_eq; [apply (inv_nodup _ HI)|done..]).
    congruence.
Qed.

Lemma lookup_alter_fields (f : Session -> Session) (h : list Session) (this o : nat)
    (s' : Session) :
  (forall x, _peerConnectionId (f x) = _peerConnectionId x) ->
  alter f this h !! o = Some s' ->
  exists s, h !! o = Some s /\ _peerConnectionId s' = _peerConnectionId s
            /\ (o <> this -> s' = s) /\ (o = this -> s' = f s).
Proof.
  intros Hid. destruct (decide (o = this)) as [->|E].
  - rewrite list_lookup_alter_eq.
    destruct (h !! this) as [s|] eqn:Ho; [|done]. cbn. intros [= <-].
    exists s. split_and!; [done|by rewrite Hid|congruence|done].
  - rewrite list_lookup_alter_ne by done.
    intros Ho. exists s'. split_and!; [done|done|done|congruence].
Qed.

Lemma is_Some_alter (f : Session -> Session) (h : list Session) (this o : nat) :
  is_Some (h !! o) -> is_Some (alter f this h !! o).
Proof.
  rewrite !lookup_lt_is_Some, length_alter. done.
Qed.

(** The three outcomes keep the invariant. *)
Lemma Inv_outcome (this : nat) (ev : NativeEvent) (w w' : World) :
  Inv w -> ListenerOutcome this ev w w' -> Inv w'.
Proof.
  intros HI [->|s f e n Hthis _ Hid Hsubs _ ->|s Hthis _ ->]; [done| |].
  - split; cbn.
    + intros o s' Ho.
      destruct (lookup_alter_fields _ _ _ _ _ Hid Ho) as (s0 & Ho0 & _ & Hne & Heq).
      destruct (decide (o = this)) as [->|E].
      * rewrite (Heq eq_refl), Hsubs. by apply (inv_subscribed _ HI).
      * rewrite (Hne E). by apply (inv_subscribed _ HI).
    + intros l Hl. apply is_Some_alter. by apply (inv_this _ HI).
    + apply (inv_nodup _ HI).
    + apply (inv_fresh _ HI).
    + intros o o' s1 s1' Ho Ho' Hp.
      destruct (lookup_alter_fields _ _ _ _ _ Hid Ho) as (s0 & Ho0 & Hp0 & _).
      destruct (lookup_alter_fields _ _ _ _ _ Hid Ho') as (s0' & Ho0' & Hp0' & _).
      apply (inv_ids _ HI _ _ _ _ Ho0 Ho0'). congruence.
    + intros o s1 Ho.
      destruct (lookup_alter_fields _ _ _ _ _ Hid Ho) as (s0 & Ho0 & Hp0 & _).
      rewrite Hp0. by apply (inv_next_id _ HI _ _ Ho0).
  - assert (Hid : forall x, _peerConnectionId
               (set_subscriptions [] (set_iceConnectionState "closed" x))
             = _peerConnectionId x) by done.
    split; cbn.
    + intros o s' Ho.
      destruct (lookup_alter_fields _ _ _ _ _ Hid Ho) as (s0 & Ho0 & _ & Hne & Heq).
      unfold owned. rewrite filter_swap. fold (owned o (listeners w)).
      destruct (decide (o = this)) as [->|E].
      * left. rewrite (Heq eq_refl). split; [|done].
        apply filter_none. intros l Hl Hnot. apply Hnot.
        destruct (inv_subscribed _ HI _ _ Hthis) as [[Hnil _]|[Hreg _]].
        -- rewrite Hnil in Hl. by apply elem_of_nil in Hl.
        -- rewrite Hreg in Hl. by apply registration_subscription in Hl as [? _].
      * rewrite (Hne E).
        rewrite filter_all by (intros l Hl; by eapply owned_other_disjoint).
        by apply (inv_subscribed _ HI).
    + intros l Hl. apply list_elem_of_filter in Hl as [_ Hl].
      apply is_Some_alter. by apply (inv_this _ HI).
    + apply (sublist_NoDup _ (l_subscription <$> listeners w)).
      * apply (inv_nodup _ HI).
      * apply fmap_sublist, sublist_filter.
    + intros l Hl. apply list_elem_of_filter in Hl as [_ Hl]. by apply (inv_fresh _ HI).
    + intros o o' s1 s1' Ho Ho' Hp.
      destruct (lookup_alter_fields _ _ _ _ _ Hid Ho) as (s0 & Ho0 & Hp0 & _).
      destruct (lookup_alter_fields _ _ _ _ _ Hid Ho') as (s0' & Ho0' & Hp0' & _).
      apply (inv_ids _ HI _ _ _ _ Ho0 Ho0'). congruence.
    + intros o s1 Ho.
      destruct (lookup_alter_fields _ _ _ _ _ Hid Ho) as (s0 & Ho0 & Hp0 & _).
      rewrite Hp0. by apply (inv_next_id _ HI _ _ Ho0).
Qed.

(** *** The emitter's loop *)

Lemma forEach_app {A} (f : A -> M unit) (l1 l2 : list A) (w : World) :
  forEach (l1 ++ l2) f w =
  match forEach l1 f w with
  | (Ok _, w') => forEach l2 f w'
  | (Throw e, w') => (Throw e, w')
  end.
Proof.
  revert w. induction l1 as [|x l1 IH]; intros w; [done|].
  cbn [app forEach]. unfold bind.
  destruct (f x w) as [[[]|e] w1]; [apply IH|done].
Qed.

Lemma forEach_noop {A} (f : A -> M unit) (l : list A) (w : World) :
  (forall x, x ∈ l -> f x w = (Ok tt, w)) -> forEach l f w = (Ok tt, w).
Proof.
  induction l as [|x l IH]; intros Hf; [done|].
  cbn [forEach]. unfold bind.
  rewrite Hf by (apply elem_of_cons; by left).
  apply IH. intros y Hy. apply Hf, elem_of_cons. by right.
Qed.

(** A relation between worlds that every turn of the loop establishes
    holds across the whole loop, also when a listener throws. *)
Lemma forEach_deliver_rel (R : World -> World -> Prop) (ev : NativeEvent)
    (ls : list Listener) (w : World) :
  (forall w, R w w) ->
  (forall w1 w2 w3, R w1 w2 -> R w2 w3 -> R w1 w3) ->
  (forall l w, l ∈ ls -> l ∈ listeners w ->
               R w (exec (listener (l_this l) ev) w)) ->
  R w (exec (forEach ls (deliver ev)) w).
Proof.
  intros Hrefl Htrans Hstep. revert w.
  induction ls as [|l ls IH]; intros w; [apply Hrefl|].
  unfold exec. cbn [forEach]. unfold bind.
  assert (R w (snd (deliver ev l w))) as H1.
  { unfold deliver. case_decide as Hin; [|apply Hrefl].
    apply Hstep; [apply elem_of_cons; by left|done]. }
  destruct (deliver ev l w) as [[[]|e] w1]; cbn in *; [|done].
  apply (Htrans _ w1); [done|].
  apply IH. intros l' w' Hl'. apply Hstep, elem_of_cons. by right.
Qed.

Lemma Inv_emit (ev : NativeEvent) (w : World) : Inv w -> Inv (exec (emit ev) w).
Proof.
  intros HI. unfold exec, emit.
  apply (forEach_deliver_rel (fun w w' => Inv w -> Inv w') ev); [auto|auto| |done].
  intros l w0 _ _ HI0. eapply Inv_outcome; [done|apply listener_outcome].
Qed.

(** *** Frame: a listener of another object *)

Lemma dispatched_app (this : nat) (l1 l2 : list Effect) :
  dispatched this (l1 ++ l2) = dispatched this l1 ++ dispatched this l2.
Proof. unfold dispatched. apply omap_app. Qed.

Lemma dispatched_removed (this : nat) (hs : list nat) :
  dispatched this (map Removed hs) = [].
Proof. induction hs as [|h hs IH]; [done|]. cbn. apply IH. Qed.

Lemma dispatched_other (this o : nat) (e : Event) (seen : Session) :
  o <> this -> dispatched this [Dispatched o e seen] = [].
Proof. intros Hne. cbn. apply Nat.eqb_neq in Hne. by rewrite Hne. Qed.

Lemma outcome_frame (this o : nat) (ev : NativeEvent) (w w' : World) :
  o <> this -> ListenerOutcome o ev w w' ->
  heap w' !! this = heap w !! this
  /\ dispatched this (log w') = dispatched this (log w)
  /\ (owned this (listeners w) = [] -> owned this (listeners w') = []).
Proof.
  intros Hne [->|s f e n Ho _ _ _ _ ->|s Ho _ ->]; [done| |];
    cbn [closedWorld heap log listeners].
  - rewrite list_lookup_alter_ne by done.
    rewrite dispatched_app, dispatched_other, app_nil_r by done. done.
  - rewrite list_lookup_alter_ne by done.
    rewrite (dispatched_app this (log w)), (dispatched_app this [_]).
    rewrite dispatched_other, dispatched_removed, app_nil_r by done.
    split_and!; [done..|].
    unfold owned. rewrite filter_swap. by intros ->.
Qed.

(** An event for another identity: nothing of [this] moves, in any world. *)
Lemma emit_other_identity (w : World) (this : nat) (s : Session) (ev : NativeEvent) :
  heap w !! this = Some s ->
  ev_id ev <> _peerConnectionId s ->
  heap (exec (emit ev) w) !! this = Some s
  /\ dispatched this (log (exec (emit ev) w)) = dispatched this (log w).
Proof.
  intros Hthis Hne. unfold exec, emit.
  apply (forEach_deliver_rel
           (fun w w' => heap w !! this = Some s ->
                        heap w' !! this = Some s
                        /\ dispatched this (log w') = dispatched this (log w)) ev);
    [done| | |done].
  - intros w1 w2 w3 H12 H23 H1.
    destruct (H12 H1) as [H2 D2]. destruct (H23 H2) as [H3 D3].
    split; [done|congruence].
  - intros l w0 _ _ H0.
    destruct (decide (l_this l = this)) as [->|Ho].
    + unfold exec. by rewrite (listener_mismatch _ _ _ H0).
    + destruct (outcome_frame this _ ev _ _ Ho (listener_outcome (l_this l) ev w0))
        as (Hh & Hd & _).
      split; [congruence|done].
Qed.

(** An object without listeners is out of the emitter's reach. *)
Lemma emit_unsubscribed (w : World) (this : nat) (ev : NativeEvent) :
  owned this (listeners w) = [] ->
  owned this (listeners (exec (emit ev) w)) = []
  /\ heap (exec (emit ev) w) !! this = heap w !! this
  /\ dispatched this (log (exec (emit ev) w)) = dispatched this (log w).
Proof.
  intros Hdead. unfold exec, emit.
  apply (forEach_deliver_rel
           (fun w w' => owned this (listeners w) = [] ->
                        owned this (listeners w') = []
                        /\ heap w' !! this = heap w !! this
                        /\ dispatched this (log w') = dispatched this (log w)) ev);
    [done| | |done].
  - intros w1 w2 w3 H12 H23 H1.
    destruct (H12 H1) as (H2 & E2 & D2). destruct (H23 H2) as (H3 & E3 & D3).
    split_and!; [done|congruence..].
  - intros l w0 _ Hin H0.
    assert (l_this l <> this) as Ho.
    { intros E. eapply (filter_nil_not_elem_of _ _ l H0); done. }
    destruct (outcome_frame this _ ev _ _ Ho (listener_outcome (l_this l) ev w0))
      as (Hh & Hd & Hl).
    split_and!; [by apply Hl|done..].
Qed.

Lemma filter_singleton_split {A} (P : A -> Prop) `{!forall x, Decision (P x)}
    (l : list A) (x : A) :
  filter P l = [x] ->
  exists pre post, l = pre ++ x :: post
                   /\ (forall y, y ∈ pre -> ~ P y) /\ (forall y, y ∈ post -> ~ P y).
Proof.
  induction l as [|a l IH]; [done|].
  rewrite filter_cons. case_decide as Ha.
  - intros [= -> Hnil]. exists [], l. split_and!; [done| |].
    + intros y Hy. by apply elem_of_nil in Hy.
    + intros y Hy HP. by eapply (filter_nil_not_elem_of _ _ y Hnil).
  - intros Hf. destruct (IH Hf) as (pre & post & -> & Hpre & Hpost).
    exists (a :: pre), post. split_and!; [done| |done].
    intros y Hy. apply elem_of_cons in Hy as [->|Hy]; [done|by apply Hpre].
Qed.

Lemma registration_type (this : nat) (subs : list nat) (t : EventType) :
  length subs = 7%nat ->
  exists e, filter (fun l => l_eventType l = t) (registration this subs)
            = [{| l_subscription := e; l_eventType := t; l_this := this |}].
Proof.
  intros Hlen.
  do 8 (destruct subs as [|? subs]; try discriminate Hlen).
  destruct t; eexists; reflexivity.
Qed.

Lemma subscribed_registration (w : World) (this : nat) (s : Session) :
  Inv w -> heap w !! this = Some s -> subscribed this w ->
  owned this (listeners w) = registration this (_subscriptions s)
  /\ length (_subscriptions s) = 7%nat.
Proof.
  intros HI Hthis Hsub.
  by destruct (inv_subscribed _ HI _ _ Hthis) as [[Hnil _]|?].
Qed.

Lemma deliver_stranger (w : World) (ev : NativeEvent) (l : Listener) (this : nat)
    (s so : Session) :
  (forall this' s', heap w !! this' = Some s' ->
                    _peerConnectionId s = _peerConnectionId s' -> this = this') ->
  ev_id ev = _peerConnectionId s ->
  l_this l <> this ->
  heap w !! l_this l = Some so ->
  deliver ev l w = (Ok tt, w).
Proof.
  intros Huniq Hid Hne Hso. unfold deliver. case_decide; [|done].
  apply (listener_mismatch _ _ _ Hso). rewrite Hid. intros E.
  apply Hne. symmetry. by apply (Huniq _ _ Hso).
Qed.

(** In a world the program can reach, an event reaches exactly the
    listener of the subscribed object whose id it carries. *)
Lemma emit_subscribed (w : World) (this : nat) (s : Session) (ev : NativeEvent) :
  Inv w -> heap w !! this = Some s -> subscribed this w ->
  ev_id ev = _peerConnectionId s ->
  emit ev w = (Ok tt, exec (listener this ev) w).
Proof.
  intros HI Hthis Hsub Hid.
  destruct (subscribed_registration _ _ _ HI Hthis Hsub) as [Hreg Hlen].
  destruct (registration_type this _ (eventType ev) Hlen) as [e Hone].
  set (l0 := {| l_subscription := e; l_eventType := eventType ev; l_this := this |}) in *.
  assert (filter (fun l => l_this l = this)
            (filter (fun l => l_eventType l = eventType ev) (listeners w)) = [l0])
    as Hsnap.
  { rewrite filter_swap. fold (owned this (listeners w)). by rewrite Hreg. }
  apply filter_singleton_split in Hsnap as (pre & post & Hsplit & Hpre & Hpost).
  assert (forall y, y ∈ pre ++ l0 :: post -> y ∈ listeners w) as Hsub_ls.
  { intros y Hy. rewrite <- Hsplit in Hy. by apply list_elem_of_filter in Hy as [_ ?]. }
  unfold emit. rewrite Hsplit, forEach_app.
  rewrite forEach_noop; last first.
  { intros y Hy.
    destruct (inv_this _ HI y) as [so Hso];
      [apply Hsub_ls, elem_of_app; by left|].
    eapply deliver_stranger; [|done|by apply Hpre|done].
    intros this' s'. apply (inv_ids _ HI _ _ _ _ Hthis). }
  cbn [forEach]. unfold bind.
  assert (deliver ev l0 w = listener this ev w) as ->.
  { unfold deliver. rewrite decide_True; [done|].
    apply Hsub_ls, elem_of_app. right. apply elem_of_cons. by left. }
  pose proof (listener_ok this ev w s Hthis) as Hok.
  pose proof (listener_outcome this ev w) as Hout.
  unfold exec in *. destruct (listener this ev w) as [r w1]. cbn in *. subst r.
  apply forEach_noop. intros y Hy.
  destruct (inv_this _ HI y) as [so Hso];
    [apply Hsub_ls, elem_of_app; right; apply elem_of_cons; by right|].
  assert (l_this y <> this) as Hne by (by apply Hpost).
  destruct (outcome_frame (l_this y) this ev w w1 (not_eq_sym Hne) Hout) as (Hh & _ & _).
  eapply deliver_stranger; [|done|done|by rewrite Hh].
  intros this' s' Hs' Hp.
  destruct (decide (this' = this)) as [->|Hne']; [done|].
  destruct (outcome_frame this' this ev w w1 (not_eq_sym Hne') Hout) as (Hh' & _ & _).
  rewrite Hh' in Hs'. by apply (inv_ids _ HI _ _ _ _ Hthis Hs').
Qed.

(** *** The constructor *)

Lemma bind_ok {A B} (m : M A) (k : A -> M B) (w w' : World) (a : A) :
  m w = (Ok a, w') -> bind m k w = k a w'.
Proof. unfold bind. by intros ->. Qed.

Lemma addListener_exec (type : EventType) (this : nat) (w : World) :
  addListener type this w =
  (Ok (nextSubscription w),
   {| heap := heap w;
      listeners := listeners w
                   ++ [{| l_subscription := nextSubscription w;
                          l_eventType := type; l_this := this |}];
      nextPeerConnectionId := nextPeerConnectionId w;
      nextSubscription := S (nextSubscription w);
      nextStream := nextStream w;
      hasGetStats := hasGetStats w;
      log := log w |}).
Proof. reflexivity. Qed.

(** [_registerEvents] takes the next seven subscriptions. *)
Lemma registerEvents_exec (this : nat) (w : World) :
  _registerEvents this w =
  (Ok tt,
   {| heap := alter (set_subscriptions (seq (nextSubscription w) 7)) this (heap w);
      listeners := listeners w ++ registration this (seq (nextSubscription w) 7);
      nextPeerConnectionId := nextPeerConnectionId w;
      nextSubscription := 7 + nextSubscription w;
      nextStream := nextStream w;
      hasGetStats := hasGetStats w;
      log := log w |}).
Proof.
  unfold _registerEvents.
  do 7 (erewrite bind_ok by apply addListener_exec;
        cbn [heap listeners nextPeerConnectionId nextSubscription nextStream hasGetStats log]).
  unfold modifyThis, with_heap.
  cbn [heap listeners nextPeerConnectionId nextSubscription nextStream hasGetStats log].
  rewrite <- !app_assoc. reflexivity.
Qed.

Lemma constructor_exec (configuration : Opaque) (w : World) :
  constructor configuration w = (Ok (length (heap w)), constructedWorld configuration w).
Proof.
  unfold constructor.
  erewrite bind_ok by reflexivity.
  erewrite bind_ok by reflexivity.
  erewrite bind_ok by reflexivity.
  erewrite bind_ok by apply registerEvents_exec.
  unfold ret, constructedWorld.
  cbn [heap listeners nextPeerConnectionId nextSubscription nextStream hasGetStats log
       with_heap with_log with_nextPeerConnectionId].
  rewrite <- (Nat.add_0_r (length (heap w))) at 2.
  rewrite alter_app_r. reflexivity.
Qed.

Lemma registration_elem (this : nat) (subs : list nat) (l : Listener) :
  l ∈ registration this subs -> l_this l = this /\ l_subscription l ∈ subs.
Proof. intros H. by apply registration_subscription in H as [? ?]. Qed.

Lemma registration_subscriptions (this n : nat) :
  l_subscription <$> registration this (seq n 7) = seq n 7.
Proof. reflexivity. Qed.

(** A new connection keeps the invariant. *)
Lemma Inv_constructor (configuration : Opaque) (w : World) :
  Inv w -> Inv (constructedWorld configuration w).
Proof.
  intros HI.
  assert (forall o, owned o (registration (length (heap w)) (seq (nextSubscription w) 7))
                    = if decide (o = length (heap w))
                      then registration (length (heap w)) (seq (nextSubscription w) 7)
                      else []) as Hreg.
  { intros o. unfold owned. case_decide as E.
    - apply filter_all. intros l Hl. apply registration_elem in Hl as [-> _]. done.
    - apply filter_none. intros l Hl. apply registration_elem in Hl as [-> _]. done. }
  assert (owned (length (heap w)) (listeners w) = []) as Hnew.
  { apply filter_none. intros l Hl E.
    apply (inv_this _ HI), lookup_lt_is_Some in Hl. lia. }
  split; unfold constructedWorld; cbn [heap listeners nextPeerConnectionId nextSubscription].
  - intros o s Ho. unfold owned. rewrite filter_app. fold (owned o (listeners w)).
    fold (owned o (registration (length (heap w)) (seq (nextSubscription w) 7))).
    rewrite Hreg.
    apply lookup_app_Some in Ho as [Ho|[Hlen Ho]].
    + rewrite decide_False by (apply lookup_lt_Some in Ho; lia).
      rewrite app_nil_r. by apply (inv_subscribed _ HI).
    + assert (o = length (heap w)) as ->.
      { apply lookup_lt_Some in Ho. cbn in Ho. lia. }
      rewrite Nat.sub_diag in Ho. cbn in Ho. injection Ho as <-.
      rewrite decide_True, Hnew by done. right. done.
  - intros l Hl. apply lookup_lt_is_Some. rewrite length_app. cbn.
    apply elem_of_app in Hl as [Hl|Hl].
    + apply (inv_this _ HI), lookup_lt_is_Some in Hl. lia.
    + apply registration_elem in Hl as [-> _]. lia.
  - rewrite fmap_app, registration_subscriptions. apply NoDup_app. split_and!.
    + apply (inv_nodup _ HI).
    + intros e He Hseq. apply list_elem_of_fmap in He as (l & -> & Hl).
      apply (inv_fresh _ HI) in Hl. apply elem_of_seq in Hseq. lia.
    + apply NoDup_seq.
  - intros l Hl. apply elem_of_app in Hl as [Hl|Hl].
    + apply (inv_fresh _ HI) in Hl. lia.
    + apply registration_elem in Hl as [_ Hl]. apply elem_of_seq in Hl. lia.
  - intros o o' s s' Ho Ho' Hp.
    apply lookup_app_Some in Ho as [Ho|[Hlen Ho]];
      apply lookup_app_Some in Ho' as [Ho'|[Hlen' Ho']].
    + by apply (inv_ids _ HI _ _ _ _ Ho Ho').
    + apply list_lookup_singleton_Some in Ho' as [_ <-]. cbn in Hp.
      apply (inv_next_id _ HI) in Ho. lia.
    + apply list_lookup_singleton_Some in Ho as [_ <-]. cbn in Hp.
      apply (inv_next_id _ HI) in Ho'. lia.
    + apply list_lookup_singleton_Some in Ho as [Ho _].
      apply list_lookup_singleton_Some in Ho' as [Ho' _]. lia.
  - intros o s Ho. apply lookup_app_Some in Ho as [Ho|[Hlen Ho]].
    + apply (inv_next_id _ HI) in Ho. lia.
    + apply list_lookup_singleton_Some in Ho as [_ <-]. cbn. lia.
Qed.

(** *** Commands and completion callbacks *)

Ltac command_outcome :=
  repeat match goal with
         | |- context [heap ?w !! ?t] => destruct (heap w !! t) eqn:?
         | |- context [hasGetStats ?w] => destruct (hasGetStats w) eqn:?
         | |- context [match ?x with _ => _ end] => is_var x; destruct x
         end;
  cbn;
  first [ by apply co_same
        | by eapply co_log; [|reflexivity]
        | by eapply co_alter; [intros x| |reflexivity]
        | eapply (co_alter _ _ _ _ []);
          [| |apply world_ext; cbn; by rewrite ?app_nil_r]; [by intros x|done] ].

(** Every method call and every completion callback is one of the three
    command outcomes. *)
Lemma step_command (st : Step) (w : World) :
  isCommand st -> CommandOutcome w (step st w).
Proof.
  destruct st; cbn [isCommand]; intros Hc; try done;
    unfold step, exec,
      addStream, removeStream, createOffer, createAnswer, setLocalDescription,
      setRemoteDescription, addIceCandidate, getStats, close, createDataChannel,
      bind, getThis, native, tell, ret.
  1-10: command_outcome.
  destruct cb; cbn in args; try destruct args as [successful data];
    unfold invoke, createOffer_callback, createAnswer_callback,
      setLocalDescription_callback, setRemoteDescription_callback,
      addIceCandidate_callback, getStats_callback,
      bind, call, modifyThis, tell, throw, ret, truthy; cbn [fst snd];
    command_outcome.
Qed.

Lemma Inv_command (w w' : World) : Inv w -> CommandOutcome w w' -> Inv w'.
Proof.
  intros HI [->|es _ ->|this f es Hf _ ->]; [done|by destruct HI|].
  assert (forall x, _peerConnectionId (f x) = _peerConnectionId x) as Hid
    by (intros x; apply Hf).
  split; cbn.
  - intros o s' Ho.
    destruct (lookup_alter_fields _ _ _ _ _ Hid Ho) as (s0 & Ho0 & _ & Hne & Heq).
    destruct (decide (o = this)) as [->|E].
    + rewrite (Heq eq_refl).
      replace (_subscriptions (f s0)) with (_subscriptions s0) by (symmetry; apply Hf).
      by apply (inv_subscribed _ HI).
    + rewrite (Hne E). by apply (inv_subscribed _ HI).
  - intros l Hl. apply is_Some_alter. by apply (inv_this _ HI).
  - apply (inv_nodup _ HI).
  - apply (inv_fresh _ HI).
  - intros o o' s1 s1' Ho Ho' Hp.
    destruct (lookup_alter_fields _ _ _ _ _ Hid Ho) as (s0 & Ho0 & Hp0 & _).
    destruct (lookup_alter_fields _ _ _ _ _ Hid Ho') as (s0' & Ho0' & Hp0' & _).
    apply (inv_ids _ HI _ _ _ _ Ho0 Ho0'). congruence.
  - intros o s1 Ho.
    destruct (lookup_alter_fields _ _ _ _ _ Hid Ho) as (s0 & Ho0 & Hp0 & _).
    rewrite Hp0. by apply (inv_next_id _ HI _ _ Ho0).
Qed.

Lemma Inv_initial (stats : bool) : Inv (initial stats).
Proof.
  split; cbn; try done.
  - intros l Hl. by apply elem_of_nil in Hl.
  - apply NoDup_nil_2.
  - intros l Hl. by apply elem_of_nil in Hl.
Qed.

Lemma Inv_step (st : Step) (w : World) : Inv w -> Inv (step st w).
Proof.
  intros HI.
  destruct st;
    try (apply (Inv_command w); [done|by apply step_command]).
  - cbn [step]. unfold exec. rewrite constructor_exec. by apply Inv_constructor.
  - by apply Inv_emit.
Qed.

(** The invariant holds of every world the program reaches. *)
Lemma reachable_Inv (w : World) : reachable w -> Inv w.
Proof.
  induction 1 as [stats|w st _ IH]; [apply Inv_initial|by apply Inv_step].
Qed.

(** *** Objects whose subscriptions are gone *)

(** No turn of the program gives an object its listeners back. *)
Lemma unsubscribed_step (this : nat) (st : Step) (w : World) :
  unsubscribed this w -> unsubscribed this (step st w).
Proof.
  intros [Hsome Hdead].
  destruct st;
    try (lazymatch goal with
         | |- unsubscribed _ (step ?st _) =>
             destruct (step_command st w I) as [->|es _ ->|o f es _ _ ->]
         end;
         (split; cbn; [by try apply is_Some_alter|done])).
  - cbn [step]. unfold exec. rewrite constructor_exec.
    split; unfold constructedWorld; cbn [snd heap listeners].
    + apply lookup_lt_is_Some. rewrite length_app.
      apply lookup_lt_is_Some in Hsome. lia.
    + unfold owned. rewrite filter_app. fold (owned this (listeners w)).
      rewrite Hdead, app_nil_l. apply filter_none. intros l Hl E.
      apply registration_elem in Hl as [Hl _].
      apply lookup_lt_is_Some in Hsome. lia.
  - cbn [step]. destruct (emit_unsubscribed w this ev Hdead) as (Hd & Hh & _).
    split; [by rewrite Hh|done].
Qed.

Lemma unsubscribed_run (this : nat) (steps : list Step) (w : World) :
  unsubscribed this w -> unsubscribed this (run steps w).
Proof.
  revert w. induction steps as [|st steps IH]; intros w Hw; [done|].
  cbn. apply IH. by apply unsubscribed_step.
Qed.

(** After the closing event the object has no listener. *)
Lemma closed_unsubscribed (w : World) (this : nat) (s : Session) :
  Inv w -> heap w !! this = Some s ->
  unsubscribed this
    (exec (emit (peerConnectionIceConnectionChanged (_peerConnectionId s) "closed")) w).
Proof.
  intros HI Hthis.
  destruct (owned this (listeners w)) as [|l ls] eqn:Hown.
  - destruct (emit_unsubscribed w this
                (peerConnectionIceConnectionChanged (_peerConnectionId s) "closed") Hown)
      as (Hd & Hh & _).
    split; [by rewrite Hh, Hthis|done].
  - assert (subscribed this w) as Hsub by (unfold subscribed; by rewrite Hown).
    unfold exec.
    rewrite (emit_subscribed _ _ _
               (peerConnectionIceConnectionChanged (_peerConnectionId s) "closed")
               HI Hthis Hsub eq_refl).
    cbn [snd listener]. unfold exec.
    rewrite (onIceConnectionChanged_closed _ _ _ Hthis). cbn [snd].
    change (unsubscribed this (closedWorld this s w)).
    pose proof (Inv_outcome this _ w _ HI
                  (lo_closed this _ w _ s Hthis eq_refl eq_refl)) as HI'.
    assert (heap (closedWorld this s w) !! this
            = Some (set_subscriptions [] (set_iceConnectionState "closed" s))) as Hnew.
    { cbn. by rewrite list_lookup_alter_eq, Hthis. }
    split; [by rewrite Hnew|].
    by destruct (inv_subscribed _ HI' _ _ Hnew) as [[? _]|[_ ?]].
Qed.

(** An event for another identity leaves the subscriptions of [this] in
    place, also when it closes the object it is for. *)
Lemma emit_other_subscribed (w : World) (this : nat) (s : Session) (ev : NativeEvent) :
  Inv w -> heap w !! this = Some s -> ev_id ev <> _peerConnectionId s ->
  owned this (listeners (exec (emit ev) w)) = owned this (listeners w).
Proof.
  intros HI Hthis Hne. unfold exec, emit.
  apply (forEach_deliver_rel
           (fun w w' => Inv w -> heap w !! this = Some s ->
                        Inv w' /\ heap w' !! this = Some s
                        /\ owned this (listeners w') = owned this (listeners w)) ev);
    [done| | |done|done].
  - intros w1 w2 w3 H12 H23 HI1 H1.
    destruct (H12 HI1 H1) as (HI2 & H2 & O2). destruct (H23 HI2 H2) as (HI3 & H3 & O3).
    split_and!; [done|done|congruence].
  - intros l w0 _ _ HI0 H0.
    destruct (decide (l_this l = this)) as [->|Ho].
    + unfold exec. by rewrite (listener_mismatch _ _ _ H0).
    + pose proof (listener_outcome (l_this l) ev w0) as Hout.
      destruct (outcome_frame this _ ev _ _ Ho Hout) as (Hh & _ & _).
      split_and!; [by eapply Inv_outcome|congruence|].
      destruct Hout as [->|so f e n _ _ _ _ _ ->|so Hso _ ->]; [done|done|].
      cbn [closedWorld listeners]. unfold owned. rewrite filter_swap.
      apply filter_all. intros l' Hl'.
      by eapply (owned_other_disjoint w0 (l_this l) this).
Qed.

(** The connection state of [this] moves only under an
    ice-connection-changed event that carries its id. *)
Lemma emit_ice_only (w : World) (this : nat) (s : Session) (ev : NativeEvent) :
  heap w !! this = Some s ->
  exists s', heap (exec (emit ev) w) !! this = Some s'
             /\ _peerConnectionId s' = _peerConnectionId s
             /\ (iceConnectionState s' = iceConnectionState s
                 \/ ev = peerConnectionIceConnectionChanged (_peerConnectionId s)
                           (iceConnectionState s')).
Proof.
  intros Hthis. unfold exec, emit. revert s Hthis.
  apply (forEach_deliver_rel
           (fun w w' => forall s, heap w !! this = Some s ->
              exists s', heap w' !! this = Some s'
                         /\ _peerConnectionId s' = _peerConnectionId s
                         /\ (iceConnectionState s' = iceConnectionState s
                             \/ ev = peerConnectionIceConnectionChanged (_peerConnectionId s)
                                       (iceConnectionState s'))) ev).
  - intros w0 s H0. exists s. split_and!; [done|done|by left].
  - intros w1 w2 w3 H12 H23 s1 H1.
    destruct (H12 _ H1) as (s2 & H2 & P2 & C2).
    destruct (H23 _ H2) as (s3 & H3 & P3 & C3).
    exists s3. split_and!; [done|congruence|].
    destruct C3 as [C3|C3]; [destruct C2 as [C2|C2]|].
    + left. congruence.
    + right. by rewrite C3.
    + right. by rewrite <- P2.
  - intros l w0 _ _ s0 H0.
    pose proof (listener_outcome (l_this l) ev w0) as Hout.
    destruct (decide (l_this l = this)) as [E|Ho].
    + rewrite E in Hout |- *.
      destruct Hout as [->|so f e n Hso _ Hid _ Hice ->|so Hso Hev ->].
      * exists s0. split_and!; [done|done|by left].
      * assert (so = s0) as -> by congruence.
        exists (f s0). cbn. rewrite list_lookup_alter_eq, H0.
        split_and!; [done|apply Hid|].
        destruct Hice as [Hice|(v & -> & Hice)]; [left; apply Hice|right; by rewrite Hice].
      * assert (so = s0) as -> by congruence.
        exists (set_subscriptions [] (set_iceConnectionState "closed" s0)).
        cbn. rewrite list_lookup_alter_eq, H0. split_and!; [done|done|by right].
    + destruct (outcome_frame this _ ev _ _ Ho Hout) as (Hh & _ & _).
      exists s0. split_and!; [congruence|done|by left].
Qed.

Lemma mostRecent_cons (carried : NativeEvent -> option string) (current : string)
    (ev : NativeEvent) (evs : list NativeEvent) :
  mostRecent carried current (ev :: evs)
  = mostRecent carried (default current (carried ev)) evs.
Proof.
  unfold mostRecent. cbn. destruct (carried ev) as [v|]; [|done].
  cbn [default]. rewrite last_cons. by destruct (last (omap carried evs)).
Qed.

Lemma dispatched_here (this : nat) (l : list Effect) (e : Event) (seen : Session) :
  dispatched this (l ++ [Dispatched this e seen]) = dispatched this l ++ [e].
Proof. rewrite dispatched_app. cbn. by rewrite Nat.eqb_refl. Qed.

(** What an event does to the subscribed session whose id it carries. *)
Lemma emit_matching (w : World) (this : nat) (s : Session) (ev : NativeEvent) :
  Inv w -> heap w !! this = Some s -> subscribed this w ->
  ev_id ev = _peerConnectionId s ->
  exists s' e,
    heap (exec (emit ev) w) !! this = Some s'
    /\ _peerConnectionId s' = _peerConnectionId s
    /\ dispatched this (log (exec (emit ev) w)) = dispatched this (log w) ++ [e]
    /\ iceConnectionState s' = default (iceConnectionState s) (carriedIceConnectionState ev)
    /\ signalingState s' = default (signalingState s) (carriedSignalingState ev)
    /\ iceGatheringState s' = default (iceGatheringState s) (carriedIceGatheringState ev)
    /\ List.filter isChangeNotification [e] = option_list (changeNotification ev)
    /\ (closes ev = true -> unsubscribed this (exec (emit ev) w))
    /\ (closes ev = false -> subscribed this (exec (emit ev) w)).
Proof.
  intros HI Hthis Hsub Hid.
  pose proof (closed_unsubscribed w this s HI Hthis) as Hclosed.
  unfold exec in *. rewrite (emit_subscribed _ _ _ _ HI Hthis Hsub Hid).
  rewrite (emit_subscribed _ _ _
             (peerConnectionIceConnectionChanged (_peerConnectionId s) "closed")
             HI Hthis Hsub eq_refl) in Hclosed.
  cbn [snd] in *. unfold exec in *.
  destruct ev; cbn in Hid; subst; cbn [listener] in *.
  - rewrite (onRenegotiationNeeded_match _ _ _ Hthis). cbn [snd with_log heap log listeners].
    eexists s, _. rewrite dispatched_here. by split_and!.
  - destruct (decide (state = "closed")) as [->|Hs].
    + rewrite (onIceConnectionChanged_closed _ _ _ Hthis) in *.
      cbn [snd heap log] in *.
      eexists _, _. rewrite list_lookup_alter_eq, Hthis.
      rewrite app_assoc, dispatched_app, dispatched_here, dispatched_removed, app_nil_r.
      by split_and!.
    + rewrite (onIceConnectionChanged_open _ _ _ Hthis) by done.
      cbn [snd with_log with_heap heap log listeners].
      eexists _, _. rewrite list_lookup_alter_eq, Hthis, dispatched_here.
      split_and!; try done.
      cbn. intros Hc. by apply String.eqb_eq in Hc.
  - rewrite (onSignalingStateChanged_match _ _ _ Hthis).
    cbn [snd with_log with_heap heap log listeners].
    eexists _, _. rewrite list_lookup_alter_eq, Hthis, dispatched_here. by split_and!.
  - rewrite (onAddedStream_match _ _ _ Hthis). cbn [snd heap log listeners].
    eexists _, _. rewrite list_lookup_alter_eq, Hthis, dispatched_here. by split_and!.
  - destruct (List.find (fun s' => String.eqb (ms_id s') streamId) (_remoteStreams s)) eqn:F.
    + rewrite (onRemovedStream_known _ _ _ Hthis _ _ F).
      cbn [snd with_log with_heap heap log listeners].
      eexists _, _. rewrite list_lookup_alter_eq, Hthis, dispatched_here. by split_and!.
    + rewrite (onRemovedStream_unknown _ _ _ Hthis _ F).
      cbn [snd with_log with_heap heap log listeners].
      eexists s, _. rewrite dispatched_here. by split_and!.
  - rewrite (onGotICECandidate_match _ _ _ Hthis). cbn [snd with_log heap log listeners].
    eexists s, _. rewrite dispatched_here. by split_and!.
  - rewrite (onIceGatheringChanged_match _ _ _ Hthis).
    cbn [snd with_log with_heap heap log listeners].
    eexists _, _. rewrite list_lookup_alter_eq, Hthis, dispatched_here. by split_and!.
Qed.

Lemma emits_unsubscribed (this : nat) (evs : list NativeEvent) (w : World) :
  unsubscribed this w ->
  heap (run (map Emit evs) w) !! this = heap w !! this
  /\ dispatched this (log (run (map Emit evs) w)) = dispatched this (log w).
Proof.
  revert w. induction evs as [|ev evs IH]; intros w Hw; [done|].
  cbn [map run fold_left]. fold (run (map Emit evs) (step (Emit ev) w)).
  destruct (IH _ (unsubscribed_step this (Emit ev) w Hw)) as [Hh Hd].
  destruct Hw as [_ Hown].
  destruct (emit_unsubscribed w this ev Hown) as (_ & Hh1 & Hd1).
  cbn [step] in *. split; congruence.
Qed.

Lemma emits_applied (this : nat) (evs : list NativeEvent) (w : World) (s : Session) :
  Inv w -> heap w !! this = Some s -> subscribed this w ->
  exists s',
    heap (run (map Emit evs) w) !! this = Some s'
    /\ iceConnectionState s'
       = mostRecent carriedIceConnectionState (iceConnectionState s)
           (applied (_peerConnectionId s) evs)
    /\ signalingState s'
       = mostRecent carriedSignalingState (signalingState s)
           (applied (_peerConnectionId s) evs)
    /\ iceGatheringState s'
       = mostRecent carriedIceGatheringState (iceGatheringState s)
           (applied (_peerConnectionId s) evs)
    /\ List.filter isChangeNotification (dispatched this (log (run (map Emit evs) w)))
       = List.filter isChangeNotification (dispatched this (log w))
         ++ omap changeNotification (applied (_peerConnectionId s) evs).
Proof.
  revert w s. induction evs as [|ev evs IH]; intros w s HI Hthis Hsub.
  { exists s. cbn. by rewrite app_nil_r. }
  cbn [map run fold_left applied]. fold (run (map Emit evs) (step (Emit ev) w)).
  cbn [step].
  destruct (Z.eqb_spec (ev_id ev) (_peerConnectionId s)) as [Hid|Hid].
  - destruct (emit_matching w this s ev HI Hthis Hsub Hid)
      as (s1 & e & H1 & P1 & D1 & Ice1 & Sig1 & Gath1 & N1 & Hc & Ho).
    rewrite !mostRecent_cons, <- Ice1, <- Sig1, <- Gath1.
    assert (omap changeNotification [ev] = List.filter isChangeNotification [e]) as N1'.
    { rewrite N1. cbn. by destruct (changeNotification ev). }
    destruct (closes ev) eqn:Hcl.
    + destruct (emits_unsubscribed this evs _ (Hc eq_refl)) as [Hh Hd].
      exists s1. rewrite Hh, Hd, D1, List.filter_app, N1'. split_and!; first [done|reflexivity].
    + destruct (IH _ s1 (Inv_emit ev w HI) H1 (Ho eq_refl))
        as (s' & H' & Ice' & Sig' & Gath' & N').
      exists s'. rewrite P1 in *. split_and!; [done..|].
      change (ev :: applied (_peerConnectionId s) evs)
        with ([ev] ++ applied (_peerConnectionId s) evs).
      rewrite omap_app, N1', N', D1, List.filter_app, <- app_assoc. done.
  - destruct (emit_other_identity w this s ev Hthis Hid) as [H1 D1].
    assert (subscribed this (exec (emit ev) w)) as Hsub1.
    { unfold subscribed. by rewrite (emit_other_subscribed w this s ev HI Hthis Hid). }
    destruct (IH _ s (Inv_emit ev w HI) H1 Hsub1) as (s' & H' & Ice' & Sig' & Gath' & N').
    exists s'. rewrite D1 in N'. by split_and!.
Qed.


(** ** The properties of the specification *)

(** C1, as the code has it.  When two stream-added events that carry the
    id of a subscribed session and the same stream identity are applied in
    sequence, each one constructs a MediaStream of its own, appends it to
    the remote streams and dispatches 'addstream' with it: the session ends
    with two streams of that identity, two distinct objects, and two
    notifications. *)
Theorem stream_added_twice (w : World) (this : nat) (s : Session)
    (streamId : string) (tracks1 tracks2 : list TrackInfo) :
  reachable w -> heap w !! this = Some s -> subscribed this w ->
  let ev1 := peerConnectionAddedStream (_peerConnectionId s) streamId tracks1 in
  let ev2 := peerConnectionAddedStream (_peerConnectionId s) streamId tracks2 in
  let stream1 := {| ms_ref := nextStream w; ms_id := streamId;
                    ms_tracks := map newMediaStreamTrack tracks1 |} in
  let stream2 := {| ms_ref := S (nextStream w); ms_id := streamId;
                    ms_tracks := map newMediaStreamTrack tracks2 |} in
  let w2 := run [Emit ev1; Emit ev2] w in
  heap w2 !! this = Some (set_remoteStreams (_remoteStreams s ++ [stream1; stream2]) s)
  /\ dispatched this (log w2)
     = dispatched this (log w)
       ++ [MediaStreamEvent "addstream" (Some stream1);
           MediaStreamEvent "addstream" (Some stream2)]
  /\ ms_ref stream1 <> ms_ref stream2.
Proof.
  intros Hreach Hthis Hsub ev1 ev2 stream1 stream2 w2.
  pose proof (reachable_Inv _ Hreach) as HI.
  subst w2. cbn [run fold_left step].
  set (w1 := exec (emit ev1) w).
  assert (w1 = snd (onAddedStream this (_peerConnectionId s) streamId tracks1 w)) as Hw1.
  { subst w1. unfold exec. by rewrite (emit_subscribed _ _ _ ev1 HI Hthis Hsub eq_refl). }
  rewrite (onAddedStream_match _ _ _ Hthis) in Hw1. cbn [snd] in Hw1.
  fold stream1 in Hw1. change (constructedStream w streamId tracks1) with stream1 in Hw1.
  set (s1 := set_remoteStreams (_remoteStreams s ++ [stream1]) s).
  assert (heap w1 !! this = Some s1) as Hthis1.
  { rewrite Hw1. cbn [heap]. by rewrite list_lookup_alter_eq, Hthis. }
  assert (Inv w1) as HI1 by (by apply Inv_emit).
  assert (subscribed this w1) as Hsub1 by (by rewrite Hw1).
  unfold exec at 1 2.
  rewrite (emit_subscribed _ _ _ ev2 HI1 Hthis1 Hsub1 eq_refl).
  cbn [snd listener ev2]. unfold exec.
  change (_peerConnectionId s) with (_peerConnectionId s1).
  rewrite (onAddedStream_match _ _ _ Hthis1). cbn [snd heap log].
  rewrite list_lookup_alter_eq, Hthis1.
  replace (constructedStream w1 streamId tracks2) with stream2
    by (by rewrite Hw1).
  split_and!.
  - cbn. by rewrite <- app_assoc.
  - rewrite dispatched_here. rewrite Hw1. cbn [log].
    rewrite dispatched_here, <- app_assoc. done.
  - cbn. lia.
Qed.

Lemma stream_added_twice_witness :
  (reachable (oneConnection false)
   /\ heap (oneConnection false) !! 0%nat = Some firstSession
   /\ subscribed 0 (oneConnection false))
  /\ let ev1 := peerConnectionAddedStream (_peerConnectionId firstSession) "s1" [] in
     let ev2 := peerConnectionAddedStream (_peerConnectionId firstSession) "s1" [] in
     let stream1 := {| ms_ref := nextStream (oneConnection false); ms_id := "s1";
                       ms_tracks := map newMediaStreamTrack [] |} in
     let stream2 := {| ms_ref := S (nextStream (oneConnection false)); ms_id := "s1";
                       ms_tracks := map newMediaStreamTrack [] |} in
     let w2 := run [Emit ev1; Emit ev2] (oneConnection false) in
     heap w2 !! 0%nat
     = Some (set_remoteStreams (_remoteStreams firstSession ++ [stream1; stream2])
               firstSession)
     /\ dispatched 0 (log w2)
        = dispatched 0 (log (oneConnection false))
          ++ [MediaStreamEvent "addstream" (Some stream1);
              MediaStreamEvent "addstream" (Some stream2)]
     /\ ms_ref stream1 <> ms_ref stream2.
Proof.
  assert (reachable (oneConnection false)) as Hreach
    by apply reachable_step, reachable_initial.
  assert (heap (oneConnection false) !! 0%nat = Some firstSession) as Hthis
    by (vm_compute; reflexivity).
  assert (subscribed 0 (oneConnection false)) as Hsub
    by (unfold subscribed; vm_compute; discriminate).
  split; [repeat split; assumption|].
  exact (stream_added_twice (oneConnection false) 0 firstSession "s1" [] []
           Hreach Hthis Hsub).
Defined.

(** C1, as the claim states it, fails: on a freshly constructed connection
    the second of two identical stream-added events is not a no-op.  It
    changes the object, it dispatches a second 'addstream', and the
    session ends with two streams named "s1". *)
Lemma stream_added_once_counterexample :
  let ev := peerConnectionAddedStream 0 "s1" [] in
  let w1 := step (Emit ev) (oneConnection false) in
  let w2 := step (Emit ev) w1 in
  ~ addedStreamOnce (oneConnection false) 0 0 "s1" []
  /\ heap w2 !! 0%nat <> heap w1 !! 0%nat
  /\ dispatched 0 (log w1)
     = [MediaStreamEvent "addstream"
          (Some {| ms_ref := 0; ms_id := "s1"; ms_tracks := [] |})]
  /\ dispatched 0 (log w2)
     = [MediaStreamEvent "addstream"
          (Some {| ms_ref := 0; ms_id := "s1"; ms_tracks := [] |});
        MediaStreamEvent "addstream"
          (Some {| ms_ref := 1; ms_id := "s1"; ms_tracks := [] |})]
  /\ _remoteStreams <$> heap w2 !! 0%nat
     = Some [{| ms_ref := 0; ms_id := "s1"; ms_tracks := [] |};
             {| ms_ref := 1; ms_id := "s1"; ms_tracks := [] |}].
Proof.
  split; [|split; [|split; [|split]]].
  - unfold addedStreamOnce. intros (Hheap & _). vm_compute in Hheap. discriminate Hheap.
  - intros Hheap. vm_compute in Hheap. discriminate Hheap.
  - vm_compute. reflexivity.
  - vm_compute. reflexivity.
  - vm_compute. reflexivity.
Qed.

(** C2.  [setLocalDescription(d)] writes nothing itself: it hands the
    engine a callback.  When the engine completes it with success, the
    object's [localDescription] is [d], the caller's value, whatever
    payload the engine passed along, and it is already so when the
    success continuation is called (the call is the last effect; with the
    continuation omitted the write has still happened).  When the engine
    completes it with failure, the object is unchanged. *)
Theorem setLocalDescription_roundtrip (w : World) (this : nat) (s : Session)
    (d : RTCSessionDescription) (success failure : option Fn) (constraints : Opaque) :
  heap w !! this = Some s ->
  let cb := SetLocalDescriptionCallback this d success failure in
  setLocalDescription this d success failure constraints w
  = (Ok tt,
     with_log (log w ++ [Native (peerConnectionSetLocalDescription
                                   (RTCSessionDescription_toJSON d)
                                   (_peerConnectionId s) cb)]) w)
  /\ (forall (w' : World) (s' : Session) (data : Data),
        heap w' !! this = Some s' ->
        let succeeded := exec (invoke cb (true, data)) w' in
        let failed := exec (invoke cb (false, data)) w' in
        heap succeeded !! this = Some (set_localDescription d s')
        /\ localDescription (set_localDescription d s') = Some d
        /\ log succeeded
           = log w' ++ match success with Some k => [Called k []] | None => [] end
        /\ heap failed = heap w').
Proof.
  intros Hthis cb. split.
  - unfold setLocalDescription, bind. by rewrite (getThis_here _ _ _ Hthis).
  - intros w' s' data Hthis'. cbn [invoke cb fst snd].
    unfold exec, setLocalDescription_callback, bind, modifyThis, call, tell, throw.
    split_and!.
    + destruct success; cbn; by rewrite list_lookup_alter_eq, Hthis'.
    + done.
    + destruct success; cbn; by rewrite ?app_nil_r.
    + by destruct failure.
Qed.

Lemma setLocalDescription_roundtrip_witness :
  heap (oneConnection false) !! 0%nat = Some firstSession
  /\ let d := {| sd_type := Some "offer"; sd_sdp := Some "v=0" |} in
     let cb := SetLocalDescriptionCallback 0 d (Some 1%nat) (Some 2%nat) in
     setLocalDescription 0 d (Some 1%nat) (Some 2%nat) "{}" (oneConnection false)
     = (Ok tt,
        with_log (log (oneConnection false)
                  ++ [Native (peerConnectionSetLocalDescription
                                (RTCSessionDescription_toJSON d)
                                (_peerConnectionId firstSession) cb)])
          (oneConnection false))
     /\ (forall (w' : World) (s' : Session) (data : Data),
           heap w' !! 0%nat = Some s' ->
           let succeeded := exec (invoke cb (true, data)) w' in
           let failed := exec (invoke cb (false, data)) w' in
           heap succeeded !! 0%nat = Some (set_localDescription d s')
           /\ localDescription (set_localDescription d s') = Some d
           /\ log succeeded = log w' ++ [Called 1%nat []]
           /\ heap failed = heap w').
Proof.
  assert (heap (oneConnection false) !! 0%nat = Some firstSession) as Hthis
    by (vm_compute; reflexivity).
  split; [assumption|].
  exact (setLocalDescription_roundtrip (oneConnection false) 0 firstSession
           {| sd_type := Some "offer"; sd_sdp := Some "v=0" |}
           (Some 1%nat) (Some 2%nat) "{}" Hthis).
Defined.



(** C6.  On an engine without [peerConnectionGetStats], [getStats] returns
    normally after one console warning: nothing is handed to the engine,
    no continuation is called, and no object changes. *)
Theorem getStats_unsupported (w : World) (this : nat) (track : option MediaStreamTrack)
    (success failure : option Fn) :
  hasGetStats w = false ->
  getStats this track success failure w
  = (Ok tt, with_log (log w ++ [Warned "RTCPeerConnection getStats doesn't support"]) w)
  /\ heap (exec (getStats this track success failure) w) = heap w
  /\ listeners (exec (getStats this track success failure) w) = listeners w.
Proof.
  intros Hno. unfold exec, getStats. by rewrite Hno.
Qed.

Lemma getStats_unsupported_witness :
  hasGetStats (oneConnection false) = false
  /\ getStats 0 None (Some 1%nat) (Some 2%nat) (oneConnection false)
     = (Ok tt,
        with_log (log (oneConnection false)
                  ++ [Warned "RTCPeerConnection getStats doesn't support"])
          (oneConnection false))
  /\ heap (exec (getStats 0 None (Some 1%nat) (Some 2%nat)) (oneConnection false))
     = heap (oneConnection false)
  /\ listeners (exec (getStats 0 None (Some 1%nat) (Some 2%nat)) (oneConnection false))
     = listeners (oneConnection false).
Proof.
  assert (hasGetStats (oneConnection false) = false) as Hno
    by (vm_compute; reflexivity).
  split; [assumption|].
  exact (getStats_unsupported (oneConnection false) 0 None (Some 1%nat) (Some 2%nat) Hno).
Defined.

(** C8.  An inbound event, of any of the seven kinds, whose id differs from
    a session's id: the session's own listener returns at once, and the
    emitter, whatever it does for the other sessions on the channel,
    leaves this session's fields, descriptions, remote streams and
    subscriptions as they are and dispatches nothing on it. *)
Theorem other_identity_ignored (w : World) (this : nat) (s : Session) (ev : NativeEvent) :
  heap w !! this = Some s ->
  ev_id ev <> _peerConnectionId s ->
  listener this ev w = (Ok tt, w)
  /\ heap (exec (emit ev) w) !! this = Some s
  /\ dispatched this (log (exec (emit ev) w)) = dispatched this (log w).
Proof.
  intros Hthis Hne.
  destruct (emit_other_identity w this s ev Hthis Hne) as [Hh Hd].
  split_and!; [by apply (listener_mismatch w this s)|done|done].
Qed.

Lemma other_identity_ignored_witness :
  (heap (oneConnection false) !! 0%nat = Some firstSession
   /\ ev_id (peerConnectionIceConnectionChanged 1 "closed")
      <> _peerConnectionId firstSession)
  /\ listener 0 (peerConnectionIceConnectionChanged 1 "closed") (oneConnection false)
     = (Ok tt, oneConnection false)
  /\ heap (exec (emit (peerConnectionIceConnectionChanged 1 "closed"))
             (oneConnection false)) !! 0%nat
     = Some firstSession
  /\ dispatched 0 (log (exec (emit (peerConnectionIceConnectionChanged 1 "closed"))
                          (oneConnection false)))
     = dispatched 0 (log (oneConnection false)).
Proof.
  assert (heap (oneConnection false) !! 0%nat = Some firstSession) as Hthis
    by (vm_compute; reflexivity).
  assert (ev_id (peerConnectionIceConnectionChanged 1 "closed")
          <> _peerConnectionId firstSession) as Hne
    by (vm_compute; discriminate).
  split; [split; assumption|].
  exact (other_identity_ignored (oneConnection false) 0 firstSession
           (peerConnectionIceConnectionChanged 1 "closed") Hthis Hne).
Defined.

(** C10.  When the emitter delivers ice-connection-changed 'closed' to a
    session that holds its subscriptions, the listener first stores
    'closed', then dispatches 'iceconnectionstatechange' on the session,
    which at that moment shows the state 'closed' and still has its seven
    subscriptions, and only then removes the subscriptions, one by one,
    and empties [_subscriptions]. *)
Theorem closed_notified_before_teardown (w : World) (this : nat) (s : Session) :
  reachable w -> heap w !! this = Some s -> subscribed this w ->
  let ev := peerConnectionIceConnectionChanged (_peerConnectionId s) "closed" in
  let seen := set_iceConnectionState "closed" s in
  emit ev w = (Ok tt, exec (emit ev) w)
  /\ log (exec (emit ev) w)
     = log w
       ++ [Dispatched this (RTCEvent "iceconnectionstatechange") seen]
       ++ map Removed (_subscriptions s)
  /\ iceConnectionState seen = "closed"
  /\ _subscriptions seen = _subscriptions s
  /\ length (_subscriptions s) = 7%nat
  /\ heap (exec (emit ev) w) !! this = Some (set_subscriptions [] seen)
  /\ unsubscribed this (exec (emit ev) w).
Proof.
  intros Hreach Hthis Hsub ev seen.
  pose proof (reachable_Inv _ Hreach) as HI.
  pose proof (closed_unsubscribed w this s HI Hthis) as Hclosed. fold ev in Hclosed.
  destruct (subscribed_registration _ _ _ HI Hthis Hsub) as [_ Hlen].
  unfold exec in *.
  rewrite (emit_subscribed _ _ _ ev HI Hthis Hsub eq_refl) in *.
  cbn [snd ev listener] in *. unfold exec in *.
  rewrite (onIceConnectionChanged_closed _ _ _ Hthis) in *. cbn [snd heap log] in *.
  rewrite list_lookup_alter_eq, Hthis. by split_and!.
Qed.

Lemma closed_notified_before_teardown_witness :
  (reachable (oneConnection false)
   /\ heap (oneConnection false) !! 0%nat = Some firstSession
   /\ subscribed 0 (oneConnection false))
  /\ let ev := peerConnectionIceConnectionChanged (_peerConnectionId firstSession)
                 "closed" in
     let seen := set_iceConnectionState "closed" firstSession in
     emit ev (oneConnection false) = (Ok tt, exec (emit ev) (oneConnection false))
     /\ log (exec (emit ev) (oneConnection false))
        = log (oneConnection false)
          ++ [Dispatched 0 (RTCEvent "iceconnectionstatechange") seen]
          ++ map Removed (_subscriptions firstSession)
     /\ iceConnectionState seen = "closed"
     /\ _subscriptions seen = _subscriptions firstSession
     /\ length (_subscriptions firstSession) = 7%nat
     /\ heap (exec (emit ev) (oneConnection false)) !! 0%nat
        = Some (set_subscriptions [] seen)
     /\ unsubscribed 0 (exec (emit ev) (oneConnection false)).
Proof.
  assert (reachable (oneConnection false)) as Hreach
    by apply reachable_step, reachable_initial.
  assert (heap (oneConnection false) !! 0%nat = Some firstSession) as Hthis
    by (vm_compute; reflexivity).
  assert (subscribed 0 (oneConnection false)) as Hsub
    by (unfold subscribed; vm_compute; discriminate).
  split; [repeat split; assumption|].
  exact (closed_notified_before_teardown (oneConnection false) 0 firstSession
           Hreach Hthis Hsub).
Defined.

(** C3.  Once the emitter has processed ice-connection-changed 'closed'
    for a session's id, the session has no listener left, and whatever
    happens next (method calls, completions, new connections, events) it
    never has one again: every later inbound event, of any kind and for
    any id, leaves its object as it is and dispatches nothing on it. *)
Theorem closed_is_final (w : World) (this : nat) (s : Session)
    (steps : list Step) (ev : NativeEvent) :
  reachable w -> heap w !! this = Some s ->
  let w1 := step (Emit (peerConnectionIceConnectionChanged (_peerConnectionId s) "closed")) w in
  let w2 := run steps w1 in
  unsubscribed this w1
  /\ unsubscribed this w2
  /\ unsubscribed this (step (Emit ev) w2)
  /\ heap (step (Emit ev) w2) !! this = heap w2 !! this
  /\ dispatched this (log (step (Emit ev) w2)) = dispatched this (log w2).
Proof.
  intros Hreach Hthis w1 w2.
  assert (unsubscribed this w1) as H1
    by apply (closed_unsubscribed w this s (reachable_Inv _ Hreach) Hthis).
  assert (unsubscribed this w2) as H2 by (by apply unsubscribed_run).
  destruct (emit_unsubscribed w2 this ev (proj2 H2)) as (_ & Hh & Hd).
  split_and!; [done|done|by apply unsubscribed_step|done|done].
Qed.

Lemma closed_is_final_witness :
  (reachable (oneConnection false)
   /\ heap (oneConnection false) !! 0%nat = Some firstSession)
  /\ let w1 := step (Emit (peerConnectionIceConnectionChanged
                             (_peerConnectionId firstSession) "closed"))
                 (oneConnection false) in
     let w2 := run [New "{}"; Close 0] w1 in
     unsubscribed 0 w1
     /\ unsubscribed 0 w2
     /\ unsubscribed 0 (step (Emit (peerConnectionSignalingStateChanged 0 "closed")) w2)
     /\ heap (step (Emit (peerConnectionSignalingStateChanged 0 "closed")) w2) !! 0%nat
        = heap w2 !! 0%nat
     /\ dispatched 0 (log (step (Emit (peerConnectionSignalingStateChanged 0 "closed")) w2))
        = dispatched 0 (log w2).
Proof.
  assert (reachable (oneConnection false)) as Hreach
    by apply reachable_step, reachable_initial.
  assert (heap (oneConnection false) !! 0%nat = Some firstSession) as Hthis
    by (vm_compute; reflexivity).
  split; [split; assumption|].
  exact (closed_is_final (oneConnection false) 0 firstSession [New "{}"; Close 0]
           (peerConnectionSignalingStateChanged 0 "closed") Hreach Hthis).
Defined.

(** C4.  For a session that holds its subscriptions, each state event that
    carries its id overwrites the field with the carried string, whatever
    it is, and then dispatches the change notification on the session,
    which already shows the new value.  Over a sequence of inbound events
    each of [iceConnectionState], [signalingState] and [iceGatheringState]
    ends as the value carried by the most recent applied event of its
    kind, and the change notifications dispatched are those of the applied
    state events, in order. *)
Theorem state_fields_follow_events (w : World) (this : nat) (s : Session)
    (state : string) (evs : list NativeEvent) :
  reachable w -> heap w !! this = Some s -> subscribed this w ->
  let id := _peerConnectionId s in
  let wi := exec (emit (peerConnectionIceConnectionChanged id state)) w in
  let ws := exec (emit (peerConnectionSignalingStateChanged id state)) w in
  let wg := exec (emit (peerConnectionIceGatheringChanged id state)) w in
  let w' := run (map Emit evs) w in
  (iceConnectionState <$> heap wi !! this = Some state
   /\ log wi = log w
               ++ [Dispatched this (RTCEvent "iceconnectionstatechange")
                     (set_iceConnectionState state s)]
               ++ (if String.eqb state "closed" then map Removed (_subscriptions s) else []))
  /\ (heap ws !! this = Some (set_signalingState state s)
      /\ log ws = log w ++ [Dispatched this (RTCEvent "signalingstatechange")
                              (set_signalingState state s)])
  /\ (heap wg !! this = Some (set_iceGatheringState state s)
      /\ log wg = log w ++ [Dispatched this (RTCEvent "icegatheringstatechange")
                              (set_iceGatheringState state s)])
  /\ exists s',
       heap w' !! this = Some s'
       /\ iceConnectionState s'
          = mostRecent carriedIceConnectionState (iceConnectionState s) (applied id evs)
       /\ signalingState s'
          = mostRecent carriedSignalingState (signalingState s) (applied id evs)
       /\ iceGatheringState s'
          = mostRecent carriedIceGatheringState (iceGatheringState s) (applied id evs)
       /\ List.filter isChangeNotification (dispatched this (log w'))
          = List.filter isChangeNotification (dispatched this (log w))
            ++ omap changeNotification (applied id evs).
Proof.
  intros Hreach Hthis Hsub id wi ws wg w'.
  pose proof (reachable_Inv _ Hreach) as HI.
  subst id. split; [|split; [|split]].
  - subst wi. unfold exec.
    rewrite (emit_subscribed _ _ _
               (peerConnectionIceConnectionChanged (_peerConnectionId s) state)
               HI Hthis Hsub eq_refl).
    cbn [snd listener]. unfold exec.
    destruct (decide (state = "closed")) as [->|Hs].
    + rewrite (onIceConnectionChanged_closed _ _ _ Hthis). cbn [snd heap log].
      by rewrite list_lookup_alter_eq, Hthis.
    + rewrite (onIceConnectionChanged_open _ _ _ Hthis) by done.
      cbn [snd heap log with_log with_heap].
      rewrite list_lookup_alter_eq, Hthis.
      apply String.eqb_neq in Hs. by rewrite Hs.
  - subst ws. unfold exec.
    rewrite (emit_subscribed _ _ _
               (peerConnectionSignalingStateChanged (_peerConnectionId s) state)
               HI Hthis Hsub eq_refl).
    cbn [snd listener]. unfold exec.
    rewrite (onSignalingStateChanged_match _ _ _ Hthis).
    cbn [snd heap log with_log with_heap]. by rewrite list_lookup_alter_eq, Hthis.
  - subst wg. unfold exec.
    rewrite (emit_subscribed _ _ _
               (peerConnectionIceGatheringChanged (_peerConnectionId s) state)
               HI Hthis Hsub eq_refl).
    cbn [snd listener]. unfold exec.
    rewrite (onIceGatheringChanged_match _ _ _ Hthis).
    cbn [snd heap log with_log with_heap]. by rewrite list_lookup_alter_eq, Hthis.
  - by apply emits_applied.
Qed.

Lemma state_fields_follow_events_witness :
  (reachable (oneConnection false)
   /\ heap (oneConnection false) !! 0%nat = Some firstSession
   /\ subscribed 0 (oneConnection false))
  /\ let evs := [peerConnectionSignalingStateChanged 0 "have-local-offer";
                 peerConnectionIceConnectionChanged 1 "failed";
                 peerConnectionIceConnectionChanged 0 "no-such-state";
                 peerConnectionIceGatheringChanged 0 "gathering";
                 peerConnectionIceConnectionChanged 0 "closed";
                 peerConnectionSignalingStateChanged 0 "stable"] in
     let id := _peerConnectionId firstSession in
     let wi := exec (emit (peerConnectionIceConnectionChanged id "no-such-state"))
                 (oneConnection false) in
     let ws := exec (emit (peerConnectionSignalingStateChanged id "no-such-state"))
                 (oneConnection false) in
     let wg := exec (emit (peerConnectionIceGatheringChanged id "no-such-state"))
                 (oneConnection false) in
     let w' := run (map Emit evs) (oneConnection false) in
     (iceConnectionState <$> heap wi !! 0%nat = Some "no-such-state"
      /\ log wi = log (oneConnection false)
                  ++ [Dispatched 0 (RTCEvent "iceconnectionstatechange")
                        (set_iceConnectionState "no-such-state" firstSession)]
                  ++ (if String.eqb "no-such-state" "closed"
                      then map Removed (_subscriptions firstSession) else []))
     /\ (heap ws !! 0%nat = Some (set_signalingState "no-such-state" firstSession)
         /\ log ws = log (oneConnection false)
                     ++ [Dispatched 0 (RTCEvent "signalingstatechange")
                           (set_signalingState "no-such-state" firstSession)])
     /\ (heap wg !! 0%nat = Some (set_iceGatheringState "no-such-state" firstSession)
         /\ log wg = log (oneConnection false)
                     ++ [Dispatched 0 (RTCEvent "icegatheringstatechange")
                           (set_iceGatheringState "no-such-state" firstSession)])
     /\ exists s',
          heap w' !! 0%nat = Some s'
          /\ iceConnectionState s'
             = mostRecent carriedIceConnectionState (iceConnectionState firstSession)
                 (applied id evs)
          /\ signalingState s'
             = mostRecent carriedSignalingState (signalingState firstSession)
                 (applied id evs)
          /\ iceGatheringState s'
             = mostRecent carriedIceGatheringState (iceGatheringState firstSession)
                 (applied id evs)
          /\ List.filter isChangeNotification (dispatched 0 (log w'))
             = List.filter isChangeNotification (dispatched 0 (log (oneConnection false)))
               ++ omap changeNotification (applied id evs).
Proof.
  assert (reachable (oneConnection false)) as Hreach
    by apply reachable_step, reachable_initial.
  assert (heap (oneConnection false) !! 0%nat = Some firstSession) as Hthis
    by (vm_compute; reflexivity).
  assert (subscribed 0 (oneConnection false)) as Hsub
    by (unfold subscribed; vm_compute; discriminate).
  split; [repeat split; assumption|].
  exact (state_fields_follow_events (oneConnection false) 0 firstSession "no-such-state"
           [peerConnectionSignalingStateChanged 0 "have-local-offer";
            peerConnectionIceConnectionChanged 1 "failed";
            peerConnectionIceConnectionChanged 0 "no-such-state";
            peerConnectionIceGatheringChanged 0 "gathering";
            peerConnectionIceConnectionChanged 0 "closed";
            peerConnectionSignalingStateChanged 0 "stable"]
           Hreach Hthis Hsub).
Defined.

(** C7.  [close()] hands the teardown request to the engine and changes no
    object.  In one turn of the program, whatever it is (a constructor, a
    method call, a completion, an emitted event), the [iceConnectionState]
    of a session changes only if the turn is the emission of an
    ice-connection-changed event that carries the session's id and the new
    value; and such an event with 'closed' does set it for a session that
    holds its subscriptions. *)
Theorem close_only_requests (w : World) (this : nat) (s : Session) :
  heap w !! this = Some s ->
  close this w
  = (Ok tt, with_log (log w ++ [Native (peerConnectionClose (_peerConnectionId s))]) w)
  /\ heap (exec (close this) w) = heap w
  /\ listeners (exec (close this) w) = listeners w
  /\ (forall (st : Step) (s' : Session),
        heap (step st w) !! this = Some s' ->
        iceConnectionState s' <> iceConnectionState s ->
        st = Emit (peerConnectionIceConnectionChanged (_peerConnectionId s)
                     (iceConnectionState s')))
  /\ (reachable w -> subscribed this w ->
      iceConnectionState
        <$> heap (step (Emit (peerConnectionIceConnectionChanged
                                (_peerConnectionId s) "closed")) w) !! this
      = Some "closed").
Proof.
  intros Hthis.
  assert (close this w
          = (Ok tt,
             with_log (log w ++ [Native (peerConnectionClose (_peerConnectionId s))]) w))
    as Hclose.
  { unfold close, bind. by rewrite (getThis_here _ _ _ Hthis). }
  split_and!; [done|unfold exec; by rewrite Hclose..| |].
  - intros st s' Hs' Hne.
    destruct st;
      try (exfalso;
           lazymatch goal with
           | H : heap (step ?st _) !! _ = _ |- _ =>
               destruct (step_command st w I) as [E|es _ E|o f es Hf _ E]
           end;
           rewrite E in Hs'; cbn [heap with_log with_heap] in Hs';
           [congruence|congruence|];
           destruct (decide (o = this)) as [->|Ho];
           [rewrite list_lookup_alter_eq, Hthis in Hs'; injection Hs' as <-;
            apply Hne, Hf
           |rewrite list_lookup_alter_ne in Hs' by done; congruence]).
    + exfalso. cbn [step] in Hs'. unfold exec in Hs'. rewrite constructor_exec in Hs'.
      unfold constructedWorld in Hs'. cbn [snd heap] in Hs'.
      rewrite (lookup_app_l_Some _ _ _ _ Hthis) in Hs'. congruence.
    + cbn [step] in Hs'.
      destruct (emit_ice_only w this s ev Hthis) as (s'' & Hs'' & _ & [Hsame| ->]).
      * congruence.
      * congruence.
  - intros Hreach Hsub.
    cbn [step]. unfold exec.
    rewrite (emit_subscribed _ _ _
               (peerConnectionIceConnectionChanged (_peerConnectionId s) "closed")
               (reachable_Inv _ Hreach) Hthis Hsub eq_refl).
    cbn [snd listener]. unfold exec.
    rewrite (onIceConnectionChanged_closed _ _ _ Hthis). cbn [snd heap].
    by rewrite list_lookup_alter_eq, Hthis.
Qed.

Lemma close_only_requests_witness :
  heap (oneConnection false) !! 0%nat = Some firstSession
  /\ close 0 (oneConnection false)
     = (Ok tt,
        with_log (log (oneConnection false)
                  ++ [Native (peerConnectionClose (_peerConnectionId firstSession))])
          (oneConnection false))
  /\ heap (exec (close 0) (oneConnection false)) = heap (oneConnection false)
  /\ listeners (exec (close 0) (oneConnection false)) = listeners (oneConnection false)
  /\ (forall (st : Step) (s' : Session),
        heap (step st (oneConnection false)) !! 0%nat = Some s' ->
        iceConnectionState s' <> iceConnectionState firstSession ->
        st = Emit (peerConnectionIceConnectionChanged (_peerConnectionId firstSession)
                     (iceConnectionState s')))
  /\ (reachable (oneConnection false) -> subscribed 0 (oneConnection false) ->
      iceConnectionState
        <$> heap (step (Emit (peerConnectionIceConnectionChanged
                                (_peerConnectionId firstSession) "closed"))
                    (oneConnection false)) !! 0%nat
      = Some "closed").
Proof.
  assert (heap (oneConnection false) !! 0%nat = Some firstSession) as Hthis
    by (vm_compute; reflexivity).
  split; [assumption|].
  exact (close_only_requests (oneConnection false) 0 firstSession Hthis).
Defined.

(** C9.  Each of [createOffer], [createAnswer], [setLocalDescription] and
    [setRemoteDescription] hands the engine one callback that holds the
    caller's [success] and [failure], and that callback calls [success] on
    success and [failure] on failure without looking at them: a supplied
    continuation is called, an omitted one is a call of [undefined], which
    throws (for the two descriptions after the field has been written).
    [addIceCandidate] hands over a callback that tests both continuations
    first, and [getStats] one that holds [success] only and tests it: with
    the continuation omitted they end normally and leave no trace. *)
Theorem continuations_guarded_or_not (w : World) (this : nat) (s : Session)
    (d : RTCSessionDescription) (ice : RTCIceCandidate)
    (track : option MediaStreamTrack) (success failure : option Fn)
    (constraints : Opaque) :
  heap w !! this = Some s ->
  (let cb := CreateOfferCallback success failure in
   createOffer this success failure constraints w
   = (Ok tt,
      with_log (log w ++ [Native (peerConnectionCreateOffer (_peerConnectionId s) cb)]) w)
   /\ (forall (w' : World) (data : Data),
         invoke cb (true, data) w'
         = (unguarded success,
            with_log (log w' ++ calls success
                                  [ArgDescription (newRTCSessionDescription data)]) w')
         /\ invoke cb (false, data) w'
            = (unguarded failure, with_log (log w' ++ calls failure [ArgData data]) w')))
  /\ (let cb := CreateAnswerCallback success failure in
      createAnswer this success failure constraints w
      = (Ok tt,
         with_log (log w ++ [Native (peerConnectionCreateAnswer (_peerConnectionId s) cb)]) w)
      /\ (forall (w' : World) (data : Data),
            invoke cb (true, data) w'
            = (unguarded success,
               with_log (log w' ++ calls success
                                     [ArgDescription (newRTCSessionDescription data)]) w')
            /\ invoke cb (false, data) w'
               = (unguarded failure, with_log (log w' ++ calls failure [ArgData data]) w')))
  /\ (let cb := SetLocalDescriptionCallback this d success failure in
      setLocalDescription this d success failure constraints w
      = (Ok tt,
         with_log (log w ++ [Native (peerConnectionSetLocalDescription
                                       (RTCSessionDescription_toJSON d)
                                       (_peerConnectionId s) cb)]) w)
      /\ (forall (w' : World) (data : Data),
            invoke cb (true, data) w'
            = (unguarded success,
               with_log (log w' ++ calls success [])
                 (with_heap (alter (set_localDescription d) this (heap w')) w'))
            /\ invoke cb (false, data) w'
               = (unguarded failure, with_log (log w' ++ calls failure [ArgData data]) w')))
  /\ (let cb := SetRemoteDescriptionCallback this d success failure in
      setRemoteDescription this d success failure w
      = (Ok tt,
         with_log (log w ++ [Native (peerConnectionSetRemoteDescription
                                       (RTCSessionDescription_toJSON d)
                                       (_peerConnectionId s) cb)]) w)
      /\ (forall (w' : World) (data : Data),
            invoke cb (true, data) w'
            = (unguarded success,
               with_log (log w' ++ calls success [])
                 (with_heap (alter (set_remoteDescription d) this (heap w')) w'))
            /\ invoke cb (false, data) w'
               = (unguarded failure, with_log (log w' ++ calls failure [ArgData data]) w')))
  /\ (let cb := AddICECandidateCallback success failure in
      addIceCandidate this ice success failure w
      = (Ok tt,
         with_log (log w ++ [Native (peerConnectionAddICECandidate
                                       (RTCIceCandidate_toJSON ice)
                                       (_peerConnectionId s) cb)]) w)
      /\ (forall w' : World,
            invoke cb true w' = (Ok tt, with_log (log w' ++ calls success []) w')
            /\ invoke cb false w' = (Ok tt, with_log (log w' ++ calls failure []) w')))
  /\ (let cb := GetStatsCallback success in
      (hasGetStats w = true ->
       getStats this track success failure w
       = (Ok tt,
          with_log (log w ++ [Native (peerConnectionGetStats
                                        (match track with
                                         | Some t => inl (mt_id t)
                                         | None => inr (-1)
                                         end)
                                        (_peerConnectionId s) cb)]) w))
      /\ (forall (w' : World) (stats : Opaque),
            invoke cb stats w'
            = (Ok tt, with_log (log w' ++ calls success [ArgStats stats]) w'))).
Proof.
  intros Hthis.
  assert (forall w0 : World, with_log (log w0 ++ []) w0 = w0) as Hnil
    by (intros w0; rewrite app_nil_r; by destruct w0).
  assert (forall (w0 : World) (h : list Session),
            with_log (log w0 ++ []) (with_heap h w0) = with_heap h w0) as Hnil'
    by (intros w0 h; cbn [log with_heap]; rewrite app_nil_r; by destruct w0).
  split; [|split; [|split; [|split; [|split]]]]; intros cb; subst cb; (split; [|]).
  - unfold createOffer, bind. by rewrite (getThis_here _ _ _ Hthis).
  - intros w' data. cbn [invoke fst snd].
    unfold createOffer_callback, call, tell, throw, unguarded, calls.
    split; [destruct success|destruct failure]; by rewrite ?Hnil.
  - unfold createAnswer, bind. by rewrite (getThis_here _ _ _ Hthis).
  - intros w' data. cbn [invoke fst snd].
    unfold createAnswer_callback, call, tell, throw, unguarded, calls.
    split; [destruct success|destruct failure]; by rewrite ?Hnil.
  - unfold setLocalDescription, bind. by rewrite (getThis_here _ _ _ Hthis).
  - intros w' data. cbn [invoke fst snd].
    unfold setLocalDescription_callback, bind, modifyThis, call, tell, throw,
      unguarded, calls.
    split; [destruct success|destruct failure]; by rewrite ?Hnil, ?Hnil'.
  - unfold setRemoteDescription, bind. by rewrite (getThis_here _ _ _ Hthis).
  - intros w' data. cbn [invoke fst snd].
    unfold setRemoteDescription_callback, bind, modifyThis, call, tell, throw,
      unguarded, calls.
    split; [destruct success|destruct failure]; by rewrite ?Hnil, ?Hnil'.
  - unfold addIceCandidate, bind. by rewrite (getThis_here _ _ _ Hthis).
  - intros w'. cbn [invoke].
    unfold addIceCandidate_callback, call, tell, ret, calls.
    split; [destruct success|destruct failure]; by rewrite ?Hnil.
  - intros Hstats. unfold getStats, bind. rewrite Hstats.
    by rewrite (getThis_here _ _ _ Hthis).
  - intros w' stats. cbn [invoke].
    unfold getStats_callback, call, tell, ret, calls.
    destruct success; by rewrite ?Hnil.
Qed.

Lemma continuations_guarded_or_not_witness :
  (heap (oneConnection true) !! 0%nat = Some firstSession
   /\ hasGetStats (oneConnection true) = true)
  /\ let d := {| sd_type := Some "offer"; sd_sdp := Some "v=0" |} in
     let ice := {| candidate := "candidate:1"; sdpMid := "0"; sdpMLineIndex := 0 |} in
     let track := Some {| mt_id := "t1"; mt_kind := "audio"; mt_enabled := true |} in
     (let cb := CreateOfferCallback None (Some 2%nat) in
      createOffer 0 None (Some 2%nat) "{}" (oneConnection true)
      = (Ok tt,
         with_log (log (oneConnection true)
                   ++ [Native (peerConnectionCreateOffer (_peerConnectionId firstSession) cb)])
           (oneConnection true))
      /\ (forall (w' : World) (data : Data),
            invoke cb (true, data) w'
            = (unguarded None,
               with_log (log w' ++ calls None
                                     [ArgDescription (newRTCSessionDescription data)]) w')
            /\ invoke cb (false, data) w'
               = (unguarded (Some 2%nat),
                  with_log (log w' ++ calls (Some 2%nat) [ArgData data]) w')))
     /\ (let cb := CreateAnswerCallback None (Some 2%nat) in
         createAnswer 0 None (Some 2%nat) "{}" (oneConnection true)
         = (Ok tt,
            with_log (log (oneConnection true)
                      ++ [Native (peerConnectionCreateAnswer
                                    (_peerConnectionId firstSession) cb)])
              (oneConnection true))
         /\ (forall (w' : World) (data : Data),
               invoke cb (true, data) w'
               = (unguarded None,
                  with_log (log w' ++ calls None
                                        [ArgDescription (newRTCSessionDescription data)]) w')
               /\ invoke cb (false, data) w'
                  = (unguarded (Some 2%nat),
                     with_log (log w' ++ calls (Some 2%nat) [ArgData data]) w')))
     /\ (let cb := SetLocalDescriptionCallback 0 d None (Some 2%nat) in
         setLocalDescription 0 d None (Some 2%nat) "{}" (oneConnection true)
         = (Ok tt,
            with_log (log (oneConnection true)
                      ++ [Native (peerConnectionSetLocalDescription
                                    (RTCSessionDescription_toJSON d)
                                    (_peerConnectionId firstSession) cb)])
              (oneConnection true))
         /\ (forall (w' : World) (data : Data),
               invoke cb (true, data) w'
               = (unguarded None,
                  with_log (log w' ++ calls None [])
                    (with_heap (alter (set_localDescription d) 0%nat (heap w')) w'))
               /\ invoke cb (false, data) w'
                  = (unguarded (Some 2%nat),
                     with_log (log w' ++ calls (Some 2%nat) [ArgData data]) w')))
     /\ (let cb := SetRemoteDescriptionCallback 0 d None (Some 2%nat) in
         setRemoteDescription 0 d None (Some 2%nat) (oneConnection true)
         = (Ok tt,
            with_log (log (oneConnection true)
                      ++ [Native (peerConnectionSetRemoteDescription
                                    (RTCSessionDescription_toJSON d)
                                    (_peerConnectionId firstSession) cb)])
              (oneConnection true))
         /\ (forall (w' : World) (data : Data),
               invoke cb (true, data) w'
               = (unguarded None,
                  with_log (log w' ++ calls None [])
                    (with_heap (alter (set_remoteDescription d) 0%nat (heap w')) w'))
               /\ invoke cb (false, data) w'
                  = (unguarded (Some 2%nat),
                     with_log (log w' ++ calls (Some 2%nat) [ArgData data]) w')))
     /\ (let cb := AddICECandidateCallback None (Some 2%nat) in
         addIceCandidate 0 ice None (Some 2%nat) (oneConnection true)
         = (Ok tt,
            with_log (log (oneConnection true)
                      ++ [Native (peerConnectionAddICECandidate
                                    (RTCIceCandidate_toJSON ice)
                                    (_peerConnectionId firstSession) cb)])
              (oneConnection true))
         /\ (forall w' : World,
               invoke cb true w' = (Ok tt, with_log (log w' ++ calls None []) w')
               /\ invoke cb false w'
                  = (Ok tt, with_log (log w' ++ calls (Some 2%nat) []) w')))
     /\ (let cb := GetStatsCallback None in
         (hasGetStats (oneConnection true) = true ->
          getStats 0 track None (Some 2%nat) (oneConnection true)
          = (Ok tt,
             with_log (log (oneConnection true)
                       ++ [Native (peerConnectionGetStats
                                     (match track with
                                      | Some t => inl (mt_id t)
                                      | None => inr (-1)
                                      end)
                                     (_peerConnectionId firstSession) cb)])
               (oneConnection true)))
         /\ (forall (w' : World) (stats : Opaque),
               invoke cb stats w'
               = (Ok tt, with_log (log w' ++ calls None [ArgStats stats]) w'))).
Proof.
  assert (heap (oneConnection true) !! 0%nat = Some firstSession) as Hthis
    by (vm_compute; reflexivity).
  assert (hasGetStats (oneConnection true) = true) as Hstats
    by (vm_compute; reflexivity).
  split; [split; assumption|].
  exact (continuations_guarded_or_not (oneConnection true) 0 firstSession
           {| sd_type := Some "offer"; sd_sdp := Some "v=0" |}
           {| candidate := "candidate:1"; sdpMid := "0"; sdpMLineIndex := 0 |}
           (Some {| mt_id := "t1"; mt_kind := "audio"; mt_enabled := true |})
           None (Some 2%nat) "{}" Hthis).
Defined.

(** ** Further properties of the class *)

Lemma IdsInOrder_alter (w w' : World) (o : nat) (f : Session -> Session) :
  (forall x, _peerConnectionId (f x) = _peerConnectionId x) ->
  heap w' = alter f o (heap w) ->
  nextPeerConnectionId w' = nextPeerConnectionId w ->
  IdsInOrder w -> IdsInOrder w'.
Proof.
  intros Hid Hheap Hnext [Hn Hids]. split.
  - by rewrite Hnext, Hheap, length_alter.
  - intros this s Hs. rewrite Hheap in Hs.
    destruct (lookup_alter_fields _ _ _ _ _ Hid Hs) as (s0 & Hs0 & Hp & _).
    rewrite Hp. by apply Hids.
Qed.

Lemma IdsInOrder_outcome (this : nat) (ev : NativeEvent) (w w' : World) :
  ListenerOutcome this ev w w' -> IdsInOrder w -> IdsInOrder w'.
Proof.
  intros [->|s f e n _ _ Hid _ _ ->|s _ _ ->] HI; [done| |].
  - by apply (IdsInOrder_alter w _ this f).
  - by apply (IdsInOrder_alter w _ this
                (fun s => set_subscriptions [] (set_iceConnectionState "closed" s))).
Qed.

Lemma IdsInOrder_step (st : Step) (w : World) : IdsInOrder w -> IdsInOrder (step st w).
Proof.
  intros HI.
  destruct st;
    try (lazymatch goal with
         | |- IdsInOrder (step ?st _) =>
             destruct (step_command st w I) as [->|es _ ->|o f es Hf _ ->]
         end;
         [done|done|apply (IdsInOrder_alter w _ o f); [intros x; apply Hf|done..]]).
  - cbn [step]. unfold exec. rewrite constructor_exec. cbn [snd].
    destruct HI as [Hn Hids]. split; unfold constructedWorld; cbn [heap nextPeerConnectionId].
    + rewrite length_app. cbn. lia.
    + intros this s Hs. apply lookup_app_Some in Hs as [Hs|[Hlen Hs]]; [by apply Hids|].
      apply list_lookup_singleton_Some in Hs as [Hz <-]. cbn. lia.
  - cbn [step]. unfold exec, emit.
    apply (forEach_deliver_rel (fun w w' => IdsInOrder w -> IdsInOrder w') ev);
      [auto|auto| |done].
    intros l w0 _ _. apply (IdsInOrder_outcome (l_this l) ev), listener_outcome.
Qed.

Lemma reachable_IdsInOrder (w : World) : reachable w -> IdsInOrder w.
Proof.
  induction 1 as [stats|w st _ IH]; [|by apply IdsInOrder_step].
  split; [done|]. intros this s Hs. cbn in Hs. by rewrite lookup_nil in Hs.
Qed.

(** X1.  The n-th connection constructed since the module was loaded has
    id n, whatever happened in between, and the counter stands at the
    number of connections: no two connections share an id, and no id is
    handed out again after a connection has closed. *)
Theorem ids_follow_construction_order (w : World) (this : nat) (s : Session) :
  reachable w -> heap w !! this = Some s ->
  _peerConnectionId s = Z.of_nat this
  /\ nextPeerConnectionId w = Z.of_nat (length (heap w))
  /\ _peerConnectionId s < nextPeerConnectionId w
  /\ (forall this' s', heap w !! this' = Some s' ->
                       _peerConnectionId s' = _peerConnectionId s -> this' = this).
Proof.
  intros Hreach Hthis. destruct (reachable_IdsInOrder _ Hreach) as [Hn Hids].
  split_and!.
  - by apply Hids.
  - done.
  - rewrite (Hids _ _ Hthis), Hn. apply lookup_lt_Some in Hthis. lia.
  - intros this' s' Hs' Heq. rewrite (Hids _ _ Hthis), (Hids _ _ Hs') in Heq. lia.
Qed.

Lemma ids_follow_construction_order_witness :
  (reachable (run [New "{}"; Emit (peerConnectionIceConnectionChanged 0 "closed"); New "{}"]
                (initial false))
   /\ heap (run [New "{}"; Emit (peerConnectionIceConnectionChanged 0 "closed"); New "{}"]
              (initial false)) !! 1%nat
      = Some (set_subscriptions (seq 7 7) (newSession 1)))
  /\ _peerConnectionId (set_subscriptions (seq 7 7) (newSession 1)) = Z.of_nat 1
  /\ nextPeerConnectionId
       (run [New "{}"; Emit (peerConnectionIceConnectionChanged 0 "closed"); New "{}"]
          (initial false))
     = Z.of_nat (length (heap (run [New "{}";
                                    Emit (peerConnectionIceConnectionChanged 0 "closed");
                                    New "{}"] (initial false))))
  /\ _peerConnectionId (set_subscriptions (seq 7 7) (newSession 1))
     < nextPeerConnectionId
         (run [New "{}"; Emit (peerConnectionIceConnectionChanged 0 "closed"); New "{}"]
            (initial false))
  /\ (forall this' s',
        heap (run [New "{}"; Emit (peerConnectionIceConnectionChanged 0 "closed"); New "{}"]
                (initial false)) !! this' = Some s' ->
        _peerConnectionId s' = _peerConnectionId (set_subscriptions (seq 7 7) (newSession 1)) ->
        this' = 1%nat).
Proof.
  assert (reachable (run [New "{}"; Emit (peerConnectionIceConnectionChanged 0 "closed");
                          New "{}"] (initial false))) as Hreach
    by (repeat apply reachable_step; apply reachable_initial).
  assert (heap (run [New "{}"; Emit (peerConnectionIceConnectionChanged 0 "closed"); New "{}"]
                  (initial false)) !! 1%nat
          = Some (set_subscriptions (seq 7 7) (newSession 1))) as Hthis
    by (vm_compute; reflexivity).
  split; [split; assumption|].
  exact (ids_follow_construction_order _ 1 _ Hreach Hthis).
Defined.



Lemma registration_eventTypes (this : nat) (subs : list nat) :
  length subs = 7%nat ->
  l_eventType <$> registration this subs = eventTypes
  /\ l_subscription <$> registration this subs = subs.
Proof.
  intros Hlen.
  do 8 (destruct subs as [|? subs]; try discriminate Hlen). done.
Qed.



(** X3.  In every world the program reaches the emitter holds nothing
    stale: each registered listener belongs to an object of the heap that
    still stores its subscription, no subscription is registered twice,
    and each connection either has exactly its seven listeners, one per
    event type and under the subscriptions it stores, or has none and
    stores none. *)
Theorem registry_matches_subscriptions (w : World) :
  reachable w ->
  (forall l, l ∈ listeners w ->
     exists s, heap w !! l_this l = Some s /\ l_subscription l ∈ _subscriptions s)
  /\ NoDup (l_subscription <$> listeners w)
  /\ (forall this s, heap w !! this = Some s ->
        (l_eventType <$> owned this (listeners w) = eventTypes
         /\ l_subscription <$> owned this (listeners w) = _subscriptions s)
        \/ (owned this (listeners w) = [] /\ _subscriptions s = [])).
Proof.
  intros Hreach. pose proof (reachable_Inv _ Hreach) as HI.
  split_and!.
  - intros l Hl. destruct (inv_this _ HI l Hl) as [s Hs]. exists s. split; [done|].
    assert (l ∈ owned (l_this l) (listeners w)) as Hown by (by apply owned_elem).
    destruct (inv_subscribed _ HI _ _ Hs) as [[Hnil _]|[Hreg _]].
    + rewrite Hnil in Hown. by apply elem_of_nil in Hown.
    + rewrite Hreg in Hown. by apply registration_elem in Hown as [_ ?].
  - apply (inv_nodup _ HI).
  - intros this s Hs.
    destruct (inv_subscribed _ HI _ _ Hs) as [?|[Hreg Hlen]]; [by right|left].
    rewrite Hreg. by apply registration_eventTypes.
Qed.

Lemma registry_matches_subscriptions_witness :
  reachable (oneConnection false)
  /\ (forall l, l ∈ listeners (oneConnection false) ->
        exists s, heap (oneConnection false) !! l_this l = Some s
                  /\ l_subscription l ∈ _subscriptions s)
  /\ NoDup (l_subscription <$> listeners (oneConnection false))
  /\ (forall this s, heap (oneConnection false) !! this = Some s ->
        (l_eventType <$> owned this (listeners (oneConnection false)) = eventTypes
         /\ l_subscription <$> owned this (listeners (oneConnection false))
            = _subscriptions s)
        \/ (owned this (listeners (oneConnection false)) = [] /\ _subscriptions s = [])).
Proof.
  assert (reachable (oneConnection false)) as Hreach
    by apply reachable_step, reachable_initial.
  split; [assumption|].
  exact (registry_matches_subscriptions (oneConnection false) Hreach).
Defined.

Lemma emit_writes (w : World) (this : nat) (s : Session) (ev : NativeEvent) :
  Inv w -> heap w !! this = Some s ->
  exists s', heap (exec (emit ev) w) !! this = Some s'
             /\ (s' = s \/ writes this (Emit ev) s s').
Proof.
  intros HI Hthis.
  destruct (decide (ev_id ev = _peerConnectionId s)) as [Hid|Hid]; last first.
  { destruct (emit_other_identity w this s ev Hthis Hid) as [Hh _].
    exists s. split; [done|by left]. }
  destruct (owned this (listeners w)) as [|l0 ls] eqn:Hown.
  { destruct (emit_unsubscribed w this ev Hown) as (_ & Hh & _).
    exists s. split; [congruence|by left]. }
  assert (subscribed this w) as Hsub by (unfold subscribed; by rewrite Hown).
  unfold exec. rewrite (emit_subscribed _ _ _ ev HI Hthis Hsub Hid). cbn [snd].
  unfold exec. destruct ev; cbn in Hid; subst id; cbn [listener writes].
  - rewrite (onRenegotiationNeeded_match _ _ _ Hthis). cbn [snd with_log heap].
    exists s. split; [done|by left].
  - destruct (decide (state = "closed")) as [->|Hs].
    + rewrite (onIceConnectionChanged_closed _ _ _ Hthis). cbn [snd heap].
      rewrite list_lookup_alter_eq, Hthis. eexists. split; [done|right; done].
    + rewrite (onIceConnectionChanged_open _ _ _ Hthis) by done.
      cbn [snd with_log with_heap heap]. rewrite list_lookup_alter_eq, Hthis.
      eexists. split; [done|right]. apply String.eqb_neq in Hs. by rewrite Hs.
  - rewrite (onSignalingStateChanged_match _ _ _ Hthis).
    cbn [snd with_log with_heap heap]. rewrite list_lookup_alter_eq, Hthis.
    eexists. split; [done|by right].
  - rewrite (onAddedStream_match _ _ _ Hthis). cbn [snd heap].
    rewrite list_lookup_alter_eq, Hthis.
    eexists. split; [done|right]. split; [done|by eexists].
  - destruct (List.find (fun s' => String.eqb (ms_id s') streamId) (_remoteStreams s))
      as [stream|] eqn:F.
    + rewrite (onRemovedStream_known _ _ _ Hthis _ _ F).
      cbn [snd with_log with_heap heap]. rewrite list_lookup_alter_eq, Hthis.
      eexists. split; [done|right]. split; [done|by eexists].
    + rewrite (onRemovedStream_unknown _ _ _ Hthis _ F). cbn [snd with_log heap].
      exists s. split; [done|by left].
  - rewrite (onGotICECandidate_match _ _ _ Hthis). cbn [snd with_log heap].
    exists s. split; [done|by left].
  - rewrite (onIceGatheringChanged_match _ _ _ Hthis).
    cbn [snd with_log with_heap heap]. rewrite list_lookup_alter_eq, Hthis.
    eexists. split; [done|by right].
Qed.

Lemma method_keeps_heap (st : Step) (w : World) :
  match st with New _ | Emit _ | Invoke _ _ => False | _ => True end ->
  heap (step st w) = heap w.
Proof.
  destruct st; intros Hm; try done;
    unfold step, exec,
      addStream, removeStream, createOffer, createAnswer, setLocalDescription,
      setRemoteDescription, addIceCandidate, getStats, close, createDataChannel,
      bind, getThis, native, tell, ret;
    repeat match goal with
           | |- context [heap ?w !! ?t] => destruct (heap w !! t) eqn:?
           | |- context [hasGetStats ?w] => destruct (hasGetStats w) eqn:?
           end; reflexivity.
Qed.

Lemma invoke_writes (w : World) (this : nat) (s : Session)
    (cb : Callback) (args : CallbackArgs cb) :
  heap w !! this = Some s ->
  exists s', heap (exec (invoke cb args) w) !! this = Some s'
             /\ (s' = s \/ writes this (Invoke cb args) s s').
Proof.
  intros Hthis.
  destruct cb as [success failure|success failure|o d success failure
                 |o d success failure|success failure|success];
    cbn in args; try destruct args as [successful data];
    unfold exec, invoke, createOffer_callback, createAnswer_callback,
      setLocalDescription_callback, setRemoteDescription_callback,
      addIceCandidate_callback, getStats_callback,
      bind, call, modifyThis, tell, throw, ret, truthy; cbn [fst snd writes].
  1,2,5,6:
    repeat match goal with
           | |- context [match ?x with _ => _ end] => is_var x; destruct x
           end; cbn; exists s; (split; [done|by left]).
  all: destruct successful; [|destruct failure; cbn; exists s; (split; [done|by left])].
  all: destruct (decide (o = this)) as [->|Ho].
  all: destruct success; cbn;
    rewrite ?list_lookup_alter_eq, ?Hthis; rewrite ?list_lookup_alter_ne by done;
    try (eexists; split; [done|right; done]);
    exists s; (split; [done|by left]).
Qed.

(** Every turn of the program leaves a connection object as it was or
    makes the one write that [writes] lists for the turn. *)
Lemma step_writes (w : World) (this : nat) (s : Session) (st : Step) :
  reachable w -> heap w !! this = Some s ->
  exists s', heap (step st w) !! this = Some s' /\ (s' = s \/ writes this st s s').
Proof.
  intros Hreach Hthis.
  destruct st;
    try (exists s; split; [|by left];
         lazymatch goal with
         | |- heap (step ?st _) !! _ = _ => by rewrite (method_keeps_heap st w I)
         end).
  - exists s. split; [|by left]. cbn [step]. unfold exec. rewrite constructor_exec.
    unfold constructedWorld. cbn [snd heap]. by apply lookup_app_l_Some.
  - by apply invoke_writes.
  - apply emit_writes; [by apply reachable_Inv|done].
Qed.

(** X4.  Who writes what.  In one turn of the program a connection keeps
    its id, and
    - [signalingState] and [iceGatheringState] change only when the engine
      emits the matching state event with the connection's id (never as
      the immediate effect of a method call or of a completion);
    - [localDescription] and [remoteDescription] change only when the
      completion callback of the corresponding set-description call on
      this connection reports success, and become the caller's value;
    - the remote streams change only under a stream-added or
      stream-removed event with the connection's id;
    - the stored subscriptions change only under ice-connection-changed
      'closed' with the connection's id, and become empty. *)
Theorem fields_change_only_by (w : World) (this : nat) (s s' : Session) (st : Step) :
  reachable w -> heap w !! this = Some s -> heap (step st w) !! this = Some s' ->
  _peerConnectionId s' = _peerConnectionId s
  /\ (signalingState s' <> signalingState s ->
      st = Emit (peerConnectionSignalingStateChanged (_peerConnectionId s)
                   (signalingState s')))
  /\ (iceGatheringState s' <> iceGatheringState s ->
      st = Emit (peerConnectionIceGatheringChanged (_peerConnectionId s)
                   (iceGatheringState s')))
  /\ (localDescription s' <> localDescription s ->
      exists d success failure data,
        st = Invoke (SetLocalDescriptionCallback this d success failure) (true, data)
        /\ localDescription s' = Some d)
  /\ (remoteDescription s' <> remoteDescription s ->
      exists d success failure data,
        st = Invoke (SetRemoteDescriptionCallback this d success failure) (true, data)
        /\ remoteDescription s' = Some d)
  /\ (_remoteStreams s' <> _remoteStreams s ->
      (exists streamId tracks,
         st = Emit (peerConnectionAddedStream (_peerConnectionId s) streamId tracks))
      \/ (exists streamId,
            st = Emit (peerConnectionRemovedStream (_peerConnectionId s) streamId)))
  /\ (_subscriptions s' <> _subscriptions s ->
      st = Emit (peerConnectionIceConnectionChanged (_peerConnectionId s) "closed")
      /\ _subscriptions s' = []).
Proof.
  intros Hreach Hthis Hs'.
  destruct (step_writes w this s st Hreach Hthis) as (s'' & Hs'' & Hw).
  assert (s'' = s') as -> by congruence. clear Hs' Hs''.
  destruct Hw as [->|Hw]; [by split_and!|].
  destruct st as [| | | | | | | | | | |cb args|ev]; try done.
  - destruct cb as [| |o d success failure|o d success failure| |]; try done;
      cbn in args; destruct args as [successful data];
      cbn in Hw; destruct Hw as (-> & -> & ->);
      (split_and!; try done; intros _; by exists d, success, failure, data).
  - destruct ev as [|id state|id state|id streamId tracks|id streamId| |id state];
      try done; cbn in Hw.
    + destruct Hw as [-> ->].
      destruct (String.eqb_spec state "closed") as [->|Hs]; by split_and!.
    + destruct Hw as [-> ->]. by split_and!.
    + destruct Hw as (-> & ref & ->). split_and!; try done.
      intros _. left. by exists streamId, tracks.
    + destruct Hw as (-> & stream & _ & ->). split_and!; try done.
      intros _. right. by exists streamId.
    + destruct Hw as [-> ->]. by split_and!.
Qed.

Lemma fields_change_only_by_witness :
  (reachable (oneConnection false)
   /\ heap (oneConnection false) !! 0%nat = Some firstSession
   /\ heap (step (Emit (peerConnectionSignalingStateChanged 0 "have-local-offer"))
              (oneConnection false)) !! 0%nat
      = Some (set_signalingState "have-local-offer" firstSession))
  /\ _peerConnectionId (set_signalingState "have-local-offer" firstSession)
     = _peerConnectionId firstSession
  /\ (signalingState (set_signalingState "have-local-offer" firstSession)
      <> signalingState firstSession ->
      Emit (peerConnectionSignalingStateChanged 0 "have-local-offer")
      = Emit (peerConnectionSignalingStateChanged (_peerConnectionId firstSession)
                (signalingState (set_signalingState "have-local-offer" firstSession))))
  /\ (iceGatheringState (set_signalingState "have-local-offer" firstSession)
      <> iceGatheringState firstSession ->
      Emit (peerConnectionSignalingStateChanged 0 "have-local-offer")
      = Emit (peerConnectionIceGatheringChanged (_peerConnectionId firstSession)
                (iceGatheringState (set_signalingState "have-local-offer" firstSession))))
  /\ (localDescription (set_signalingState "have-local-offer" firstSession)
      <> localDescription firstSession ->
      exists d success failure data,
        Emit (peerConnectionSignalingStateChanged 0 "have-local-offer")
        = Invoke (SetLocalDescriptionCallback 0 d success failure) (true, data)
        /\ localDescription (set_signalingState "have-local-offer" firstSession) = Some d)
  /\ (remoteDescription (set_signalingState "have-local-offer" firstSession)
      <> remoteDescription firstSession ->
      exists d success failure data,
        Emit (peerConnectionSignalingStateChanged 0 "have-local-offer")
        = Invoke (SetRemoteDescriptionCallback 0 d success failure) (true, data)
        /\ remoteDescription (set_signalingState "have-local-offer" firstSession) = Some d)
  /\ (_remoteStreams (set_signalingState "have-local-offer" firstSession)
      <> _remoteStreams firstSession ->
      (exists streamId tracks,
         Emit (peerConnectionSignalingStateChanged 0 "have-local-offer")
         = Emit (peerConnectionAddedStream (_peerConnectionId firstSession) streamId tracks))
      \/ (exists streamId,
            Emit (peerConnectionSignalingStateChanged 0 "have-local-offer")
            = Emit (peerConnectionRemovedStream (_peerConnectionId firstSession) streamId)))
  /\ (_subscriptions (set_signalingState "have-local-offer" firstSession)
      <> _subscriptions firstSession ->
      Emit (peerConnectionSignalingStateChanged 0 "have-local-offer")
      = Emit (peerConnectionIceConnectionChanged (_peerConnectionId firstSession) "closed")
      /\ _subscriptions (set_signalingState "have-local-offer" firstSession) = []).
Proof.
  assert (reachable (oneConnection false)) as Hreach
    by apply reachable_step, reachable_initial.
  assert (heap (oneConnection false) !! 0%nat = Some firstSession) as Hthis
    by (vm_compute; reflexivity).
  assert (heap (step (Emit (peerConnectionSignalingStateChanged 0 "have-local-offer"))
                  (oneConnection false)) !! 0%nat
          = Some (set_signalingState "have-local-offer" firstSession)) as Hs'
    by (vm_compute; reflexivity).
  split; [repeat split; assumption|].
  exact (fields_change_only_by (oneConnection false) 0 firstSession
           (set_signalingState "have-local-offer" firstSession)
           (Emit (peerConnectionSignalingStateChanged 0 "have-local-offer"))
           Hreach Hthis Hs').
Defined.

Lemma splice1_sublist {A} (index : Z) (l : list A) : splice1 index l `sublist_of` l.
Proof.
  unfold splice1.
  set (n := Z.to_nat (if index <? 0 then Z.max (Z.of_nat (length l) + index) 0
                      else Z.min index (Z.of_nat (length l)))).
  rewrite <- (take_drop n l) at 3.
  apply sublist_app; [done|].
  replace (S n) with (n + 1)%nat by lia. rewrite <- drop_drop. apply sublist_drop.
Qed.

Lemma StreamsDistinct_alter (w w' : World) (o : nat) (f : Session -> Session) :
  heap w' = alter f o (heap w) ->
  (nextStream w <= nextStream w')%nat ->
  (forall s, heap w !! o = Some s ->
     NoDup (ms_ref <$> _remoteStreams s) ->
     (forall stream, stream ∈ _remoteStreams s -> (ms_ref stream < nextStream w)%nat) ->
     NoDup (ms_ref <$> _remoteStreams (f s))
     /\ forall stream, stream ∈ _remoteStreams (f s) -> (ms_ref stream < nextStream w')%nat) ->
  StreamsDistinct w -> StreamsDistinct w'.
Proof.
  intros Hheap Hle Hf HS this s' Hs'. rewrite Hheap in Hs'.
  destruct (decide (this = o)) as [->|Hne].
  - rewrite list_lookup_alter_eq in Hs'.
    destruct (heap w !! o) as [s|] eqn:Ho; [|done]. injection Hs' as <-.
    destruct (HS _ _ Ho) as [Hnd Hlt]. by apply Hf.
  - rewrite list_lookup_alter_ne in Hs' by done.
    destruct (HS _ _ Hs') as [Hnd Hlt]. split; [done|].
    intros stream Hin. specialize (Hlt _ Hin). lia.
Qed.

Lemma StreamsDistinct_same (w w' : World) (o : nat) (f : Session -> Session) :
  heap w' = alter f o (heap w) -> nextStream w' = nextStream w ->
  (forall s, _remoteStreams (f s) = _remoteStreams s) ->
  StreamsDistinct w -> StreamsDistinct w'.
Proof.
  intros Hheap Hn Hf. apply (StreamsDistinct_alter w w' o f); [done|lia|].
  intros s _ Hnd Hlt. rewrite Hf, Hn. done.
Qed.

Lemma StreamsDistinct_log (w : World) (es : list Effect) :
  StreamsDistinct w -> StreamsDistinct (with_log es w).
Proof. done. Qed.

Lemma StreamsDistinct_listener (this : nat) (ev : NativeEvent) (w : World) :
  StreamsDistinct w -> StreamsDistinct (exec (listener this ev) w).
Proof.
  intros HS. unfold exec.
  destruct (heap w !! this) as [s|] eqn:Hthis; [|by rewrite listener_dangling].
  destruct (decide (ev_id ev = _peerConnectionId s)) as [E|E];
    [|by rewrite (listener_mismatch _ _ _ Hthis)].
  destruct ev; cbn in E; subst; cbn [listener].
  - by rewrite (onRenegotiationNeeded_match _ _ _ Hthis).
  - destruct (decide (state = "closed")) as [->|Hs].
    + rewrite (onIceConnectionChanged_closed _ _ _ Hthis). cbn [snd].
      by eapply (StreamsDistinct_same w _ this).
    + rewrite (onIceConnectionChanged_open _ _ _ Hthis) by done. cbn [snd].
      by eapply (StreamsDistinct_same w _ this).
  - rewrite (onSignalingStateChanged_match _ _ _ Hthis). cbn [snd].
    by eapply (StreamsDistinct_same w _ this).
  - rewrite (onAddedStream_match _ _ _ Hthis). cbn [snd].
    eapply (StreamsDistinct_alter w _ this); [done|cbn; lia| |done].
    intros s0 _ Hnd Hlt. cbn [set_remoteStreams _remoteStreams nextStream]. split.
    + rewrite fmap_app. apply NoDup_app. split_and!; [done| |apply NoDup_singleton].
      intros r Hr Hin. apply list_elem_of_fmap in Hr as (stream & -> & Hstream).
      apply Hlt in Hstream. cbn in Hin. apply list_elem_of_singleton in Hin. lia.
    + intros stream Hin. apply elem_of_app in Hin as [Hin|Hin].
      * apply Hlt in Hin. lia.
      * apply list_elem_of_singleton in Hin as ->. cbn. lia.
  - destruct (List.find (fun s' => String.eqb (ms_id s') streamId) (_remoteStreams s))
      as [stream|] eqn:F.
    + rewrite (onRemovedStream_known _ _ _ Hthis _ _ F). cbn [snd].
      eapply (StreamsDistinct_alter w _ this); [done|cbn; lia| |done].
      intros s0 _ Hnd Hlt. cbn [set_remoteStreams _remoteStreams with_log with_heap nextStream].
      pose proof (splice1_sublist (indexOf stream (_remoteStreams s)) (_remoteStreams s0))
        as Hsub.
      split.
      * apply (sublist_NoDup _ (ms_ref <$> _remoteStreams s0)); [done|].
        by apply fmap_sublist.
      * intros stream' Hin. apply Hlt. by eapply elem_of_sublist.
    + by rewrite (onRemovedStream_unknown _ _ _ Hthis _ F).
  - by rewrite (onGotICECandidate_match _ _ _ Hthis).
  - rewrite (onIceGatheringChanged_match _ _ _ Hthis). cbn [snd].
    by eapply (StreamsDistinct_same w _ this).
Qed.

Lemma StreamsDistinct_step (st : Step) (w : World) :
  StreamsDistinct w -> StreamsDistinct (step st w).
Proof.
  intros HS.
  destruct st;
    try (lazymatch goal with
         | |- StreamsDistinct (step ?st _) =>
             destruct (step_command st w I) as [->|es _ ->|o f es Hf _ ->]
         end;
         [done|done|apply (StreamsDistinct_same w _ o f); [done|done|intros x; apply Hf|done]]).
  - cbn [step]. unfold exec. rewrite constructor_exec. cbn [snd].
    intros this s Hs. unfold constructedWorld in *. cbn [heap nextStream] in *.
    apply lookup_app_Some in Hs as [Hs|[_ Hs]]; [by apply (HS this s)|].
    apply list_lookup_singleton_Some in Hs as [_ <-]. cbn. split; [apply NoDup_nil_2|].
    intros stream Hin. by apply elem_of_nil in Hin.
  - cbn [step]. unfold exec, emit.
    apply (forEach_deliver_rel (fun w w' => StreamsDistinct w -> StreamsDistinct w') ev);
      [auto|auto| |done].
    intros l w0 _ _. apply StreamsDistinct_listener.
Qed.

Lemma reachable_StreamsDistinct (w : World) : reachable w -> StreamsDistinct w.
Proof.
  induction 1 as [stats|w st _ IH]; [|by apply StreamsDistinct_step].
  intros this s Hs. cbn in Hs. by rewrite lookup_nil in Hs.
Qed.

Lemma find_first_match (streamId : string) (pre post : list MediaStream)
    (stream : MediaStream) :
  (forall y, y ∈ pre -> ms_id y <> streamId) -> ms_id stream = streamId ->
  List.find (fun s' => String.eqb (ms_id s') streamId) (pre ++ stream :: post) = Some stream.
Proof.
  intros Hpre Hid. induction pre as [|y pre IH]; cbn.
  - apply String.eqb_eq in Hid. by rewrite Hid.
  - assert (ms_id y <> streamId) as Hy by (apply Hpre, elem_of_cons; by left).
    apply String.eqb_neq in Hy. rewrite Hy. apply IH.
    intros z Hz. apply Hpre, elem_of_cons. by right.
Qed.

Lemma indexOf_from_first (x : MediaStream) (pre post : list MediaStream) (i : Z) :
  (forall y, y ∈ pre -> ms_ref y <> ms_ref x) ->
  indexOf_from x (pre ++ x :: post) i = i + Z.of_nat (length pre).
Proof.
  revert i. induction pre as [|y pre IH]; intros i Hpre; cbn [app indexOf_from length].
  - rewrite Nat.eqb_refl. lia.
  - assert (ms_ref y <> ms_ref x) as Hy by (apply Hpre, elem_of_cons; by left).
    apply Nat.eqb_neq in Hy. rewrite Hy, IH; [lia|].
    intros z Hz. apply Hpre, elem_of_cons. by right.
Qed.

Lemma splice1_at {A} (pre post : list A) (x : A) :
  splice1 (Z.of_nat (length pre)) (pre ++ x :: post) = pre ++ post.
Proof.
  unfold splice1.
  replace (Z.of_nat (length pre) <? 0) with false by (symmetry; apply Z.ltb_ge; lia).
  rewrite length_app. cbn [length].
  replace (Z.to_nat (Z.min (Z.of_nat (length pre))
                       (Z.of_nat (length pre + S (length post)))))
    with (length pre) by lia.
  rewrite take_app_length.
  replace (S (length pre)) with (length (pre ++ [x])) by (rewrite length_app; cbn; lia).
  rewrite (cons_middle x pre post), app_assoc. by rewrite drop_app_length.
Qed.

(** The stream-removed listener takes out the first stream that has the
    identity, and no other. *)
Lemma emit_removed_first (w : World) (this : nat) (s : Session) (streamId : string)
    (pre post : list MediaStream) (stream : MediaStream) :
  Inv w -> heap w !! this = Some s -> subscribed this w ->
  _remoteStreams s = pre ++ stream :: post ->
  ms_id stream = streamId ->
  (forall y, y ∈ pre -> ms_id y <> streamId) ->
  (forall y, y ∈ pre -> ms_ref y <> ms_ref stream) ->
  emit (peerConnectionRemovedStream (_peerConnectionId s) streamId) w
  = (Ok tt,
     with_log (log w ++ [Dispatched this (MediaStreamEvent "removestream" (Some stream))
                           (set_remoteStreams (pre ++ post) s)])
       (with_heap (alter (set_remoteStreams (pre ++ post)) this (heap w)) w)).
Proof.
  intros HI Hthis Hsub Hrs Hid Hids Hrefs.
  rewrite (emit_subscribed _ _ _ (peerConnectionRemovedStream (_peerConnectionId s) streamId)
             HI Hthis Hsub eq_refl).
  unfold exec. cbn [listener].
  assert (List.find (fun s' => String.eqb (ms_id s') streamId) (_remoteStreams s)
          = Some stream) as F by (rewrite Hrs; by apply find_first_match).
  rewrite (onRemovedStream_known _ _ _ Hthis _ _ F). cbn [snd].
  assert (splice1 (indexOf stream (_remoteStreams s)) (_remoteStreams s) = pre ++ post)
    as Hsplice.
  { rewrite Hrs. unfold indexOf. rewrite indexOf_from_first by done. apply splice1_at. }
  rewrite Hsplice. do 3 f_equal.
  apply list_alter_ext; [|done].
  intros x Hx. assert (x = s) as -> by congruence. by rewrite Hsplice.
Qed.

(** X5.  A stream-removed event delivered to a subscribed connection takes
    the first remote stream with that identity out of the list, keeps the
    others in their order (also later streams of the same identity), and
    dispatches 'removestream' with the stream it took out. *)
Theorem removed_stream_is_first_match (w : World) (this : nat) (s : Session)
    (streamId : string) (pre post : list MediaStream) (stream : MediaStream) :
  reachable w -> heap w !! this = Some s -> subscribed this w ->
  _remoteStreams s = pre ++ stream :: post ->
  ms_id stream = streamId ->
  (forall y, y ∈ pre -> ms_id y <> streamId) ->
  let ev := peerConnectionRemovedStream (_peerConnectionId s) streamId in
  outcome (emit ev) w = Ok tt
  /\ heap (exec (emit ev) w) !! this = Some (set_remoteStreams (pre ++ post) s)
  /\ log (exec (emit ev) w)
     = log w ++ [Dispatched this (MediaStreamEvent "removestream" (Some stream))
                   (set_remoteStreams (pre ++ post) s)].
Proof.
  intros Hreach Hthis Hsub Hrs Hid Hids ev.
  assert (forall y, y ∈ pre -> ms_ref y <> ms_ref stream) as Hrefs.
  { destruct (reachable_StreamsDistinct _ Hreach _ _ Hthis) as [Hnd _].
    rewrite Hrs, fmap_app, fmap_cons in Hnd.
    apply NoDup_app in Hnd as (_ & Hdisj & _).
    intros y Hy E. apply (Hdisj (ms_ref y)); [by apply list_elem_of_fmap_2|].
    rewrite E. apply elem_of_cons. by left. }
  unfold outcome, exec. subst ev.
  rewrite (emit_removed_first w this s streamId pre post stream
             (reachable_Inv _ Hreach) Hthis Hsub Hrs Hid Hids Hrefs).
  cbn [fst snd with_log with_heap heap log].
  by rewrite list_lookup_alter_eq, Hthis.
Qed.

Lemma removed_stream_is_first_match_witness :
  let w := run [Emit (peerConnectionAddedStream 0 "s1" []);
                Emit (peerConnectionAddedStream 0 "s1" [])] (oneConnection false) in
  let first := {| ms_ref := 0; ms_id := "s1"; ms_tracks := [] |} in
  let second := {| ms_ref := 1; ms_id := "s1"; ms_tracks := [] |} in
  let s := set_remoteStreams [first; second] firstSession in
  (reachable w /\ heap w !! 0%nat = Some s /\ subscribed 0 w
   /\ _remoteStreams s = [] ++ first :: [second]
   /\ ms_id first = "s1"
   /\ (forall y, y ∈ ([] : list MediaStream) -> ms_id y <> "s1"))
  /\ let ev := peerConnectionRemovedStream (_peerConnectionId s) "s1" in
     outcome (emit ev) w = Ok tt
     /\ heap (exec (emit ev) w) !! 0%nat = Some (set_remoteStreams ([] ++ [second]) s)
     /\ log (exec (emit ev) w)
        = log w ++ [Dispatched 0 (MediaStreamEvent "removestream" (Some first))
                      (set_remoteStreams ([] ++ [second]) s)].
Proof.
  intros w first second s.
  assert (reachable w) as Hreach
    by (repeat apply reachable_step; apply reachable_initial).
  assert (heap w !! 0%nat = Some s) as Hthis by (vm_compute; reflexivity).
  assert (subscribed 0 w) as Hsub by (unfold subscribed; vm_compute; discriminate).
  assert (_remoteStreams s = [] ++ first :: [second]) as Hrs by reflexivity.
  assert (ms_id first = "s1") as Hid by reflexivity.
  assert (forall y, y ∈ ([] : list MediaStream) -> ms_id y <> "s1") as Hpre
    by (intros y Hy; apply elem_of_nil in Hy; destruct Hy).
  split; [repeat split; assumption|].
  exact (removed_stream_is_first_match w 0 s "s1" [] [second] first
           Hreach Hthis Hsub Hrs Hid Hpre).
Defined.

(** X6.  Round trip of the remote streams.  On a subscribed connection
    that has no remote stream of the identity, stream-added followed by
    stream-removed for that identity leaves the connection as it was; the
    'addstream' and the 'removestream' notification carry the same stream
    object, whose tracks are those of the payload, in its order. *)
Theorem stream_added_then_removed (w : World) (this : nat) (s : Session)
    (streamId : string) (tracks : list TrackInfo) :
  reachable w -> heap w !! this = Some s -> subscribed this w ->
  (forall y, y ∈ _remoteStreams s -> ms_id y <> streamId) ->
  let stream := {| ms_ref := nextStream w; ms_id := streamId;
                   ms_tracks := map newMediaStreamTrack tracks |} in
  let w1 := step (Emit (peerConnectionAddedStream (_peerConnectionId s) streamId tracks)) w in
  let w2 := step (Emit (peerConnectionRemovedStream (_peerConnectionId s) streamId)) w1 in
  _remoteStreams <$> heap w1 !! this = Some (_remoteStreams s ++ [stream])
  /\ heap w2 !! this = Some s
  /\ dispatched this (log w2)
     = dispatched this (log w)
       ++ [MediaStreamEvent "addstream" (Some stream);
           MediaStreamEvent "removestream" (Some stream)].
Proof.
  intros Hreach Hthis Hsub Hfresh stream w1 w2.
  pose proof (reachable_Inv _ Hreach) as HI.
  assert (w1 = snd (onAddedStream this (_peerConnectionId s) streamId tracks w)) as Hw1.
  { subst w1. cbn [step]. unfold exec.
    by rewrite (emit_subscribed _ _ _
                  (peerConnectionAddedStream (_peerConnectionId s) streamId tracks)
                  HI Hthis Hsub eq_refl). }
  rewrite (onAddedStream_match _ _ _ Hthis) in Hw1. cbn [snd] in Hw1.
  change (constructedStream w streamId tracks) with stream in Hw1.
  set (s1 := set_remoteStreams (_remoteStreams s ++ [stream]) s).
  assert (heap w1 !! this = Some s1) as Hthis1.
  { rewrite Hw1. cbn [heap]. by rewrite list_lookup_alter_eq, Hthis. }
  assert (Inv w1) as HI1 by (by apply Inv_emit).
  assert (subscribed this w1) as Hsub1 by (by rewrite Hw1).
  assert (forall y, y ∈ _remoteStreams s -> ms_ref y <> ms_ref stream) as Hrefs.
  { intros y Hy E. destruct (reachable_StreamsDistinct _ Hreach _ _ Hthis) as [_ Hlt].
    apply Hlt in Hy. cbn in E. lia. }
  assert (dispatched this (log w1)
          = dispatched this (log w) ++ [MediaStreamEvent "addstream" (Some stream)]) as Hd1.
  { rewrite Hw1. cbn [log]. apply dispatched_here. }
  subst w2. cbn [step]. unfold exec.
  change (_peerConnectionId s) with (_peerConnectionId s1).
  rewrite (emit_removed_first w1 this s1 streamId (_remoteStreams s) [] stream
             HI1 Hthis1 Hsub1 eq_refl eq_refl Hfresh Hrefs).
  cbn [snd with_log with_heap heap log].
  rewrite list_lookup_alter_eq, Hthis1, dispatched_here, Hd1, <- app_assoc.
  split_and!; [done| |done].
  cbn. rewrite app_nil_r. by destruct s.
Qed.

Lemma stream_added_then_removed_witness :
  (reachable (oneConnection false)
   /\ heap (oneConnection false) !! 0%nat = Some firstSession
   /\ subscribed 0 (oneConnection false)
   /\ (forall y, y ∈ _remoteStreams firstSession -> ms_id y <> "s1"))
  /\ let tracks := [{| ti_id := "t1"; ti_kind := "audio"; ti_enabled := true |}] in
     let stream := {| ms_ref := nextStream (oneConnection false); ms_id := "s1";
                      ms_tracks := map newMediaStreamTrack tracks |} in
     let w1 := step (Emit (peerConnectionAddedStream (_peerConnectionId firstSession)
                             "s1" tracks)) (oneConnection false) in
     let w2 := step (Emit (peerConnectionRemovedStream (_peerConnectionId firstSession)
                             "s1")) w1 in
     _remoteStreams <$> heap w1 !! 0%nat = Some (_remoteStreams firstSession ++ [stream])
     /\ heap w2 !! 0%nat = Some firstSession
     /\ dispatched 0 (log w2)
        = dispatched 0 (log (oneConnection false))
          ++ [MediaStreamEvent "addstream" (Some stream);
              MediaStreamEvent "removestream" (Some stream)].
Proof.
  assert (reachable (oneConnection false)) as Hreach
    by apply reachable_step, reachable_initial.
  assert (heap (oneConnection false) !! 0%nat = Some firstSession) as Hthis
    by (vm_compute; reflexivity).
  assert (subscribed 0 (oneConnection false)) as Hsub
    by (unfold subscribed; vm_compute; discriminate).
  assert (forall y, y ∈ _remoteStreams firstSession -> ms_id y <> "s1") as Hfresh
    by (intros y Hy; vm_compute in Hy; apply elem_of_nil in Hy; destruct Hy).
  split; [repeat split; assumption|].
  exact (stream_added_then_removed (oneConnection false) 0 firstSession "s1"
           [{| ti_id := "t1"; ti_kind := "audio"; ti_enabled := true |}]
           Hreach Hthis Hsub Hfresh).
Defined.

(** X7.  [setRemoteDescription(d)] writes nothing itself.  When its
    completion reports success the connection's [remoteDescription] is the
    caller's [d], whatever the engine passed along, and [localDescription]
    is untouched; the write does not wait for [success]: with [success]
    omitted the completion throws and the field has been written all the
    same.  When it reports failure no object changes and [failure]
    receives the engine's payload, or the completion throws when [failure]
    was omitted. *)
Theorem setRemoteDescription_roundtrip (w : World) (this : nat) (s : Session)
    (d : RTCSessionDescription) (success failure : option Fn) :
  heap w !! this = Some s ->
  let cb := SetRemoteDescriptionCallback this d success failure in
  setRemoteDescription this d success failure w
  = (Ok tt,
     with_log (log w ++ [Native (peerConnectionSetRemoteDescription
                                   (RTCSessionDescription_toJSON d)
                                   (_peerConnectionId s) cb)]) w)
  /\ (forall (w' : World) (s' : Session) (data : Data),
        heap w' !! this = Some s' ->
        let succeeded := exec (invoke cb (true, data)) w' in
        let failed := exec (invoke cb (false, data)) w' in
        heap succeeded !! this = Some (set_remoteDescription d s')
        /\ remoteDescription (set_remoteDescription d s') = Some d
        /\ localDescription (set_remoteDescription d s') = localDescription s'
        /\ outcome (invoke cb (true, data)) w' = unguarded success
        /\ log succeeded = log w' ++ calls success []
        /\ heap failed = heap w'
        /\ outcome (invoke cb (false, data)) w' = unguarded failure
        /\ log failed = log w' ++ calls failure [ArgData data]).
Proof.
  intros Hthis cb. split.
  - unfold setRemoteDescription, bind. by rewrite (getThis_here _ _ _ Hthis).
  - intros w' s' data Hthis'. cbn [invoke cb fst snd].
    unfold exec, outcome, setRemoteDescription_callback, bind, modifyThis, call, tell,
      throw, unguarded, calls.
    split_and!.
    + destruct success; cbn; by rewrite list_lookup_alter_eq, Hthis'.
    + done.
    + done.
    + by destruct success.
    + destruct success; cbn; by rewrite ?app_nil_r.
    + by destruct failure.
    + by destruct failure.
    + destruct failure; cbn; by rewrite ?app_nil_r.
Qed.

Lemma setRemoteDescription_roundtrip_witness :
  heap (oneConnection false) !! 0%nat = Some firstSession
  /\ let d := {| sd_type := Some "answer"; sd_sdp := Some "v=0" |} in
     let cb := SetRemoteDescriptionCallback 0 d None (Some 2%nat) in
     setRemoteDescription 0 d None (Some 2%nat) (oneConnection false)
     = (Ok tt,
        with_log (log (oneConnection false)
                  ++ [Native (peerConnectionSetRemoteDescription
                                (RTCSessionDescription_toJSON d)
                                (_peerConnectionId firstSession) cb)])
          (oneConnection false))
     /\ (forall (w' : World) (s' : Session) (data : Data),
           heap w' !! 0%nat = Some s' ->
           let succeeded := exec (invoke cb (true, data)) w' in
           let failed := exec (invoke cb (false, data)) w' in
           heap succeeded !! 0%nat = Some (set_remoteDescription d s')
           /\ remoteDescription (set_remoteDescription d s') = Some d
           /\ localDescription (set_remoteDescription d s') = localDescription s'
           /\ outcome (invoke cb (true, data)) w' = unguarded None
           /\ log succeeded = log w' ++ calls None []
           /\ heap failed = heap w'
           /\ outcome (invoke cb (false, data)) w' = unguarded (Some 2%nat)
           /\ log failed = log w' ++ calls (Some 2%nat) [ArgData data]).
Proof.
  assert (heap (oneConnection false) !! 0%nat = Some firstSession) as Hthis
    by (vm_compute; reflexivity).
  split; [assumption|].
  exact (setRemoteDescription_roundtrip (oneConnection false) 0 firstSession
           {| sd_type := Some "answer"; sd_sdp := Some "v=0" |}
           None (Some 2%nat) Hthis).
Defined.

Lemma lastSuccessful_cons (current : option RTCSessionDescription) (c : Completion)
    (cs : list Completion) :
  lastSuccessful current (c :: cs)
  = lastSuccessful (if c_successful c then Some (c_description c) else current) cs.
Proof.
  unfold lastSuccessful. cbn. destruct (c_successful c); [|done].
  rewrite last_cons. by destruct (last _).
Qed.

Lemma localCompletion_step (w : World) (this : nat) (s : Session) (c : Completion) :
  heap w !! this = Some s ->
  heap (step (localCompletion this c) w) !! this
  = Some (if c_successful c then set_localDescription (c_description c) s else s).
Proof.
  intros Hthis. destruct c as [d success failure successful data].
  unfold localCompletion, step, exec, invoke, setLocalDescription_callback,
    bind, modifyThis, call, tell, throw.
  cbn [fst snd c_description c_success c_failure c_successful c_data].
  destruct successful, success, failure; cbn;
    by rewrite ?list_lookup_alter_eq, ?Hthis.
Qed.

Lemma remoteCompletion_step (w : World) (this : nat) (s : Session) (c : Completion) :
  heap w !! this = Some s ->
  heap (step (remoteCompletion this c) w) !! this
  = Some (if c_successful c then set_remoteDescription (c_description c) s else s).
Proof.
  intros Hthis. destruct c as [d success failure successful data].
  unfold remoteCompletion, step, exec, invoke, setRemoteDescription_callback,
    bind, modifyThis, call, tell, throw.
  cbn [fst snd c_description c_success c_failure c_successful c_data].
  destruct successful, success, failure; cbn;
    by rewrite ?list_lookup_alter_eq, ?Hthis.
Qed.

(** X8.  Overlapping set-description calls are not serialised: whatever the
    order of the calls, after a sequence of completions the connection's
    [localDescription] (and likewise [remoteDescription]) is the
    description of the last completion that reported success, in the order
    the completions arrive; failed completions and omitted continuations
    do not change that. *)
Theorem description_of_last_successful_completion (w : World) (this : nat) (s : Session)
    (cs : list Completion) :
  heap w !! this = Some s ->
  localDescription <$> heap (run (map (localCompletion this) cs) w) !! this
  = Some (lastSuccessful (localDescription s) cs)
  /\ remoteDescription <$> heap (run (map (remoteCompletion this) cs) w) !! this
     = Some (lastSuccessful (remoteDescription s) cs).
Proof.
  intros Hthis. split.
  - revert w s Hthis. induction cs as [|c cs IH]; intros w s Hthis.
    { cbn. by rewrite Hthis. }
    cbn [map run fold_left].
    fold (run (map (localCompletion this) cs) (step (localCompletion this c) w)).
    rewrite (IH _ _ (localCompletion_step w this s c Hthis)), lastSuccessful_cons.
    by destruct (c_successful c).
  - revert w s Hthis. induction cs as [|c cs IH]; intros w s Hthis.
    { cbn. by rewrite Hthis. }
    cbn [map run fold_left].
    fold (run (map (remoteCompletion this) cs) (step (remoteCompletion this c) w)).
    rewrite (IH _ _ (remoteCompletion_step w this s c Hthis)), lastSuccessful_cons.
    by destruct (c_successful c).
Qed.

Lemma description_of_last_successful_completion_witness :
  heap (oneConnection false) !! 0%nat = Some firstSession
  /\ let offer := {| sd_type := Some "offer"; sd_sdp := Some "first" |} in
     let later := {| sd_type := Some "offer"; sd_sdp := Some "second" |} in
     let nothing := {| data_type := None; data_sdp := None; data_diagnostic := None |} in
     let cs := [{| c_description := later; c_success := None; c_failure := None;
                   c_successful := true; c_data := nothing |};
                {| c_description := offer; c_success := Some 1%nat; c_failure := Some 2%nat;
                   c_successful := true; c_data := nothing |};
                {| c_description := later; c_success := Some 1%nat; c_failure := Some 2%nat;
                   c_successful := false; c_data := nothing |}] in
     localDescription <$> heap (run (map (localCompletion 0) cs) (oneConnection false)) !! 0%nat
     = Some (lastSuccessful (localDescription firstSession) cs)
     /\ remoteDescription
          <$> heap (run (map (remoteCompletion 0) cs) (oneConnection false)) !! 0%nat
        = Some (lastSuccessful (remoteDescription firstSession) cs).
Proof.
  assert (heap (oneConnection false) !! 0%nat = Some firstSession) as Hthis
    by (vm_compute; reflexivity).
  split; [assumption|].
  exact (description_of_last_successful_completion (oneConnection false) 0 firstSession
           [{| c_description := {| sd_type := Some "offer"; sd_sdp := Some "second" |};
               c_success := None; c_failure := None; c_successful := true;
               c_data := {| data_type := None; data_sdp := None; data_diagnostic := None |} |};
            {| c_description := {| sd_type := Some "offer"; sd_sdp := Some "first" |};
               c_success := Some 1%nat; c_failure := Some 2%nat; c_successful := true;
               c_data := {| data_type := None; data_sdp := None; data_diagnostic := None |} |};
            {| c_description := {| sd_type := Some "offer"; sd_sdp := Some "second" |};
               c_success := Some 1%nat; c_failure := Some 2%nat; c_successful := false;
               c_data := {| data_type := None; data_sdp := None; data_diagnostic := None |} |}]
           Hthis).
Defined.

(** X9.  Tearing one connection down, or any other event that carries
    another id, costs a connection none of its listeners: it stays
    subscribed, with the same registrations, and goes on receiving its
    own events. *)
Theorem other_connections_keep_listeners (w : World) (other : nat) (so : Session)
    (ev : NativeEvent) :
  reachable w -> heap w !! other = Some so ->
  ev_id ev <> _peerConnectionId so ->
  owned other (listeners (exec (emit ev) w)) = owned other (listeners w)
  /\ (subscribed other w -> subscribed other (exec (emit ev) w))
  /\ (subscribed other w ->
      forall state,
        signalingState
          <$> heap (exec (emit (peerConnectionSignalingStateChanged
                                  (_peerConnectionId so) state))
                      (exec (emit ev) w)) !! other
        = Some state).
Proof.
  intros Hreach Hother Hne. pose proof (reachable_Inv _ Hreach) as HI.
  pose proof (emit_other_subscribed w other so ev HI Hother Hne) as Hown.
  destruct (emit_other_identity w other so ev Hother Hne) as [Hh _].
  assert (subscribed other w -> subscribed other (exec (emit ev) w)) as Hsub
    by (unfold subscribed; by rewrite Hown).
  split_and!; [done|done|].
  intros Hs state. unfold exec at 1.
  rewrite (emit_subscribed _ _ _
             (peerConnectionSignalingStateChanged (_peerConnectionId so) state)
             (Inv_emit ev w HI) Hh (Hsub Hs) eq_refl).
  cbn [snd listener]. unfold exec at 1.
  rewrite (onSignalingStateChanged_match _ _ _ Hh). cbn [snd with_log with_heap heap].
  by rewrite list_lookup_alter_eq, Hh.
Qed.

Lemma other_connections_keep_listeners_witness :
  (reachable (run [New "{}"; New "{}"] (initial false))
   /\ heap (run [New "{}"; New "{}"] (initial false)) !! 1%nat
      = Some (set_subscriptions (seq 7 7) (newSession 1))
   /\ ev_id (peerConnectionIceConnectionChanged 0 "closed")
      <> _peerConnectionId (set_subscriptions (seq 7 7) (newSession 1)))
  /\ owned 1 (listeners (exec (emit (peerConnectionIceConnectionChanged 0 "closed"))
                           (run [New "{}"; New "{}"] (initial false))))
     = owned 1 (listeners (run [New "{}"; New "{}"] (initial false)))
  /\ (subscribed 1 (run [New "{}"; New "{}"] (initial false)) ->
      subscribed 1 (exec (emit (peerConnectionIceConnectionChanged 0 "closed"))
                      (run [New "{}"; New "{}"] (initial false))))
  /\ (subscribed 1 (run [New "{}"; New "{}"] (initial false)) ->
      forall state,
        signalingState
          <$> heap (exec (emit (peerConnectionSignalingStateChanged
                                  (_peerConnectionId
                                     (set_subscriptions (seq 7 7) (newSession 1))) state))
                      (exec (emit (peerConnectionIceConnectionChanged 0 "closed"))
                         (run [New "{}"; New "{}"] (initial false)))) !! 1%nat
        = Some state).
Proof.
  assert (reachable (run [New "{}"; New "{}"] (initial false))) as Hreach
    by (repeat apply reachable_step; apply reachable_initial).
  assert (heap (run [New "{}"; New "{}"] (initial false)) !! 1%nat
          = Some (set_subscriptions (seq 7 7) (newSession 1))) as Hother
    by (vm_compute; reflexivity).
  assert (ev_id (peerConnectionIceConnectionChanged 0 "closed")
          <> _peerConnectionId (set_subscriptions (seq 7 7) (newSession 1))) as Hne
    by (vm_compute; discriminate).
  split; [repeat split; assumption|].
  exact (other_connections_keep_listeners (run [New "{}"; New "{}"] (initial false)) 1
           (set_subscriptions (seq 7 7) (newSession 1))
           (peerConnectionIceConnectionChanged 0 "closed") Hreach Hother Hne).
Defined.

(** X10.  [_unregisterEvents] removes from the emitter the subscriptions
    the connection stores, each once and in order, and empties
    [_subscriptions]; called again it finds nothing to remove and changes
    nothing. *)
Theorem unregisterEvents_idempotent (w : World) (this : nat) (s : Session) :
  heap w !! this = Some s ->
  let w1 := exec (_unregisterEvents this) w in
  outcome (_unregisterEvents this) w = Ok tt
  /\ listeners w1 = filter (fun l => l_subscription l ∉ _subscriptions s) (listeners w)
  /\ log w1 = log w ++ map Removed (_subscriptions s)
  /\ heap w1 !! this = Some (set_subscriptions [] s)
  /\ _unregisterEvents this w1 = (Ok tt, w1).
Proof.
  intros Hthis w1.
  assert (_unregisterEvents this w
          = (Ok tt,
             {| heap := alter (set_subscriptions []) this (heap w);
                listeners := filter (fun l => l_subscription l ∉ _subscriptions s)
                               (listeners w);
                nextPeerConnectionId := nextPeerConnectionId w;
                nextSubscription := nextSubscription w;
                nextStream := nextStream w;
                hasGetStats := hasGetStats w;
                log := log w ++ map Removed (_subscriptions s) |})) as Hfirst.
  { unfold _unregisterEvents, bind. rewrite (getThis_here _ _ _ Hthis), forEach_remove.
    reflexivity. }
  subst w1. unfold outcome, exec. rewrite Hfirst. cbn [fst snd heap listeners log].
  split_and!; [done|done|done|by rewrite list_lookup_alter_eq, Hthis|].
  unfold _unregisterEvents, bind, getThis. cbn [heap].
  rewrite list_lookup_alter_eq, Hthis. cbn [fmap option_fmap option_map set_subscriptions
                                            _subscriptions].
  rewrite forEach_remove. unfold modifyThis, with_heap. cbn.
  rewrite filter_not_in_nil, app_nil_r, list_alter_alter_eq.
  by rewrite (list_alter_ext (set_subscriptions [] ∘ set_subscriptions [])
                (set_subscriptions []) (heap w) (heap w) this).
Qed.

Lemma unregisterEvents_idempotent_witness :
  heap (oneConnection false) !! 0%nat = Some firstSession
  /\ let w1 := exec (_unregisterEvents 0) (oneConnection false) in
     outcome (_unregisterEvents 0) (oneConnection false) = Ok tt
     /\ listeners w1
        = filter (fun l => l_subscription l ∉ _subscriptions firstSession)
            (listeners (oneConnection false))
     /\ log w1 = log (oneConnection false) ++ map Removed (_subscriptions firstSession)
     /\ heap w1 !! 0%nat = Some (set_subscriptions [] firstSession)
     /\ _unregisterEvents 0 w1 = (Ok tt, w1).
Proof.
  assert (heap (oneConnection false) !! 0%nat = Some firstSession) as Hthis
    by (vm_compute; reflexivity).
  split; [assumption|].
  exact (unregisterEvents_idempotent (oneConnection false) 0 firstSession Hthis).
Defined.

Lemma notificationType_dispatchable (ev : NativeEvent) : dispatchable (notificationType ev).
Proof.
  destruct ev; (split_and!; [|discriminate|discriminate]);
    unfold PEER_CONNECTION_EVENTS; cbn [notificationType];
    repeat (apply elem_of_cons; first [by left|right]).
Qed.

Lemma dispatchedTypes_app (l1 l2 : list Effect) :
  dispatchedTypes (l1 ++ l2) = dispatchedTypes l1 ++ dispatchedTypes l2.
Proof. apply omap_app. Qed.

Lemma dispatchedTypes_removed (hs : list nat) : dispatchedTypes (map Removed hs) = [].
Proof. induction hs as [|h hs IH]; [done|]. cbn. apply IH. Qed.

Lemma dispatchedTypes_none (es : list Effect) :
  (forall o, dispatched o es = []) -> dispatchedTypes es = [].
Proof.
  induction es as [|e es IH]; intros Hnone; [done|].
  destruct e as [c|target ev seen|f args|message|subscription]; cbn;
    try (apply IH; intros o; specialize (Hnone o); by cbn in Hnone).
  specialize (Hnone target). cbn in Hnone. by rewrite Nat.eqb_refl in Hnone.
Qed.

(** What a listener adds to the log: at most one dispatch, of the type of
    its event, and then removals only. *)
Lemma listener_dispatches (this : nat) (ev : NativeEvent) (w : World) :
  exists es, log (exec (listener this ev) w) = log w ++ es
             /\ (dispatchedTypes es = [] \/ dispatchedTypes es = [notificationType ev]).
Proof.
  unfold exec.
  destruct (heap w !! this) as [s|] eqn:Hthis;
    [|exists []; rewrite listener_dangling, app_nil_r by done; split; [done|by left]].
  destruct (decide (ev_id ev = _peerConnectionId s)) as [E|E];
    [|exists []; rewrite (listener_mismatch _ _ _ Hthis), app_nil_r by done;
      split; [done|by left]].
  destruct ev; cbn in E; subst; cbn [listener].
  - rewrite (onRenegotiationNeeded_match _ _ _ Hthis). eexists. split; [done|by right].
  - destruct (decide (state = "closed")) as [->|Hs].
    + rewrite (onIceConnectionChanged_closed _ _ _ Hthis). eexists. split; [done|right].
      rewrite dispatchedTypes_app, dispatchedTypes_removed. done.
    + rewrite (onIceConnectionChanged_open _ _ _ Hthis) by done.
      eexists. split; [done|by right].
  - rewrite (onSignalingStateChanged_match _ _ _ Hthis). eexists. split; [done|by right].
  - rewrite (onAddedStream_match _ _ _ Hthis). eexists. split; [done|by right].
  - destruct (List.find (fun s' => String.eqb (ms_id s') streamId) (_remoteStreams s))
      as [stream|] eqn:F.
    + rewrite (onRemovedStream_known _ _ _ Hthis _ _ F). eexists. split; [done|by right].
    + rewrite (onRemovedStream_unknown _ _ _ Hthis _ F). eexists. split; [done|by right].
  - rewrite (onGotICECandidate_match _ _ _ Hthis). eexists. split; [done|by right].
  - rewrite (onIceGatheringChanged_match _ _ _ Hthis). eexists. split; [done|by right].
Qed.

Lemma dispatchable_step (st : Step) (w : World) :
  Forall dispatchable (dispatchedTypes (log w)) ->
  Forall dispatchable (dispatchedTypes (log (step st w))).
Proof.
  intros HF.
  destruct st;
    try (lazymatch goal with
         | |- Forall _ (dispatchedTypes (log (step ?st _))) =>
             destruct (step_command st w I) as [->|es Hes ->|o f es _ Hes ->]
         end;
         [done|..]; cbn [log with_log with_heap];
         by rewrite dispatchedTypes_app, (dispatchedTypes_none es Hes), app_nil_r).
  - cbn [step]. unfold exec. rewrite constructor_exec. unfold constructedWorld.
    cbn [snd log]. rewrite dispatchedTypes_app. cbn. by rewrite app_nil_r.
  - cbn [step]. unfold exec, emit. revert HF.
    apply (forEach_deliver_rel
             (fun w w' => Forall dispatchable (dispatchedTypes (log w)) ->
                          Forall dispatchable (dispatchedTypes (log w'))) ev);
      [auto|auto|].
    intros l w0 _ _ H0.
    destruct (listener_dispatches (l_this l) ev w0) as (es & -> & [Hes|Hes]);
      rewrite dispatchedTypes_app, Hes; [by rewrite app_nil_r|].
    apply Forall_app. split; [done|].
    apply Forall_singleton, notificationType_dispatchable.
Qed.

(** X11.  Of the nine event types the class declares, it dispatches seven:
    in every world the program reaches, each event dispatched on any
    connection has a declared type, and none is 'connectionstatechange'
    or 'icecandidateerror'. *)
Theorem only_declared_types_dispatched (w : World) (type : string) :
  reachable w -> type ∈ dispatchedTypes (log w) ->
  type ∈ PEER_CONNECTION_EVENTS
  /\ type <> "connectionstatechange"
  /\ type <> "icecandidateerror".
Proof.
  intros Hreach Hin.
  assert (Forall dispatchable (dispatchedTypes (log w))) as HF.
  { clear Hin. induction Hreach as [stats|w st _ IH]; [by apply Forall_nil|].
    by apply dispatchable_step. }
  rewrite Forall_forall in HF. by apply HF.
Qed.

Lemma only_declared_types_dispatched_witness :
  (reachable (step (Emit (peerConnectionOnRenegotiationNeeded 0)) (oneConnection false))
   /\ "negotiationneeded"
      ∈ dispatchedTypes
          (log (step (Emit (peerConnectionOnRenegotiationNeeded 0)) (oneConnection false))))
  /\ "negotiationneeded" ∈ PEER_CONNECTION_EVENTS
  /\ "negotiationneeded" <> "connectionstatechange"
  /\ "negotiationneeded" <> "icecandidateerror".
Proof.
  assert (reachable (step (Emit (peerConnectionOnRenegotiationNeeded 0))
                       (oneConnection false))) as Hreach
    by (repeat apply reachable_step; apply reachable_initial).
  assert ("negotiationneeded"
          ∈ dispatchedTypes
              (log (step (Emit (peerConnectionOnRenegotiationNeeded 0))
                      (oneConnection false)))) as Hin
    by (vm_compute; apply elem_of_cons; left; reflexivity).
  split; [split; assumption|].
  exact (only_declared_types_dispatched _ "negotiationneeded" Hreach Hin).
Defined.



(** X13.  A call of [addStream], [removeStream], [createOffer],
    [createAnswer], [setLocalDescription], [setRemoteDescription],
    [addIceCandidate], [getStats] or [close] on a connection changes
    nothing but the log, and what it adds is exactly one effect: a native
    call addressed to the connection's own id, or, for [getStats] on an
    engine without statistics and for no other method, the warning.  The
    methods look at no state field, so this holds as well after the
    connection has closed. *)
Theorem method_calls_carry_own_id (w : World) (this : nat) (s : Session) (st : Step) :
  heap w !! this = Some s -> calledOn this st ->
  exists e,
    step st w = with_log (log w ++ [e]) w
    /\ match e with
       | Native c => nativeId c = _peerConnectionId s
       | Warned _ =>
           hasGetStats w = false
           /\ exists track success failure, st = GetStats this track success failure
       | _ => False
       end.
Proof.
  intros Hthis Hon.
  destruct st; cbn in Hon; try done; subst;
    unfold step, exec,
      addStream, removeStream, createOffer, createAnswer, setLocalDescription,
      setRemoteDescription, addIceCandidate, getStats, close,
      bind, native, tell;
    try destruct (hasGetStats w) eqn:Hstats;
    rewrite ?(getThis_here _ _ _ Hthis); cbn [snd];
    eexists; (split; [reflexivity|]); cbn beta iota;
    first [reflexivity|split; [reflexivity|by eexists _, _, _]].
Qed.

Lemma method_calls_carry_own_id_witness :
  (heap (step (Emit (peerConnectionIceConnectionChanged 0 "closed"))
           (oneConnection false)) !! 0%nat
   = Some (set_subscriptions [] (set_iceConnectionState "closed" firstSession))
   /\ calledOn 0 (Close 0))
  /\ exists e,
       step (Close 0) (step (Emit (peerConnectionIceConnectionChanged 0 "closed"))
                         (oneConnection false))
       = with_log (log (step (Emit (peerConnectionIceConnectionChanged 0 "closed"))
                          (oneConnection false)) ++ [e])
           (step (Emit (peerConnectionIceConnectionChanged 0 "closed"))
              (oneConnection false))
       /\ match e with
          | Native c =>
              nativeId c
              = _peerConnectionId
                  (set_subscriptions [] (set_iceConnectionState "closed" firstSession))
          | Warned _ =>
              hasGetStats (step (Emit (peerConnectionIceConnectionChanged 0 "closed"))
                             (oneConnection false)) = false
              /\ exists track success failure, Close 0 = GetStats 0 track success failure
          | _ => False
          end.
Proof.
  assert (heap (step (Emit (peerConnectionIceConnectionChanged 0 "closed"))
                  (oneConnection false)) !! 0%nat
          = Some (set_subscriptions [] (set_iceConnectionState "closed" firstSession)))
    as Hthis by (vm_compute; reflexivity).
  assert (calledOn 0 (Close 0)) as Hon by reflexivity.
  split; [split; assumption|].
  exact (method_calls_carry_own_id _ 0 _ (Close 0) Hthis Hon).
Defined.
